(** * Folders-Synchronizer: a model of [synchronizer.py]

    The program mirrors a source directory tree onto a replica tree.  The
    filesystem it works on is modelled as a finite map from paths to
    entries; the functions of the script are embedded over that map with an
    explicit state and an outcome type for the exceptions Python can raise.

    Conventions of the model.
    - A path is the list of its components, with the ['.'] components
      dropped: [os.path.join] is list concatenation and
      [os.path.relpath(root, top)] is the list left after [top].
    - There are regular files and directories only (no symbolic links).
    - Time is a logical clock kept in the state: every filesystem mutation
      stamps the entries it touches with the clock and advances it by one.
    - A directory is listed in the order of the map; the properties below
      use of a listing only that it holds each name of the directory once.
    - The log file lives outside the two trees; its lines and the lines
      printed on the console are kept as lists of structured events.  A run
      whose log file would lie inside one of the trees is not modelled.
    - What the interpreter and the platform decide is kept open: the
      conversion [int] is an argument of [getting_args], and the conversion
      of a modification time to a date is a component of the state.  The
      time stamps the kernel sets ([st_ctime], the current time) are taken
      to be in the range of dates.
    - The working directory is the root; a folder argument is modelled when
      it is not empty and has no ['..'] component.

    The model comes first, then the predicates the properties are stated
    with and the filesystems they are tried on, then the properties. *)

From stdpp Require Import base gmap list strings.
From Stdlib Require Import Ascii ZArith Lia.

Local Open Scope Z_scope.

(** ** Data model *)

Abbreviation path := (list string).

Inductive kind :=
  | KFile (content : string)
  | KDir.

Record entry := Entry { ekind : kind; st_mtime : Z; st_ctime : Z }.

Inductive noun := NFile | NFolder.
Inductive verb := Created | Modified | Deleted.

(** One line of the log: [<Noun> '<path>' was <verb> at|before <timestamp>]. *)
Record event := Event { ev_noun : noun; ev_path : path; ev_verb : verb; ev_time : Z }.

(** The exceptions of the model; all but [ValueError] and [OverflowError]
    are subclasses of [OSError], and [OSError] stands for its other
    instances. *)
Inductive exn :=
  | FileNotFoundError
  | FileExistsError
  | NotADirectoryError
  | IsADirectoryError
  | DirectoryNotEmpty      (* OSError with errno ENOTEMPTY *)
  | SameFileError
  | LogWriteError          (* OSError raised by open(log_file, "a") or write *)
  | ValueError
  | OverflowError
  | OSError.

#[global] Instance exn_eq_dec : EqDecision exn.
Proof. solve_decision. Defined.

(** The last component is
    [datetime.fromtimestamp(t).strftime(datetime_format)] as this machine
    computes it, for a time stamp [t] in seconds: the exception it raises,
    if it raises one.  That depends on the platform and on the time zone: a
    year outside 1 to 9999 is a [ValueError], a time stamp the platform
    cannot convert an [OverflowError] or an [OSError]. *)
Record state := State {
  fs : gmap path entry;
  clock : Z;
  log_writable : bool;
  log_lines : list event;
  console : list event;
  date_error : Z → option exn
}.

Definition set_fs (st : state) (m : gmap path entry) : state :=
  State m (clock st + 1) (log_writable st) (log_lines st) (console st) (date_error st).

(** Outcome of a procedure: it returns, or an exception propagates out of it
    (with the state reached when it was raised), or the model's bound on the
    depth of the directory walk was too small. *)
Inductive result :=
  | Done (st : state)
  | Raised (e : exn) (st : state)
  | OutOfFuel.

Definition bind (r : result) (k : state → result) : result :=
  match r with
  | Done st => k st
  | Raised e st => Raised e st
  | OutOfFuel => OutOfFuel
  end.

Notation "'do' st <- r ; k" := (bind r (fun st => k))
  (at level 10, st name, r at level 100, k at level 200).

(** [for x in xs: body(x)] *)
Fixpoint for_each {A} (xs : list A) (body : A → state → result) (st : state) : result :=
  match xs with
  | [] => Done st
  | x :: rest => do st1 <- body x st; for_each rest body st1
  end.

(** ** Filesystem primitives *)

Definition is_dir_entry (e : entry) : bool :=
  match ekind e with KDir => true | KFile _ => false end.

(** [os.path.exists] *)
Definition path_exists (st : state) (p : path) : bool :=
  match fs st !! p with Some _ => true | None => false end.

(** [os.path.isdir] *)
Definition isdir (st : state) (p : path) : bool :=
  match fs st !! p with Some e => is_dir_entry e | None => false end.

Definition parent (p : path) : path := removelast p.

(** [name] is the last component of [q] and [p] is the rest. *)
Definition child_name (p q : path) : option string :=
  match last q with
  | Some n => if decide (q = p ++ [n]) then Some n else None
  | None => None
  end.

(** The entries of directory [p], with their names. *)
Definition children (st : state) (p : path) : list (string * entry) :=
  omap (fun qe => match child_name p qe.1 with
                  | Some n => Some (n, qe.2)
                  | None => None
                  end) (map_to_list (fs st)).

(** [os.listdir]: the names in a directory. *)
Definition listdir (st : state) (p : path) : option (list string) :=
  if isdir st p then Some ((children st p).*1) else None.

(** [os.scandir] as [os.walk] uses it: the names of the sub-directories and
    the names of the other entries, or nothing when [top] cannot be listed. *)
Definition scandir (st : state) (top : path) : option (list string * list string) :=
  if isdir st top then
    let cs := children st top in
    Some ((filter (fun ne => is_dir_entry ne.2 = true) cs).*1,
          (filter (fun ne => is_dir_entry ne.2 = false) cs).*1)
  else None.

(** Adding or removing a name in a directory stamps the directory. *)
Definition touch (now : Z) (e : entry) : entry := Entry (ekind e) now now.

Definition touch_parent (now : Z) (p : path) (m : gmap path entry) : gmap path entry :=
  match p with
  | [] => m
  | _ => alter (touch now) (parent p) m
  end.

(** [os.mkdir] *)
Definition mkdir (p : path) (st : state) : result :=
  if path_exists st p then Raised FileExistsError st
  else match p with
       | [] => Done (set_fs st (<[p := Entry KDir (clock st) (clock st)]> (fs st)))
       | _ =>
         match fs st !! parent p with
         | None => Raised FileNotFoundError st
         | Some e =>
           if is_dir_entry e then
             Done (set_fs st (<[p := Entry KDir (clock st) (clock st)]>
                                (touch_parent (clock st) p (fs st))))
           else Raised NotADirectoryError st
         end
       end.

(** [os.makedirs(name)] with [exist_ok=False]: the missing ancestors are made
    first (a [FileExistsError] of that recursive call is swallowed), then
    [name] itself.  The recursion of the library function is on the head of
    the path; here it is on the list of components from the last one. *)
Fixpoint makedirs_rev (rp : list string) (st : state) : result :=
  match rp with
  | [] => mkdir [] st
  | _ :: rhead =>
    do st1 <- (if path_exists st (rev rhead) then Done st
               else match makedirs_rev rhead st with
                    | Raised FileExistsError st' => Done st'
                    | r => r
                    end);
    mkdir (rev rp) st1
  end.

Definition makedirs (p : path) (st : state) : result := makedirs_rev (rev p) st.

(** [shutil.copy2(src, dst)]: a directory as destination means the file of
    the same name inside it; source and destination being one file is an
    error; the destination is created or truncated, receives the content,
    and [copystat] gives it the modification time of the source. *)
Definition copy2 (src dst : path) (st : state) : result :=
  let dst := if isdir st dst then dst ++ option_list (last src) else dst in
  if decide (src = dst) then Raised SameFileError st
  else
  match fs st !! src with
  | None => Raised FileNotFoundError st
  | Some (Entry KDir _ _) => Raised IsADirectoryError st
  | Some (Entry (KFile content) mtime _) =>
         match fs st !! dst with
         | Some (Entry KDir _ _) => Raised IsADirectoryError st
         | Some (Entry (KFile _) _ _) =>
           Done (set_fs st (<[dst := Entry (KFile content) mtime (clock st)]> (fs st)))
         | None =>
           match fs st !! parent dst with
           | None => Raised FileNotFoundError st
           | Some e =>
             if is_dir_entry e then
               Done (set_fs st (<[dst := Entry (KFile content) mtime (clock st)]>
                                  (touch_parent (clock st) dst (fs st))))
             else Raised NotADirectoryError st
           end
         end
  end.

(** [os.remove] *)
Definition remove (p : path) (st : state) : result :=
  match fs st !! p with
  | None => Raised FileNotFoundError st
  | Some (Entry KDir _ _) => Raised IsADirectoryError st
  | Some (Entry (KFile _) _ _) =>
    Done (set_fs st (delete p (touch_parent (clock st) p (fs st))))
  end.

(** [os.rmdir] *)
Definition rmdir (p : path) (st : state) : result :=
  match listdir st p with
  | None => if path_exists st p then Raised NotADirectoryError st
            else Raised FileNotFoundError st
  | Some [] => Done (set_fs st (delete p (touch_parent (clock st) p (fs st))))
  | Some (_ :: _) => Raised DirectoryNotEmpty st
  end.

(** [os.stat(p).st_mtime] and [.st_ctime]; the script only calls them on
    paths it has just seen, a missing path raises. *)
Definition stat (st : state) (p : path) : option entry := fs st !! p.

(** ** The script *)

(** [log_and_print]: the line is appended to the log file, then printed.
    Opening or writing the log file can fail; nothing in the function
    handles that. *)
Definition log_and_print (message : event) (st : state) : result :=
  if log_writable st then
    Done (State (fs st) (clock st) (log_writable st)
                (log_lines st ++ [message]) (console st ++ [message]) (date_error st))
  else Raised LogWriteError st.

(** [os.path.relpath(root, top)] for a [root] met while walking [top]; the
    empty list stands for ['.']. *)
Definition relpath (root top : path) : path := drop (length top) root.

(** [os.path.exists(os.path.join(base, rel))].  At the top of the walk [rel]
    is ['.'], and [base/.] exists exactly when [base] is a directory. *)
Definition exists_joined (st : state) (base rel : path) : bool :=
  match rel with
  | [] => isdir st base
  | _ => path_exists st (base ++ rel)
  end.

(** [os.makedirs(os.path.join(base, rel))].  For [base/.] the library makes
    [base] when it is missing and returns; when [base] is there, [mkdir] of
    [base/.] fails. *)
Definition makedirs_joined (base rel : path) (st : state) : result :=
  match rel with
  | [] =>
    match fs st !! base with
    | None =>
      match makedirs base st with
      | Raised FileExistsError st' => Done st'
      | r => r
      end
    | Some e => Raised (if is_dir_entry e then FileExistsError else NotADirectoryError) st
    end
  | _ => makedirs (base ++ rel) st
  end.

(** Lines 71-90: one source file of the directory being visited.  The time
    in a "created" line is the [st_ctime] of the source file, which the
    kernel sets; the time in a "modified" line is its [st_mtime], which
    anyone can set with [os.utime], so that its conversion to a date can
    raise; it does so after the copy. *)
Definition copy_file (source_root folder_replica_path : path) (source_file : string)
    (st : state) : result :=
  let source_file_path := source_root ++ [source_file] in
  let replica_file_path := folder_replica_path ++ [source_file] in
  let replica_file_exists := path_exists st replica_file_path in
  if negb replica_file_exists then
    do st <- copy2 source_file_path replica_file_path st;
    match stat st source_file_path with
    | None => Raised FileNotFoundError st
    | Some e => log_and_print (Event NFile source_file_path Created (st_ctime e)) st
    end
  else
    match stat st source_file_path, stat st replica_file_path with
    | Some es, Some er =>
      let replica_file_differs := negb (st_mtime es =? st_mtime er) in
      if replica_file_differs then
        do st <- copy2 source_file_path replica_file_path st;
        match stat st source_file_path with
        | None => Raised FileNotFoundError st
        | Some e =>
          match date_error st (st_mtime e) with
          | Some err => Raised err st
          | None => log_and_print (Event NFile source_file_path Modified (st_mtime e)) st
          end
        end
      else Done st
    | _, _ => Raised FileNotFoundError st
    end.

(** Lines 93-101: one sub-directory of the directory being visited. *)
Definition copy_dir (source_root folder_replica_path : path) (source_dir : string)
    (st : state) : result :=
  let folder_source_path := source_root ++ [source_dir] in
  let folder_replica_path_inner := folder_replica_path ++ [source_dir] in
  if path_exists st folder_source_path && negb (path_exists st folder_replica_path_inner) then
    do st <- makedirs folder_replica_path_inner st;
    match stat st folder_replica_path_inner with
    | None => Raised FileNotFoundError st
    | Some e => log_and_print (Event NFolder folder_replica_path_inner Created (st_ctime e)) st
    end
  else Done st.

(** Lines 62-101: the body of the loop over [os.walk(folder_source)]. *)
Definition copy_visit (folder_source folder_replica : path)
    (source_root : path) (source_dirs source_files : list string) (st : state) : result :=
  let folder_source_path := relpath source_root folder_source in
  let folder_replica_path := folder_replica ++ folder_source_path in
  do st <- (if negb (exists_joined st folder_replica folder_source_path)
            then makedirs_joined folder_replica folder_source_path st
            else Done st);
  do st <- for_each source_files (copy_file source_root folder_replica_path) st;
  for_each source_dirs (copy_dir source_root folder_replica_path) st.

(** The loop over [os.walk(folder_source)], top-down: a directory is listed
    when the walk reaches it, the body runs on the listing, and then the walk
    goes into the listed sub-directories in turn.  A directory that cannot be
    listed is skipped silently.  [fuel] bounds the depth of the walk. *)
Fixpoint copy_walk (fuel : nat) (folder_source folder_replica top : path)
    (st : state) : result :=
  match fuel with
  | O => OutOfFuel
  | S fuel' =>
    match scandir st top with
    | None => Done st
    | Some (source_dirs, source_files) =>
      do st <- copy_visit folder_source folder_replica top source_dirs source_files st;
      for_each source_dirs
        (fun d => copy_walk fuel' folder_source folder_replica (top ++ [d])) st
    end
  end.

Definition copy_files_and_dirs (fuel : nat) (folder_source folder_replica : path)
    (st : state) : result :=
  copy_walk fuel folder_source folder_replica folder_source st.

(** Lines 119-126: one file of the replica directory being visited.
    [datetime.now()] reads the clock. *)
Definition remove_file (folder_source_path replica_root : path) (replica_file : string)
    (st : state) : result :=
  let replica_file_path := replica_root ++ [replica_file] in
  let source_file_path := folder_source_path ++ [replica_file] in
  if negb (path_exists st source_file_path) then
    do st <- remove replica_file_path st;
    log_and_print (Event NFile source_file_path Deleted (clock st)) st
  else Done st.

(** Lines 129-135: one sub-directory of the replica directory being visited. *)
Definition remove_dir (folder_source_path replica_root : path) (replica_dir : string)
    (st : state) : result :=
  let folder_replica_path := replica_root ++ [replica_dir] in
  let folder_source_path_inner := folder_source_path ++ [replica_dir] in
  match listdir st folder_replica_path with
  | None => Raised (if path_exists st folder_replica_path
                    then NotADirectoryError else FileNotFoundError) st
  | Some names =>
    if bool_decide (names = []) && negb (path_exists st folder_source_path_inner) then
      do st <- rmdir folder_replica_path st;
      log_and_print (Event NFolder folder_replica_path Deleted (clock st)) st
    else Done st
  end.

(** Lines 115-135: the body of the loop over
    [os.walk(folder_replica, topdown=False)]. *)
Definition remove_visit (folder_source folder_replica : path)
    (replica_root : path) (replica_dirs replica_files : list string) (st : state) : result :=
  let folder_replica_path := relpath replica_root folder_replica in
  let folder_source_path := folder_source ++ folder_replica_path in
  do st <- for_each replica_files (remove_file folder_source_path replica_root) st;
  for_each replica_dirs (remove_dir folder_source_path replica_root) st.

(** The loop over [os.walk(folder_replica, topdown=False)]: a directory is
    listed when the walk reaches it, the walk goes into the listed
    sub-directories, and only then the body runs, on the listing taken
    before. *)
Fixpoint remove_walk (fuel : nat) (folder_source folder_replica top : path)
    (st : state) : result :=
  match fuel with
  | O => OutOfFuel
  | S fuel' =>
    match scandir st top with
    | None => Done st
    | Some (replica_dirs, replica_files) =>
      do st <- for_each replica_dirs
                 (fun d => remove_walk fuel' folder_source folder_replica (top ++ [d])) st;
      remove_visit folder_source folder_replica top replica_dirs replica_files st
    end
  end.

Definition remove_files_and_dirs (fuel : nat) (folder_source folder_replica : path)
    (st : state) : result :=
  remove_walk fuel folder_source folder_replica folder_replica st.

(** One pass of the synchronization engine (lines 155-156). *)
Definition sync_pass (fuel : nat) (folder_source folder_replica : path)
    (st : state) : result :=
  do st <- copy_files_and_dirs fuel folder_source folder_replica st;
  remove_files_and_dirs fuel folder_source folder_replica st.

(** ** Command line and driver *)

(** [Py_ISSPACE]: tab, line feed, vertical tab, form feed, carriage return
    and space. *)
Definition is_space (c : ascii) : bool :=
  let n := nat_of_ascii c in
  ((9 <=? n) && (n <=? 13) || (n =? 32))%nat.

Definition digit_of (c : ascii) : option Z :=
  let n := nat_of_ascii c in
  if ((48 <=? n) && (n <=? 57))%nat then Some (Z.of_nat n - 48) else None.

Definition underscore : ascii := ascii_of_nat 95.
Definition plus_sign : ascii := ascii_of_nat 43.
Definition minus_sign : ascii := ascii_of_nat 45.
Definition slash : ascii := ascii_of_nat 47.
Definition nul : ascii := ascii_of_nat 0.

(** The digits of a decimal literal; a single underscore may sit between two
    digits.  [after_digit] tells whether the previous character was one,
    [count] is the number of digits read. *)
Fixpoint digits_value (acc : Z) (count : nat) (after_digit : bool) (cs : list ascii)
    : option (Z * nat) :=
  match cs with
  | [] => if after_digit then Some (acc, count) else None
  | c :: rest =>
    match digit_of c with
    | Some d => digits_value (10 * acc + d) (S count) true rest
    | None =>
      if bool_decide (c = underscore) && after_digit
      then digits_value acc count false rest
      else None
    end
  end.

Fixpoint lstrip (cs : list ascii) : list ascii :=
  match cs with
  | c :: rest => if is_space c then lstrip rest else cs
  | [] => []
  end.

Definition strip (cs : list ascii) : list ascii := rev (lstrip (rev (lstrip cs))).

(** The longest literal [int] converts under the default setting of the
    interpreter. *)
Definition max_str_digits : nat := 4300.

Definition literal_value (cs : list ascii) : option Z :=
  match digits_value 0 0 false cs with
  | Some (z, count) => if (count <=? max_str_digits)%nat then Some z else None
  | None => None
  end.

(** One conversion, for the examples: what [int(s)] is in CPython 3.12 with
    its default settings when [s] is ASCII text.  [None] is [ValueError].
    The text is white space, an optional sign, decimal digits, white space.
    Every other text is refused here, while the interpreter also reads the
    decimal digits and the white space of other scripts, and its limit on
    the number of digits can be set; so the properties below are stated for
    whatever conversion the interpreter has, and this one only serves the
    examples. *)
Definition int_on_ascii (s : string) : option Z :=
  match strip (String.list_ascii_of_string s) with
  | [] => None
  | c :: rest =>
    if bool_decide (c = minus_sign) then Z.opp <$> literal_value rest
    else if bool_decide (c = plus_sign) then literal_value rest
    else literal_value (c :: rest)
  end.

Definition usage_message : string :=
  "You must enter four arguments. For instance 'python synchronizer.py source replica 10 logfile'".

Definition integer_message : string := "The third argument must be an integer number".

(** [sys.exit(arg)]: the exit status of the process is 0 when [arg] is
    missing (or [None]). *)
Definition exit_status (arg : option Z) : Z := default 0 arg.

(** The process printed [printed] and ended through [sys.exit]. *)
Record exit := SystemExit { printed : string; status : Z }.

(** [getting_args]: [sys.argv] holds the script name and the arguments, and
    [int] is the conversion of the interpreter, [None] for [ValueError].  The
    four reads happen in this order, the first that fails decides the
    message. *)
Definition getting_args (int : string → option Z) (argv : list string)
    : (string * string * Z * string) + exit :=
  match argv !! 1%nat with
  | None => inr (SystemExit usage_message (exit_status None))
  | Some folder_source =>
    match argv !! 2%nat with
    | None => inr (SystemExit usage_message (exit_status None))
    | Some folder_replica =>
      match argv !! 3%nat with
      | None => inr (SystemExit usage_message (exit_status None))
      | Some a3 =>
        match int a3 with
        | None => inr (SystemExit integer_message (exit_status None))
        | Some sync_interval =>
          match argv !! 4%nat with
          | None => inr (SystemExit usage_message (exit_status None))
          | Some a4 => inl (folder_source, folder_replica, sync_interval, (a4 +:+ ".log")%string)
          end
        end
      end
    end
  end.

(** The components of a path given as text. *)
Fixpoint split_slash (cur : string) (cs : list ascii) : list string :=
  match cs with
  | [] => [cur]
  | c :: rest =>
    if bool_decide (c = slash) then cur :: split_slash EmptyString rest
    else split_slash (cur +:+ String c EmptyString)%string rest
  end.

Definition plain_component (c : string) : bool :=
  negb (bool_decide (c = EmptyString) || bool_decide (c = ".")).

(** The limits of Linux on a name and on the text of a path, in bytes, the
    second with its closing NUL. *)
Definition name_max : nat := 255.
Definition path_max : nat := 4096.

Definition within_limits (s : string) (components : list string) : bool :=
  negb (bool_decide (nul ∈ String.list_ascii_of_string s))
  && negb (path_max <=? String.length s)%nat
  && forallb (fun c => (String.length c <=? name_max)%nat) components.

(** The path a folder argument names.  Empty and ['.'] components name the
    directory they stand in and are dropped.  A ['..'] component and the
    empty text are resolved by the kernel against the filesystem
    ([os.makedirs] makes the directory before the ['..'], [os.path.exists]
    of the empty text is false), and a text with a NUL or beyond the limits
    is refused by the system calls: the model does not follow these. *)
Definition path_of_string (s : string) : option path :=
  let components := split_slash EmptyString (String.list_ascii_of_string s) in
  if bool_decide (s = EmptyString) || bool_decide (".." ∈ components)
     || negb (within_limits s components)
  then None
  else Some (filter (fun c => plain_component c = true) components).

(** The largest number of seconds whose count of nanoseconds fits a signed
    64-bit integer. *)
Definition max_sleep : Z := 9223372036.

(** [time.sleep(secs)] for an integer: the length is first converted to
    nanoseconds, which is an [OverflowError] when they do not fit 64 bits;
    then a negative length is a [ValueError]. *)
Definition sleep (secs : Z) (st : state) : result :=
  if (secs <? - max_sleep) || (max_sleep <? secs) then Raised OverflowError st
  else if secs <? 0 then Raised ValueError st
  else Done (State (fs st) (clock st + secs) (log_writable st) (log_lines st) (console st)
                   (date_error st)).

(** The [while True] loop of [sync_folders], observed for [passes] rounds. *)
Fixpoint sync_loop (passes fuel : nat) (folder_source folder_replica : path)
    (sync_interval : Z) (st : state) : result :=
  match passes with
  | O => Done st
  | S passes' =>
    do st <- copy_files_and_dirs fuel folder_source folder_replica st;
    do st <- remove_files_and_dirs fuel folder_source folder_replica st;
    do st <- sleep sync_interval st;
    sync_loop passes' fuel folder_source folder_replica sync_interval st
  end.

(** What has been seen of a run of the program: it ended through [sys.exit],
    or it is what the loop made of the filesystem, or the arguments name
    folders or a log file that the model does not follow. *)
Inductive run :=
  | Exited (e : exit) (st : state)
  | Looping (r : result)
  | Unmodelled.

(** The log file does not lie inside one of the two trees. *)
Definition log_outside (folder_source folder_replica : path) (log_file : string) : bool :=
  match path_of_string log_file with
  | Some l => negb (bool_decide (folder_source `prefix_of` l))
              && negb (bool_decide (folder_replica `prefix_of` l))
  | None => false
  end.

(** [sync_folders], with the conversion of the interpreter, [sys.argv] and
    the state of the machine as inputs. *)
Definition sync_folders (int : string → option Z) (passes fuel : nat)
    (argv : list string) (st : state) : run :=
  match getting_args int argv with
  | inr e => Exited e st
  | inl (folder_source, folder_replica, sync_interval, log_file) =>
    match path_of_string folder_source, path_of_string folder_replica with
    | Some folder_source, Some folder_replica =>
      if log_outside folder_source folder_replica log_file then
        Looping (
          do st <- (if negb (path_exists st folder_source)
                    then makedirs folder_source st else Done st);
          sync_loop passes fuel folder_source folder_replica sync_interval st)
      else Unmodelled
    | _, _ => Unmodelled
    end
  end.

(** * Predicates and example filesystems

    The vocabulary of the properties stated below, and the concrete
    filesystems they are tried on. *)

(** ** Outcomes and frames *)

(** An invocation the script rejects: an argument is missing, or the
    conversion [int] raises on the third one. *)
Definition malformed (int : string → option Z) (argv : list string) : Prop :=
  (length argv < 5)%nat ∨ ∃ a3, argv !! 3%nat = Some a3 ∧ int a3 = None.

(** The exception [e] does not come out of the procedure. *)
Definition never_raises (e : exn) (r : result) : Prop := ∀ st, r ≠ Raised e st.

(** A property of the state a procedure ends in, whether it returns or
    raises. *)
Definition post (r : result) (Q : state → Prop) : Prop :=
  match r with
  | Done st | Raised _ st => Q st
  | OutOfFuel => True
  end.

(** The files and directories at the paths not in [region] are the same in
    both states. *)
Definition same_outside (region : path → Prop) (st st' : state) : Prop :=
  ∀ q, ¬ region q → fs st' !! q = fs st !! q.

(** Each primitive changes at most the path it is given and the directory
    that holds it. *)
Definition at_or_above (p : path) (q : path) : Prop := q = p ∨ q = parent p.

(** [copy2] writes [dst], or the file named like the source inside [dst]. *)
Definition copy2_region (src dst : path) (q : path) : Prop :=
  q = parent dst ∨ q = dst ∨ q = dst ++ option_list (last src).

(** The replica root, what is below it, and the directories leading to it. *)
Definition near (rep : path) (q : path) : Prop := rep `prefix_of` q ∨ q `prefix_of` rep.

(** Two roots neither of which lies inside the other. *)
Definition separate (src rep : path) : Prop :=
  ¬ src `prefix_of` rep ∧ ¬ rep `prefix_of` src.

(** Every path under [src] holds in [st'] what it holds in [st]. *)
Definition source_untouched (src : path) (st st' : state) : Prop :=
  ∀ p, src `prefix_of` p → fs st' !! p = fs st !! p.

(** The replica mirrors the source: the same relative paths exist on both
    sides, and at every path where the source has a file, [os.stat] gives the
    same modification time on the replica side. *)
Definition mirrored (src rep : path) (st : state) : Prop :=
  (∀ r, path_exists st (rep ++ r) = path_exists st (src ++ r))
  ∧ (∀ r c m ct, fs st !! (src ++ r) = Some (Entry (KFile c) m ct) →
       st_mtime <$> fs st !! (rep ++ r) = Some m).

(** ** The shape of the filesystem *)

(** What the script can tell about an entry: for a file everything, for a
    directory only that it is one (the time stamps of directories are never
    read on the paths followed in the convergence proof). *)
Inductive skel :=
  | SDir
  | SFile (content : string) (mtime ctime : Z).

#[global] Instance skel_eq_dec : EqDecision skel.
Proof. solve_decision. Defined.

Definition skel_of (e : entry) : skel :=
  match ekind e with
  | KDir => SDir
  | KFile c => SFile c (st_mtime e) (st_ctime e)
  end.

(** The filesystem of a state, entry by entry, as shapes. *)
Definition skm (st : state) : gmap path skel := skel_of <$> fs st.

(** Every entry sits in a directory. *)
Definition wfm (m : gmap path skel) : Prop :=
  ∀ p n, is_Some (m !! (p ++ [n])) → m !! p = Some SDir.

(** The filesystem of the state is a tree. *)
Definition wf (st : state) : Prop := wfm (skm st).

(** The log is as it was, and so is the date conversion of the machine. *)
Definition same_log (st st' : state) : Prop :=
  log_writable st' = log_writable st
  ∧ log_lines st' = log_lines st
  ∧ console st' = console st
  ∧ date_error st' = date_error st.

(** The log can be written, and so can the date of the modification time of
    every source file, the source being as in [m0]. *)
Definition can_report (src : path) (m0 : gmap path skel) (st : state) : Prop :=
  log_writable st = true
  ∧ ∀ k c m ct, m0 !! (src ++ k) = Some (SFile c m ct) → date_error st m = None.

(** The source part of the filesystem has the shape it has in [m0], the
    shape of the filesystem when the phase started. *)
Definition agrees (src : path) (m0 : gmap path skel) (st : state) : Prop :=
  ∀ x, skm st !! (src ++ x) = m0 !! (src ++ x).

(** ** What the pruner leaves and logs *)

(** [s] is [st] with the paths in [gone] taken away. *)
Record pruned (gone : path → Prop) (st s : state) : Prop := Pruned {
  pruned_mono : ∀ q, skm s !! q = skm st !! q ∨ skm s !! q = None;
  pruned_kept : ∀ q, ¬ gone q → skm s !! q = skm st !! q;
  pruned_gone : ∀ q, gone q → skm s !! q = None
}.

(** The replica paths strictly below [rep ++ r] with nothing at the same
    place in the source. *)
Definition doomed (src rep : path) (m0 : gmap path skel) (r q : path) : Prop :=
  ∃ k, k ≠ [] ∧ q = rep ++ (r ++ k) ∧ m0 !! (src ++ (r ++ k)) = None.

(** [a] lies strictly below [b]. *)
Definition below (a b : path) : Prop := ∃ k, k ≠ [] ∧ a = b ++ k.

(** No path comes after a path it lies below: what is inside a directory
    comes before the directory. *)
Fixpoint children_first (ks : list path) : Prop :=
  match ks with
  | [] => True
  | b :: rest => (∀ a, a ∈ rest → ¬ below a b) ∧ children_first rest
  end.

(** The line logged when the replica entry of shape [x] at [rep ++ k] is
    deleted: for a file it names the missing source file, for a directory
    the replica directory. *)
Definition deleted_line (src rep : path) (x : skel) (k : path) (ev : event) : Prop :=
  ev_verb ev = Deleted
  ∧ match x with
    | SDir => ev_noun ev = NFolder ∧ ev_path ev = rep ++ k
    | SFile _ _ _ => ev_noun ev = NFile ∧ ev_path ev = src ++ k
    end.

(** [ev] is the line for the deletion of what [st] has at [rep ++ k]. *)
Definition line_for (src rep : path) (st : state) (k : path) (ev : event) : Prop :=
  ∃ x, skm st !! (rep ++ k) = Some x ∧ deleted_line src rep x k ev.

(** From [st] to [s] the log and the console have grown by one "deleted"
    line for each path in [gone] that [st] had, children first. *)
Definition logged (src rep : path) (gone : path → Prop) (st s : state) : Prop :=
  ∃ ks new,
    log_lines s = log_lines st ++ new
    ∧ console s = console st ++ new
    ∧ Forall2 (line_for src rep st) ks new
    ∧ NoDup ks
    ∧ children_first ks
    ∧ ∀ k, k ∈ ks ↔ gone (rep ++ k) ∧ is_Some (skm st !! (rep ++ k)).

(** A line of the log that names a path of the sub-tree [sub], on either
    side. *)
Definition names_subtree (src rep sub : path) (ev : event) : Prop :=
  (src ++ sub) `prefix_of` ev_path ev ∨ (rep ++ sub) `prefix_of` ev_path ev.

(** ** What the reconciler adds *)

(** A replica entry is as good as the source entry: both are directories, or
    both are files with the same modification time. *)
Definition image (x y : skel) : Prop :=
  match x, y with
  | SDir, SDir => True
  | SFile _ m _, SFile _ m' _ => m = m'
  | _, _ => False
  end.

(** The walk of the reconciler from a directory that has been listed, split
    after the test of line 66. *)
Definition copy_after_guard (fuel : nat) (src rep top : path)
    (dirs files : list string) (s0 : state) : result :=
  do st <- (do st <- for_each files (copy_file top (rep ++ relpath top src)) s0;
            for_each dirs (copy_dir top (rep ++ relpath top src)) st);
  for_each dirs (fun d => copy_walk fuel src rep (top ++ [d])) st.

(** [s] is [st] except at the replica paths in [handled], and each of
    those now holds an image of its source counterpart. *)
Record synced (src rep : path) (m0 : gmap path skel)
    (handled : path → Prop) (st s : state) : Prop := Synced {
  synced_kept : ∀ q, ¬ handled q → skm s !! q = skm st !! q;
  synced_done : ∀ q, handled q →
    ∃ k x y, q = rep ++ k ∧ m0 !! (src ++ k) = Some x
             ∧ skm s !! q = Some y ∧ image x y
}.

(** The replica paths strictly below [rep ++ r] whose counterpart is in
    the source. *)
Definition present (src rep : path) (m0 : gmap path skel) (r q : path) : Prop :=
  ∃ k, k ≠ [] ∧ q = rep ++ (r ++ k) ∧ is_Some (m0 !! (src ++ (r ++ k))).

(** Below [r], no path is a directory on one side and a file on the
    other. *)
Definition compatible (src rep : path) (m0 : gmap path skel) (st : state) (r : path) : Prop :=
  ∀ k x y, k ≠ [] →
    m0 !! (src ++ (r ++ k)) = Some x → skm st !! (rep ++ (r ++ k)) = Some y →
    (x = SDir ↔ y = SDir).

(** What the walk of the reconciler does from [src ++ r], when the replica
    has the directory [rep ++ r]. *)
Definition copy_walk_returns (src rep : path) (m0 : gmap path skel) (fuel : nat) : Prop :=
  ∀ r st,
    wf st → can_report src m0 st → agrees src m0 st →
    m0 !! (src ++ r) = Some SDir →
    skm st !! (rep ++ r) = Some SDir →
    compatible src rep m0 st r →
    (∀ k, is_Some (m0 !! (src ++ (r ++ k))) → (length k < fuel)%nat) →
    ∃ st', copy_walk fuel src rep (src ++ r) st = Done st'
           ∧ wf st' ∧ can_report src m0 st'
           ∧ synced src rep m0 (present src rep m0 r) st st'.

(** ** The conditions of convergence *)

(** No path is a directory on one side and a file on the other. *)
Definition no_kind_conflict (src rep : path) (st : state) : Prop :=
  ∀ k x y, skm st !! (src ++ k) = Some x → skm st !! (rep ++ k) = Some y →
           (x = SDir ↔ y = SDir).

(** Nothing on the way to the replica root, the root included, is a file. *)
Definition replica_root_ready (rep : path) (st : state) : Prop :=
  ∀ q, q `prefix_of` rep → skm st !! q = None ∨ skm st !! q = Some SDir.

(** The replica has exactly the relative paths of the source, and an image
    of the source entry at each. *)
Definition mirror (src rep : path) (st : state) : Prop :=
  (∀ k, is_Some (skm st !! (rep ++ k)) ↔ is_Some (skm st !! (src ++ k)))
  ∧ (∀ k x, skm st !! (src ++ k) = Some x →
       ∃ y, skm st !! (rep ++ k) = Some y ∧ image x y).

(** The same conditions as computations, for a filesystem given in full:
    every entry sits in a directory; *)
Definition wfb (st : state) : bool :=
  forallb (fun qx => match qx.1 with
                     | [] => true
                     | _ => bool_decide (skm st !! parent qx.1 = Some SDir)
                     end) (map_to_list (skm st)).

(** every path has fewer than [n] components; *)
Definition shallowb (n : nat) (st : state) : bool :=
  forallb (fun qx => (length qx.1 <? n)%nat) (map_to_list (skm st)).

(** no source entry has a replica counterpart of the other kind; *)
Definition no_kind_conflictb (src rep : path) (st : state) : bool :=
  forallb (fun qx =>
             if decide (take (length src) qx.1 = src) then
               match skm st !! (rep ++ drop (length src) qx.1) with
               | Some y => bool_decide (qx.2 = SDir ↔ y = SDir)
               | None => true
               end
             else true) (map_to_list (skm st)).

(** the date of the modification time of every source file can be
    written; *)
Definition source_datesb (src : path) (st : state) : bool :=
  forallb (fun qx =>
             if decide (take (length src) qx.1 = src) then
               match qx.2 with
               | SFile _ m _ => match date_error st m with None => true | Some _ => false end
               | SDir => true
               end
             else true) (map_to_list (skm st)).

(** no file on the way to the replica root. *)
Definition replica_root_readyb (rep : path) (st : state) : bool :=
  forallb (fun n => match skm st !! take n rep with
                    | Some (SFile _ _ _) => false
                    | _ => true
                    end) (seq 0 (S (length rep))).

(** ** Example filesystems *)

(** The date conversion on the machine of the examples, whose local time is
    UTC: the time stamps from 1970 to the end of year 9999 are converted,
    the first second of year 10000 is a [ValueError].  The examples use no
    time stamp outside these. *)
Definition utc_dates (t : Z) : option exn :=
  if (0 <=? t) && negb (253402300800 <=? t) then None else Some ValueError.

(** A source with the files [a] and [b], an empty replica, and a log file
    that cannot be opened. *)
Definition unwritable_log_state : state :=
  State (list_to_map [ ([], Entry KDir 0 0);
                       (["source"], Entry KDir 1 1);
                       (["source"; "a"], Entry (KFile "A") 5 5);
                       (["source"; "b"], Entry (KFile "B") 6 6);
                       (["replica"], Entry KDir 2 2) ])
        100 false [] [] utc_dates.

(** A replica whose file [f.txt] has the content of the source but another
    modification time, and whose file [g.txt] has another content but the
    same modification time. *)
Definition touched_state : state :=
  State (list_to_map [ ([], Entry KDir 0 0);
                       (["source"], Entry KDir 1 1);
                       (["source"; "f.txt"], Entry (KFile "same") 7 7);
                       (["source"; "g.txt"], Entry (KFile "new") 3 3);
                       (["replica"], Entry KDir 2 2);
                       (["replica"; "f.txt"], Entry (KFile "same") 5 5);
                       (["replica"; "g.txt"], Entry (KFile "old") 3 4) ])
        100 true [] [] utc_dates.

(** A source that is an empty directory and a replica root that does not
    exist yet. *)
Definition no_replica_state : state :=
  State (list_to_map [ ([], Entry KDir 0 0); (["source"], Entry KDir 1 1) ])
        100 true [] [] utc_dates.

(** A replica holding [dir/x.txt] next to a file [keep.txt] that the source
    has too, an extraneous file [old.txt], and a source that has no [dir]. *)
Definition cascade_state : state :=
  State (list_to_map [ ([], Entry KDir 0 0);
                       (["source"], Entry KDir 1 1);
                       (["source"; "keep.txt"], Entry (KFile "k") 2 2);
                       (["replica"], Entry KDir 2 2);
                       (["replica"; "keep.txt"], Entry (KFile "k") 2 2);
                       (["replica"; "old.txt"], Entry (KFile "o") 2 2);
                       (["replica"; "dir"], Entry KDir 3 3);
                       (["replica"; "dir"; "x.txt"], Entry (KFile "x") 4 4) ])
        100 true [] [] utc_dates.

(** The source has a file [a]; the replica has a directory [a]. *)
Definition kind_conflict_state : state :=
  State (list_to_map [ ([], Entry KDir 0 0);
                       (["source"], Entry KDir 1 1);
                       (["source"; "a"], Entry (KFile "A") 5 5);
                       (["replica"], Entry KDir 2 2);
                       (["replica"; "a"], Entry KDir 7 7) ])
        100 true [] [] utc_dates.

(** That filesystem after a pass that ended at time [clk]: the directory
    [a] of the replica carries the time of the last deletion inside it. *)
Definition state_after_conflict_pass (clk : Z) (lines : list event) : state :=
  State (list_to_map [ ([], Entry KDir 0 0);
                       (["source"], Entry KDir 1 1);
                       (["source"; "a"], Entry (KFile "A") 5 5);
                       (["replica"], Entry KDir 2 2);
                       (["replica"; "a"], Entry KDir (clk - 1) (clk - 1)) ])
        clk true lines lines utc_dates.

(** The two lines such a pass logs. *)
Definition conflict_events (clk : Z) : list event :=
  [ Event NFile ["source"; "a"] Modified 5;
    Event NFile ["source"; "a"; "a"] Deleted clk ].

(** A source with a file and a directory holding a file; a replica that has
    an older copy of the first file and two things the source has not. *)
Definition stale_state : state :=
  State (list_to_map [ ([], Entry KDir 0 0);
                       (["source"], Entry KDir 1 1);
                       (["source"; "f.txt"], Entry (KFile "new") 7 7);
                       (["source"; "a"], Entry KDir 3 3);
                       (["source"; "a"; "b.txt"], Entry (KFile "x") 4 4);
                       (["replica"], Entry KDir 2 2);
                       (["replica"; "f.txt"], Entry (KFile "old") 5 5);
                       (["replica"; "gone.txt"], Entry (KFile "g") 6 6);
                       (["replica"; "dir"], Entry KDir 3 3);
                       (["replica"; "dir"; "x.txt"], Entry (KFile "x") 4 4) ])
        100 true [] [] utc_dates.

(** ** What a phase keeps, and rounds of the loop *)

(** From [st] to [st'] the log file has grown by lines that satisfy [P], the
    console has grown by the same lines in the same order, and the log is as
    writable as it was. *)
Definition log_grown_by (P : event → Prop) (st st' : state) : Prop :=
  log_writable st' = log_writable st
  ∧ ∃ new, log_lines st' = log_lines st ++ new
           ∧ console st' = console st ++ new
           ∧ Forall P new.

(** No entry has gone, and none has changed from a file into a directory or
    back. *)
Definition nothing_lost (st st' : state) : Prop :=
  ∀ p e, fs st !! p = Some e →
         ∃ e', fs st' !! p = Some e' ∧ is_dir_entry e' = is_dir_entry e.

(** Every entry of [st'] was there in [st]: a file with its content and its
    time stamps, a directory as a directory. *)
Definition nothing_new (st st' : state) : Prop :=
  ∀ q, skm st' !! q = skm st !! q ∨ skm st' !! q = None.


(** The state with the log file writable again. *)
Definition with_writable_log (st : state) : state :=
  State (fs st) (clock st) true (log_lines st) (console st) (date_error st).



(** ** A log that cannot be written *)




(** ** More example filesystems *)

(** The file [f.txt] of the source was modified in the first second of year
    10000, which the machine cannot write as a date; the replica has an
    older copy. *)
Definition far_future_state : state :=
  State (list_to_map [ ([], Entry KDir 0 0);
                       (["source"], Entry KDir 1 1);
                       (["source"; "f.txt"], Entry (KFile "new") 253402300800 7);
                       (["replica"], Entry KDir 2 2);
                       (["replica"; "f.txt"], Entry (KFile "old") 5 5) ])
        100 true [] [] utc_dates.

(** The source root [r/s] lies inside the replica root [r]. *)
Definition nested_state : state :=
  State (list_to_map [ ([], Entry KDir 0 0);
                       (["r"], Entry KDir 1 1);
                       (["r"; "s"], Entry KDir 2 2);
                       (["r"; "s"; "f.txt"], Entry (KFile "F") 5 5) ])
        100 true [] [] utc_dates.

(** A replica with two files and a directory holding a file, and no source
    root at all. *)
Definition orphan_state : state :=
  State (list_to_map [ ([], Entry KDir 0 0);
                       (["replica"], Entry KDir 2 2);
                       (["replica"; "a.txt"], Entry (KFile "a") 5 5);
                       (["replica"; "b.txt"], Entry (KFile "b") 6 6);
                       (["replica"; "dir"], Entry KDir 3 3);
                       (["replica"; "dir"; "x.txt"], Entry (KFile "x") 4 4) ])
        100 true [] [] utc_dates.


(** The source has a directory [d] holding a file; the replica has a file
    [d]. *)
Definition file_for_directory_state : state :=
  State (list_to_map [ ([], Entry KDir 0 0);
                       (["source"], Entry KDir 1 1);
                       (["source"; "d"], Entry KDir 3 3);
                       (["source"; "d"; "x.txt"], Entry (KFile "x") 4 4);
                       (["replica"], Entry KDir 2 2);
                       (["replica"; "d"], Entry (KFile "D") 6 6) ])
        100 true [] [] utc_dates.

(** A filesystem with nothing but its root. *)
Definition bare_state : state :=
  State (list_to_map [ ([], Entry KDir 0 0) ]) 100 true [] [] utc_dates.

(** The replica root is a regular file. *)
Definition replica_is_file_state : state :=
  State (list_to_map [ ([], Entry KDir 0 0);
                       (["source"], Entry KDir 1 1);
                       (["source"; "a"], Entry (KFile "A") 5 5);
                       (["replica"], Entry (KFile "R") 2 2) ])
        100 true [] [] utc_dates.

(** * Properties *)

(** ** Command line *)

Lemma getting_args_malformed int argv :
  malformed int argv →
  getting_args int argv = inr (SystemExit usage_message 0)
  ∨ getting_args int argv = inr (SystemExit integer_message 0).
Proof.
  intros Hbad. unfold getting_args, exit_status. simpl.
  destruct (argv !! 1%nat) as [a1|] eqn:H1; [|by left].
  destruct (argv !! 2%nat) as [a2|] eqn:H2; [|by left].
  destruct (argv !! 3%nat) as [a3|] eqn:H3; [|by left].
  destruct (int a3) as [z|] eqn:Hz; [|by right].
  destruct (argv !! 4%nat) as [a4|] eqn:H4; [|by left].
  destruct Hbad as [Hlen | (b3 & Hb3 & Hnone)].
  - apply lookup_lt_Some in H4. lia.
  - congruence.
Qed.

(** C9, as the code has it: whatever conversion [int] the interpreter has,
    an invocation with fewer than four arguments, or with a third argument
    on which [int] raises, prints one of the two messages and ends the
    process through [sys.exit()] before the loop is entered, leaving the
    filesystem and the log as they were; [sys.exit()] is called without an
    argument, so the exit status is 0. *)
Theorem malformed_invocation_exits_with_status_zero
    (int : string → option Z) (argv : list string) :
  malformed int argv →
  ∀ passes fuel st,
    ∃ msg, sync_folders int passes fuel argv st = Exited (SystemExit msg 0) st
           ∧ (msg = usage_message ∨ msg = integer_message).
Proof.
  intros Hbad passes fuel st. unfold sync_folders.
  destruct (getting_args_malformed int argv Hbad) as [-> | ->]; eauto.
Qed.

Lemma malformed_invocation_exits_with_status_zero_witness :
  malformed int_on_ascii ["synchronizer.py"; "source"; "replica"; "ten"; "logfile"]
  ∧ ∀ passes fuel st,
      ∃ msg, sync_folders int_on_ascii passes fuel
               ["synchronizer.py"; "source"; "replica"; "ten"; "logfile"] st
             = Exited (SystemExit msg 0) st
             ∧ (msg = usage_message ∨ msg = integer_message).
Proof.
  assert (Hbad : malformed int_on_ascii
                   ["synchronizer.py"; "source"; "replica"; "ten"; "logfile"]).
  { right. exists "ten". split; reflexivity. }
  split; [exact Hbad|].
  exact (malformed_invocation_exits_with_status_zero _ _ Hbad).
Defined.

(** C9 as stated fails: with two arguments only, whatever the conversion,
    the process ends with exit status 0, not with a non-zero one. *)
Lemma malformed_invocation_status_not_nonzero :
  malformed int_on_ascii ["synchronizer.py"; "source"; "replica"]
  ∧ ∀ (int : string → option Z) passes fuel st,
      ¬ ∃ e, sync_folders int passes fuel ["synchronizer.py"; "source"; "replica"] st
             = Exited e st ∧ status e ≠ 0.
Proof.
  split.
  - left. simpl. lia.
  - intros int passes fuel st (e & He & Hne). unfold sync_folders, getting_args in He.
    simpl in He. injection He as <-. apply Hne. reflexivity.
Qed.



(** ** The event sink *)

Lemma bind_raised e st k : (do s <- Raised e st; k s) = Raised e st.
Proof. reflexivity. Qed.

(** [log_and_print] has no handler around the write: when the log file
    cannot be written the call raises, the line is neither logged nor
    printed, and nothing that follows the call is executed. *)
Lemma log_and_print_unwritable (message : event) (st : state) :
  log_writable st = false →
  log_and_print message st = Raised LogWriteError st
  ∧ (∀ k, (do s <- log_and_print message st; k s) = Raised LogWriteError st)
  ∧ (∀ (more : list event),
       for_each (message :: more) log_and_print st = Raised LogWriteError st).
Proof.
  intros Hw. unfold log_and_print. rewrite Hw.
  split; [reflexivity|]. split.
  - intros k. reflexivity.
  - intros more. simpl. unfold log_and_print. rewrite Hw. reflexivity.
Qed.


(** ** The reconciler, one entry at a time *)

(** X22: a source file whose replica counterpart is a regular file: the only
    thing looked at is whether the two modification times are equal.  When
    they differ the replica gets the content and the modification time of
    the source, whatever the two contents are, and then, if the date of that
    modification time can be written, exactly one "modified" line is logged;
    if it cannot, the visit ends with the exception of the conversion.  When
    the two times are equal nothing happens, whatever the two contents
    are. *)
Theorem copy_file_decides_on_mtime_only
    (st : state) (source_root folder_replica_path : path) (f : string)
    (cs cr : string) (ms cts mr ctr : Z) :
  source_root ++ [f] ≠ folder_replica_path ++ [f] →
  log_writable st = true →
  fs st !! (source_root ++ [f]) = Some (Entry (KFile cs) ms cts) →
  fs st !! (folder_replica_path ++ [f]) = Some (Entry (KFile cr) mr ctr) →
  (ms ≠ mr → date_error st ms = None →
     copy_file source_root folder_replica_path f st
     = Done (State (<[folder_replica_path ++ [f] := Entry (KFile cs) ms (clock st)]> (fs st))
                   (clock st + 1) true
                   (log_lines st ++ [Event NFile (source_root ++ [f]) Modified ms])
                   (console st ++ [Event NFile (source_root ++ [f]) Modified ms])
                   (date_error st)))
  ∧ (∀ err, ms ≠ mr → date_error st ms = Some err →
     copy_file source_root folder_replica_path f st
     = Raised err
         (set_fs st (<[folder_replica_path ++ [f] := Entry (KFile cs) ms (clock st)]> (fs st))))
  ∧ (ms = mr → copy_file source_root folder_replica_path f st = Done st).
Proof.
  intros Hne Hw Hs Hr. unfold copy_file, path_exists, stat.
  rewrite Hr, Hs. simpl.
  assert (Hcopy : copy2 (source_root ++ [f]) (folder_replica_path ++ [f]) st
                  = Done (set_fs st (<[folder_replica_path ++ [f]
                                        := Entry (KFile cs) ms (clock st)]> (fs st)))).
  { unfold copy2, isdir. rewrite Hr. simpl.
    destruct (decide _) as [|_]; [done|]. by rewrite Hs, Hr. }
  split; [|split].
  - intros Hdiff Hdate. apply Z.eqb_neq in Hdiff. rewrite Hdiff. simpl.
    rewrite Hcopy. cbn [bind fs set_fs].
    rewrite lookup_insert_ne by done. rewrite Hs. cbn [st_mtime date_error set_fs].
    rewrite Hdate. unfold log_and_print. simpl. rewrite Hw. reflexivity.
  - intros err Hdiff Hdate. apply Z.eqb_neq in Hdiff. rewrite Hdiff. simpl.
    rewrite Hcopy. cbn [bind fs set_fs].
    rewrite lookup_insert_ne by done. rewrite Hs. cbn [st_mtime date_error set_fs].
    by rewrite Hdate.
  - intros ->. rewrite Z.eqb_refl. reflexivity.
Qed.

Lemma copy_file_decides_on_mtime_only_witness :
  copy_file ["source"] ["replica"] "f.txt" touched_state
  = Done (State (<[["replica"] ++ ["f.txt"] := Entry (KFile "same") 7 100]> (fs touched_state))
                (100 + 1) true
                ([] ++ [Event NFile (["source"] ++ ["f.txt"]) Modified 7])
                ([] ++ [Event NFile (["source"] ++ ["f.txt"]) Modified 7])
                utc_dates)
  ∧ copy_file ["source"] ["replica"] "f.txt" far_future_state
    = Raised ValueError
        (set_fs far_future_state
           (<[["replica"] ++ ["f.txt"] := Entry (KFile "new") 253402300800 100]>
              (fs far_future_state)))
  ∧ copy_file ["source"] ["replica"] "g.txt" touched_state = Done touched_state.
Proof.
  split; [|split].
  - apply (copy_file_decides_on_mtime_only touched_state ["source"] ["replica"] "f.txt"
             "same" "same" 7 7 5 5);
      [done | reflexivity | reflexivity | reflexivity | lia | reflexivity].
  - apply (proj1 (proj2 (copy_file_decides_on_mtime_only far_future_state
             ["source"] ["replica"] "f.txt" "new" "old" 253402300800 7 5 5
             ltac:(done) eq_refl eq_refl eq_refl)) ValueError); [lia | reflexivity].
  - apply (copy_file_decides_on_mtime_only touched_state ["source"] ["replica"] "g.txt"
             "new" "old" 3 3 3 4); [done | reflexivity | reflexivity | reflexivity | lia].
Defined.

(** C3 at the replica root: the reconciler makes the missing replica root
    (line 67) and logs nothing for it. *)
Theorem replica_root_created_silently :
  ∃ st', copy_files_and_dirs 1 ["source"] ["replica"] no_replica_state = Done st'
         ∧ path_exists no_replica_state ["replica"] = false
         ∧ fs st' !! ["replica"] = Some (Entry KDir 100 100)
         ∧ log_lines st' = []
         ∧ console st' = [].
Proof.
  eexists. split; [vm_compute; reflexivity|]. repeat split; vm_compute; reflexivity.
Qed.

(** The sibling path (lines 93-101): a missing replica sub-directory is made
    and reported with one "created" line. *)
Lemma copy_dir_creates_and_logs (st : state) (source_root folder_replica_path : path)
    (d : string) (e : entry) :
  log_writable st = true →
  path_exists st (source_root ++ [d]) = true →
  fs st !! (folder_replica_path ++ [d]) = None →
  fs st !! folder_replica_path = Some e → is_dir_entry e = true →
  ∃ st', copy_dir source_root folder_replica_path d st = Done st'
         ∧ fs st' !! (folder_replica_path ++ [d]) = Some (Entry KDir (clock st) (clock st))
         ∧ log_lines st' = log_lines st
                           ++ [Event NFolder (folder_replica_path ++ [d]) Created (clock st)].
Proof.
  intros Hw Hs Hr He Hd. unfold copy_dir. rewrite Hs.
  unfold path_exists at 1. rewrite Hr. simpl.
  unfold makedirs. rewrite rev_unit. simpl. rewrite rev_involutive.
  unfold path_exists at 1. rewrite He. simpl.
  replace (rev (rev folder_replica_path) ++ [d]) with (folder_replica_path ++ [d])
    by (by rewrite rev_involutive).
  unfold mkdir, path_exists. rewrite Hr.
  destruct (folder_replica_path ++ [d]) as [|x l] eqn:Hp.
  { by destruct folder_replica_path. }
  rewrite <- Hp. unfold parent. rewrite removelast_last, He, Hd. simpl.
  unfold stat, set_fs. simpl. rewrite lookup_insert_eq.
  unfold log_and_print. simpl. rewrite Hw.
  eexists. split; [reflexivity|]. simpl. by rewrite lookup_insert_eq.
Qed.

(** ** The pruner and non-empty directories *)

Lemma bind_never_raises e r k :
  never_raises e r → (∀ st, never_raises e (k st)) → never_raises e (do st <- r; k st).
Proof.
  intros Hr Hk st'. destruct r as [st|e' st|]; simpl; [apply Hk | apply Hr | done].
Qed.

Lemma for_each_never_raises {A} e (xs : list A) body st :
  (∀ x s, never_raises e (body x s)) → never_raises e (for_each xs body st).
Proof.
  intros Hbody. revert st. induction xs as [|x xs IH]; intros st; simpl.
  - intros st'. done.
  - apply bind_never_raises; [apply Hbody | apply IH].
Qed.

Lemma log_and_print_never_enotempty m st : never_raises DirectoryNotEmpty (log_and_print m st).
Proof. intros st'. unfold log_and_print. by destruct (log_writable st). Qed.

Lemma remove_never_enotempty p st : never_raises DirectoryNotEmpty (remove p st).
Proof.
  intros st'. unfold remove.
  destruct (fs st !! p) as [[[c|] m ct]|]; done.
Qed.

Lemma remove_file_never_enotempty sp rr f st :
  never_raises DirectoryNotEmpty (remove_file sp rr f st).
Proof.
  unfold remove_file. destruct (negb _); [|by intros ?].
  apply bind_never_raises; [apply remove_never_enotempty|].
  intros s. apply log_and_print_never_enotempty.
Qed.

(** [rmdir] is only reached behind the emptiness test of line 132, on the
    very state the test looked at. *)
Lemma remove_dir_never_enotempty sp rr d st :
  never_raises DirectoryNotEmpty (remove_dir sp rr d st).
Proof.
  unfold remove_dir.
  destruct (listdir st (rr ++ [d])) as [names|] eqn:Hls.
  - destruct (bool_decide (names = [])) eqn:Hnil; simpl; [|by intros ?].
    destruct (negb _); [|by intros ?].
    apply bool_decide_eq_true in Hnil. subst names.
    unfold rmdir. rewrite Hls. simpl. apply log_and_print_never_enotempty.
  - intros st'. by destruct (path_exists st (rr ++ [d])).
Qed.

Lemma remove_walk_never_enotempty fuel src rep top st :
  never_raises DirectoryNotEmpty (remove_walk fuel src rep top st).
Proof.
  revert top st. induction fuel as [|fuel IH]; intros top st; simpl; [by intros ?|].
  destruct (scandir st top) as [[dirs files]|]; [|by intros ?].
  apply bind_never_raises.
  - apply for_each_never_raises. intros d s. apply IH.
  - intros s. unfold remove_visit. apply bind_never_raises.
    + apply for_each_never_raises. intros f s'. apply remove_file_never_enotempty.
    + intros s'. apply for_each_never_raises. intros d s''. apply remove_dir_never_enotempty.
Qed.

(** C6: the pruner never removes a directory that is not empty.  The walk as
    a whole never runs into the directory-not-empty error of [rmdir]; the
    step for a sub-directory leaves a directory that still has entries
    exactly as it is; and whenever that step does take a directory away, the
    directory was empty and had no counterpart in the source when the step
    looked at it. *)
Theorem pruner_keeps_nonempty_directories
    (fuel : nat) (src rep folder_source_path replica_root : path) (d : string) (st : state) :
  never_raises DirectoryNotEmpty (remove_files_and_dirs fuel src rep st)
  ∧ (∀ names, listdir st (replica_root ++ [d]) = Some names → names ≠ [] →
       remove_dir folder_source_path replica_root d st = Done st)
  ∧ (∀ st', remove_dir folder_source_path replica_root d st = Done st' →
       path_exists st (replica_root ++ [d]) = true →
       path_exists st' (replica_root ++ [d]) = false →
       listdir st (replica_root ++ [d]) = Some []
       ∧ path_exists st (folder_source_path ++ [d]) = false).
Proof.
  split; [apply remove_walk_never_enotempty|]. split.
  - intros names Hls Hne. unfold remove_dir. rewrite Hls.
    rewrite bool_decide_eq_false_2 by done. reflexivity.
  - intros st' Hrun Hbefore Hafter. unfold remove_dir in Hrun.
    destruct (listdir st (replica_root ++ [d])) as [names|] eqn:Hls; [|done].
    destruct (bool_decide (names = [])) eqn:Hnil; simpl in Hrun.
    + apply bool_decide_eq_true in Hnil. subst names.
      destruct (path_exists st (folder_source_path ++ [d])); simpl in Hrun; [|done].
      injection Hrun as <-. congruence.
    + injection Hrun as <-. congruence.
Qed.

(** ** What a pass can change *)

Lemma post_bind r k (Q Q' : state → Prop) :
  post r Q → (∀ s, Q s → Q' s) → (∀ s, Q s → post (k s) Q') →
  post (do s <- r; k s) Q'.
Proof. destruct r; simpl; eauto. Qed.

Lemma post_for_each {A} (xs : list A) body (Inv : state → Prop) st :
  Inv st → (∀ x s, Inv s → post (body x s) Inv) → post (for_each xs body st) Inv.
Proof.
  intros Hst Hbody. revert st Hst. induction xs as [|x xs IH]; intros st Hst; simpl.
  - done.
  - eapply post_bind; [by apply Hbody | done | done].
Qed.

Lemma post_weaken r (Q Q' : state → Prop) :
  post r Q → (∀ s, Q s → Q' s) → post r Q'.
Proof. destruct r; simpl; eauto. Qed.

Lemma same_outside_refl region st : same_outside region st st.
Proof. by intros q _. Qed.

Lemma same_outside_trans region st1 st2 st3 :
  same_outside region st1 st2 → same_outside region st2 st3 → same_outside region st1 st3.
Proof. intros H12 H23 q Hq. rewrite H23, H12; done. Qed.

Lemma same_outside_mono (region region' : path → Prop) st st' :
  (∀ q, region q → region' q) → same_outside region st st' → same_outside region' st st'.
Proof. intros Hsub H q Hq. apply H. eauto. Qed.

Lemma touch_parent_lookup_ne now p m q :
  q ≠ parent p → touch_parent now p m !! q = m !! q.
Proof.
  intros Hne. unfold touch_parent. destruct p; [done|].
  by rewrite lookup_alter_ne.
Qed.

Lemma fs_set_fs st m : fs (set_fs st m) = m.
Proof. reflexivity. Qed.

Lemma mkdir_frame p st : post (mkdir p st) (same_outside (at_or_above p) st).
Proof.
  unfold mkdir. destruct (path_exists st p); [apply same_outside_refl|].
  destruct p as [|x l].
  - intros q Hq. rewrite fs_set_fs, lookup_insert_ne; [done|].
    intros <-. apply Hq. by left.
  - destruct (fs st !! parent (x :: l)) as [e|]; [|apply same_outside_refl].
    destruct (is_dir_entry e); [|apply same_outside_refl].
    intros q Hq. rewrite fs_set_fs, lookup_insert_ne.
    + apply touch_parent_lookup_ne. intros ->. apply Hq. by right.
    + intros <-. apply Hq. by left.
Qed.

Lemma remove_frame p st : post (remove p st) (same_outside (at_or_above p) st).
Proof.
  unfold remove. destruct (fs st !! p) as [[[c|] m ct]|]; try apply same_outside_refl.
  intros q Hq. rewrite fs_set_fs, lookup_delete_ne.
  - apply touch_parent_lookup_ne. intros ->. apply Hq. by right.
  - intros <-. apply Hq. by left.
Qed.

Lemma rmdir_frame p st : post (rmdir p st) (same_outside (at_or_above p) st).
Proof.
  unfold rmdir. destruct (listdir st p) as [[|n names]|].
  - intros q Hq. rewrite fs_set_fs, lookup_delete_ne.
    + apply touch_parent_lookup_ne. intros ->. apply Hq. by right.
    + intros <-. apply Hq. by left.
  - apply same_outside_refl.
  - destruct (path_exists st p); apply same_outside_refl.
Qed.

Lemma parent_snoc (p : path) (n : string) : parent (p ++ [n]) = p.
Proof. apply removelast_last. Qed.

Lemma copy2_frame src dst st : post (copy2 src dst st) (same_outside (copy2_region src dst) st).
Proof.
  unfold copy2.
  set (target := if isdir st dst then dst ++ option_list (last src) else dst).
  assert (Htarget : ∀ q, ¬ copy2_region src dst q → q ≠ target ∧ q ≠ parent target).
  { intros q Hq. unfold copy2_region in Hq. unfold target. destruct (isdir st dst).
    - destruct (last src) as [n|]; simpl in *.
      + rewrite parent_snoc. split; intros ->; apply Hq; auto.
      + rewrite app_nil_r in *. split; intros ->; apply Hq; auto.
    - split; intros ->; apply Hq; auto. }
  destruct (decide (src = target)); [apply same_outside_refl|].
  destruct (fs st !! src) as [[[c|] m ct]|]; try apply same_outside_refl.
  destruct (fs st !! target) as [[[c'|] m' ct']|].
  - intros q Hq. apply Htarget in Hq as [Hq1 Hq2]. by rewrite fs_set_fs, lookup_insert_ne.
  - apply same_outside_refl.
  - destruct (fs st !! parent target) as [e|]; [|apply same_outside_refl].
    destruct (is_dir_entry e); [|apply same_outside_refl].
    intros q Hq. apply Htarget in Hq as [Hq1 Hq2].
    rewrite fs_set_fs, lookup_insert_ne by done. by apply touch_parent_lookup_ne.
Qed.

Lemma log_and_print_fs m st : post (log_and_print m st) (fun st' => fs st' = fs st).
Proof. unfold log_and_print. by destruct (log_writable st). Qed.

(** [makedirs p] changes at most the paths leading to [p]. *)
Lemma makedirs_rev_frame rp st :
  post (makedirs_rev rp st) (same_outside (fun q => q `prefix_of` rev rp) st).
Proof.
  revert st. induction rp as [|n rhead IH]; intros st.
  - simpl. eapply post_weaken; [apply mkdir_frame|].
    intros s Hs. eapply same_outside_mono; [|exact Hs].
    intros q [-> | ->]; simpl; done.
  - cbn [makedirs_rev].
    assert (Hstep : ∀ s, post (mkdir (rev (n :: rhead)) s)
                           (same_outside (fun q => q `prefix_of` rev (n :: rhead)) s)).
    { intros s. eapply post_weaken; [apply mkdir_frame|].
      intros s' Hs'. eapply same_outside_mono; [|exact Hs'].
      intros q [-> | ->]; [done|]. simpl. rewrite parent_snoc.
      by apply prefix_app_r. }
    assert (Hup : ∀ s, same_outside (fun q => q `prefix_of` rev rhead) st s →
                       same_outside (fun q => q `prefix_of` rev (n :: rhead)) st s).
    { intros s. apply same_outside_mono. intros q Hq. simpl. by apply prefix_app_r. }
    destruct (path_exists st (rev rhead)).
    + simpl. apply Hstep.
    + specialize (IH st).
      destruct (makedirs_rev rhead st) as [s|e s|]; simpl in *.
      * eapply post_weaken; [apply Hstep|].
        intros s' Hs'. eapply same_outside_trans; [apply Hup, IH | exact Hs'].
      * destruct e; simpl; try (by apply Hup).
        eapply post_weaken; [apply Hstep|].
        intros s' Hs'. eapply same_outside_trans; [apply Hup, IH | exact Hs'].
      * done.
Qed.

Lemma makedirs_frame p st :
  post (makedirs p st) (same_outside (fun q => q `prefix_of` p) st).
Proof.
  unfold makedirs. eapply post_weaken; [apply makedirs_rev_frame|].
  intros s. by rewrite rev_involutive.
Qed.

(** ** The pass stays near the replica *)

Lemma near_prefix (rep p q : path) : rep `prefix_of` p → q `prefix_of` p → near rep q.
Proof. intros H1 H2. destruct (prefix_weak_total _ _ _ H1 H2); [by left | by right]. Qed.

Lemma near_parent (rep p : path) : rep `prefix_of` p → near rep (parent p).
Proof.
  intros Hp. apply (near_prefix rep p); [done|].
  unfold parent. destruct (decide (p = [])) as [->|Hne]; [done|].
  exists [List.last p EmptyString]. by apply app_removelast_last.
Qed.

Lemma log_and_print_frame region m st :
  post (log_and_print m st) (same_outside region st).
Proof.
  eapply post_weaken; [apply log_and_print_fs|].
  intros s Hs q _. by rewrite Hs.
Qed.

Lemma copy2_frame_near rep src dst st :
  rep `prefix_of` dst → post (copy2 src dst st) (same_outside (near rep) st).
Proof.
  intros Hdst. eapply post_weaken; [apply copy2_frame|].
  intros s. apply same_outside_mono.
  intros q [-> | [-> | ->]].
  - by apply near_parent.
  - by left.
  - left. by apply prefix_app_r.
Qed.

Lemma at_or_above_near rep p q : rep `prefix_of` p → at_or_above p q → near rep q.
Proof. intros Hp [-> | ->]; [by left | by apply near_parent]. Qed.

Lemma makedirs_frame_near rep p st :
  rep `prefix_of` p → post (makedirs p st) (same_outside (near rep) st).
Proof.
  intros Hp. eapply post_weaken; [apply makedirs_frame|].
  intros s. apply same_outside_mono. intros q Hq. by apply (near_prefix rep p).
Qed.

(** A step that stays near the replica, followed by a log line. *)
Lemma then_log_frame region r (line : state → result) st :
  post r (same_outside region st) →
  (∀ s, post (line s) (same_outside region s)) →
  post (do s <- r; line s) (same_outside region st).
Proof.
  intros Hr Hline. eapply post_bind; [exact Hr | done |].
  intros s Hs. eapply post_weaken; [apply Hline|].
  intros s'. by apply same_outside_trans.
Qed.

Lemma stat_then_log_frame region st p ev :
  post (match stat st p with
        | None => Raised FileNotFoundError st
        | Some e => log_and_print (ev e) st
        end) (same_outside region st).
Proof.
  destruct (stat st p); [apply log_and_print_frame | apply same_outside_refl].
Qed.

Lemma copy_file_frame rep source_root folder_replica_path f st :
  rep `prefix_of` folder_replica_path →
  post (copy_file source_root folder_replica_path f st) (same_outside (near rep) st).
Proof.
  intros Hrep. unfold copy_file.
  assert (Hdst : rep `prefix_of` folder_replica_path ++ [f]) by (by apply prefix_app_r).
  destruct (negb _).
  - apply then_log_frame; [by apply copy2_frame_near|].
    intros s. apply stat_then_log_frame.
  - destruct (stat st (source_root ++ [f])); [|apply same_outside_refl].
    destruct (stat st (folder_replica_path ++ [f])); [|apply same_outside_refl].
    destruct (negb _); [|apply same_outside_refl].
    apply then_log_frame; [by apply copy2_frame_near|].
    intros s. destruct (stat s _); [|apply same_outside_refl].
    destruct (date_error s _); [apply same_outside_refl | apply log_and_print_frame].
Qed.

Lemma copy_dir_frame rep source_root folder_replica_path d st :
  rep `prefix_of` folder_replica_path →
  post (copy_dir source_root folder_replica_path d st) (same_outside (near rep) st).
Proof.
  intros Hrep. unfold copy_dir.
  destruct (_ && _); [|apply same_outside_refl].
  apply then_log_frame.
  - apply makedirs_frame_near. by apply prefix_app_r.
  - intros s. apply stat_then_log_frame.
Qed.

Lemma for_each_frame {A} region (xs : list A) body st :
  (∀ x s, post (body x s) (same_outside region s)) →
  post (for_each xs body st) (same_outside region st).
Proof.
  intros Hbody. apply post_for_each; [apply same_outside_refl|].
  intros x s Hs. eapply post_weaken; [apply Hbody|].
  intros s'. by apply same_outside_trans.
Qed.

Lemma makedirs_joined_frame rep rel st :
  post (makedirs_joined rep rel st) (same_outside (near rep) st).
Proof.
  unfold makedirs_joined. destruct rel as [|n rel].
  - destruct (fs st !! rep); [apply same_outside_refl|].
    pose proof (makedirs_frame_near rep rep st (reflexivity _)) as H.
    destruct (makedirs rep st) as [s|e s|]; [done| |done].
    by destruct e.
  - apply makedirs_frame_near. by apply prefix_app_r.
Qed.

Lemma copy_visit_frame src rep source_root dirs files st :
  post (copy_visit src rep source_root dirs files st) (same_outside (near rep) st).
Proof.
  unfold copy_visit.
  assert (Hrep : rep `prefix_of` rep ++ relpath source_root src) by (by apply prefix_app_r).
  apply then_log_frame.
  { destruct (negb _); [apply makedirs_joined_frame | apply same_outside_refl]. }
  intros s. apply then_log_frame.
  { apply for_each_frame. intros f s'. by apply copy_file_frame. }
  intros s'. apply for_each_frame. intros d s''. by apply copy_dir_frame.
Qed.

Lemma copy_walk_frame fuel src rep top st :
  post (copy_walk fuel src rep top st) (same_outside (near rep) st).
Proof.
  revert top st. induction fuel as [|fuel IH]; intros top st; [done|].
  cbn [copy_walk]. destruct (scandir st top) as [[dirs files]|]; [|apply same_outside_refl].
  apply then_log_frame; [apply copy_visit_frame|].
  intros s. apply for_each_frame. intros d s'. apply IH.
Qed.

Lemma remove_file_frame rep folder_source_path replica_root f st :
  rep `prefix_of` replica_root →
  post (remove_file folder_source_path replica_root f st) (same_outside (near rep) st).
Proof.
  intros Hrep. unfold remove_file. destruct (negb _); [|apply same_outside_refl].
  apply then_log_frame; [|intros s; apply log_and_print_frame].
  eapply post_weaken; [apply remove_frame|].
  intros s. apply same_outside_mono. intros q. apply at_or_above_near.
  by apply prefix_app_r.
Qed.

Lemma remove_dir_frame rep folder_source_path replica_root d st :
  rep `prefix_of` replica_root →
  post (remove_dir folder_source_path replica_root d st) (same_outside (near rep) st).
Proof.
  intros Hrep. unfold remove_dir.
  destruct (listdir st (replica_root ++ [d])); [|apply same_outside_refl].
  destruct (_ && _); [|apply same_outside_refl].
  apply then_log_frame; [|intros s; apply log_and_print_frame].
  eapply post_weaken; [apply rmdir_frame|].
  intros s. apply same_outside_mono. intros q. apply at_or_above_near.
  by apply prefix_app_r.
Qed.

Lemma remove_walk_frame fuel src rep top st :
  rep `prefix_of` top →
  post (remove_walk fuel src rep top st) (same_outside (near rep) st).
Proof.
  revert top st. induction fuel as [|fuel IH]; intros top st Htop; [done|].
  cbn [remove_walk]. destruct (scandir st top) as [[dirs files]|]; [|apply same_outside_refl].
  apply then_log_frame.
  { apply for_each_frame. intros d s. apply IH. by apply prefix_app_r. }
  intros s. unfold remove_visit. apply then_log_frame.
  { apply for_each_frame. intros f s'. by apply remove_file_frame. }
  intros s'. apply for_each_frame. intros d s''. by apply remove_dir_frame.
Qed.

Lemma sync_pass_frame fuel src rep st :
  post (sync_pass fuel src rep st) (same_outside (near rep) st).
Proof.
  unfold sync_pass. apply then_log_frame; [apply copy_walk_frame|].
  intros s. by apply remove_walk_frame.
Qed.

Lemma separate_not_near src rep p : separate src rep → src `prefix_of` p → ¬ near rep p.
Proof.
  intros [Hsr Hrs] Hp [Hrep | Hrep].
  - destruct (prefix_weak_total _ _ _ Hp Hrep); done.
  - apply Hsr. by etrans.
Qed.

(** C8, as the code has it: when neither root lies inside the other, a pass
    changes nothing under the source root.  Whatever the two roots are, the
    copy phase, the removal phase and the whole pass leave every path alone
    that is neither under the replica root nor a directory leading to it; so
    when neither root lies inside the other, every path under the source
    root holds after each phase and after the pass (or at the point where
    an exception ended it) exactly what it held before. *)
Theorem pass_leaves_source_untouched (fuel : nat) (src rep : path) (st : state) :
  separate src rep →
  post (copy_files_and_dirs fuel src rep st) (source_untouched src st)
  ∧ post (remove_files_and_dirs fuel src rep st) (source_untouched src st)
  ∧ post (sync_pass fuel src rep st) (source_untouched src st)
  ∧ post (sync_pass fuel src rep st) (same_outside (near rep) st).
Proof.
  intros Hsep.
  assert (Hnear : ∀ s, same_outside (near rep) st s → source_untouched src st s).
  { intros s Hs p Hp. apply Hs. by apply (separate_not_near src). }
  repeat split.
  - eapply post_weaken; [apply copy_walk_frame | exact Hnear].
  - eapply post_weaken; [by apply remove_walk_frame | exact Hnear].
  - eapply post_weaken; [apply sync_pass_frame | exact Hnear].
  - apply sync_pass_frame.
Qed.

Lemma separate_source_replica : separate ["source"] ["replica"].
Proof. split; intros [k Hk]; discriminate. Qed.

Lemma pass_leaves_source_untouched_witness :
  separate ["source"] ["replica"]
  ∧ post (sync_pass 3 ["source"] ["replica"] touched_state)
         (source_untouched ["source"] touched_state).
Proof.
  split; [exact separate_source_replica|].
  exact (proj1 (proj2 (proj2
    (pass_leaves_source_untouched 3 ["source"] ["replica"] touched_state
       separate_source_replica)))).
Defined.

(** C8 as stated fails: with the source [r/s] inside the replica [r], the
    pass copies the file of the source into the replica, and the pruner,
    which finds no [r/s/s], then deletes the source file, the copy, and the
    source root itself. *)
Lemma pass_deletes_source_inside_replica :
  fs nested_state !! ["r"; "s"; "f.txt"] = Some (Entry (KFile "F") 5 5)
  ∧ ∃ st', sync_pass 3 ["r"; "s"] ["r"] nested_state = Done st'
           ∧ fs st' !! ["r"; "s"; "f.txt"] = None
           ∧ fs st' !! ["r"; "s"] = None
           ∧ ¬ source_untouched ["r"; "s"] nested_state st'.
Proof.
  split; [reflexivity|].
  eexists. split; [vm_compute; reflexivity|].
  split; [vm_compute; reflexivity|]. split; [vm_compute; reflexivity|].
  intros H. specialize (H ["r"; "s"] (reflexivity _)). vm_compute in H. discriminate.
Qed.

(** ** Listings *)

Lemma child_name_Some (p q : path) (n : string) : child_name p q = Some n ↔ q = p ++ [n].
Proof.
  unfold child_name. split.
  - destruct (last q) as [m|] eqn:Hl; [|done].
    destruct (decide (q = p ++ [m])); [|done]. by intros [= <-].
  - intros ->. rewrite last_snoc. by rewrite decide_True.
Qed.

Lemma elem_of_children st p n e :
  (n, e) ∈ children st p ↔ fs st !! (p ++ [n]) = Some e.
Proof.
  unfold children. rewrite list_elem_of_omap. split.
  - intros ([q e'] & Hin & Hf). simpl in Hf.
    destruct (child_name p q) as [m|] eqn:Hc; [|done].
    injection Hf as -> ->. apply child_name_Some in Hc as ->.
    by apply elem_of_map_to_list in Hin.
  - intros Hlk. exists (p ++ [n], e). split.
    + by apply elem_of_map_to_list.
    + simpl. by rewrite (proj2 (child_name_Some p (p ++ [n]) n) eq_refl).
Qed.

Lemma NoDup_children st p : NoDup (children st p).*1.
Proof.
  unfold children.
  pose proof (NoDup_fst_map_to_list (fs st)) as Hnd.
  induction (map_to_list (fs st)) as [|[q e] l IH]; simpl; [constructor|].
  apply NoDup_cons in Hnd as [Hq Hnd]. specialize (IH Hnd).
  destruct (child_name p q) as [n|] eqn:Hc; simpl; [|done].
  apply NoDup_cons. split; [|done].
  apply child_name_Some in Hc as ->.
  intros Hin. apply Hq. simpl.
  apply list_elem_of_fmap in Hin as ([m e'] & -> & Hin). simpl.
  apply list_elem_of_omap in Hin as ([q' e''] & Hin & Hf). simpl in Hf.
  destruct (child_name p q') as [m'|] eqn:Hc'; [|done].
  injection Hf as -> ->. apply child_name_Some in Hc' as ->.
  apply list_elem_of_fmap. by exists (p ++ [m], e').
Qed.

Lemma elem_of_listdir st p names n :
  listdir st p = Some names → n ∈ names ↔ is_Some (fs st !! (p ++ [n])).
Proof.
  unfold listdir. destruct (isdir st p); [|done]. intros [= <-].
  rewrite list_elem_of_fmap. split.
  - intros ([m e] & -> & Hin). apply elem_of_children in Hin. by exists e.
  - intros [e He]. exists (n, e). split; [done|]. by apply elem_of_children.
Qed.

Lemma listdir_nil st p :
  isdir st p = true → (∀ n, fs st !! (p ++ [n]) = None) → listdir st p = Some [].
Proof.
  intros Hd Hnone. unfold listdir. rewrite Hd. f_equal.
  destruct (children st p) as [|[n e] l] eqn:Hc; [done|].
  assert (Hin : (n, e) ∈ children st p) by (rewrite Hc; left).
  apply elem_of_children in Hin. by rewrite Hnone in Hin.
Qed.

Lemma scandir_Some st top :
  isdir st top = true →
  ∃ dirs files, scandir st top = Some (dirs, files)
    ∧ NoDup dirs ∧ NoDup files
    ∧ (∀ n, n ∈ dirs ↔ ∃ e, fs st !! (top ++ [n]) = Some e ∧ is_dir_entry e = true)
    ∧ (∀ n, n ∈ files ↔ ∃ e, fs st !! (top ++ [n]) = Some e ∧ is_dir_entry e = false).
Proof.
  intros Hd. unfold scandir. rewrite Hd. eexists _, _. split; [reflexivity|].
  pose proof (NoDup_children st top) as Hnd.
  assert (Hsub : ∀ (P : string * entry → Prop) `{!∀ x, Decision (P x)},
             NoDup (filter P (children st top)).*1).
  { intros P HP. revert Hnd. generalize (children st top). intros l.
    induction l as [|x l IH]; simpl; [constructor|].
    intros [Hx Hl]%NoDup_cons. rewrite filter_cons.
    destruct (decide (P x)); simpl; [|by apply IH].
    apply NoDup_cons. split; [|by apply IH].
    intros Hin. apply Hx. apply list_elem_of_fmap in Hin as (y & -> & Hy).
    apply list_elem_of_filter in Hy as [_ Hy]. apply list_elem_of_fmap. by exists y. }
  split; [apply Hsub|]. split; [apply Hsub|].
  split; intros n; rewrite list_elem_of_fmap; split.
  - intros ([m e] & -> & Hin). apply list_elem_of_filter in Hin as [HP Hin].
    apply elem_of_children in Hin. by exists e.
  - intros (e & He & Hk). exists (n, e). split; [done|].
    apply list_elem_of_filter. split; [done|]. by apply elem_of_children.
  - intros ([m e] & -> & Hin). apply list_elem_of_filter in Hin as [HP Hin].
    apply elem_of_children in Hin. by exists e.
  - intros (e & He & Hk). exists (n, e). split; [done|].
    apply list_elem_of_filter. split; [done|]. by apply elem_of_children.
Qed.

Lemma scandir_None st top : isdir st top = false → scandir st top = None.
Proof. intros Hd. unfold scandir. by rewrite Hd. Qed.

Lemma singleton_list (l : list string) (d : string) :
  NoDup l → (∀ n, n ∈ l ↔ n = d) → l = [d].
Proof.
  intros Hnd Hl. destruct l as [|a l].
  - assert (d ∈ @nil string) by (by apply Hl). by apply elem_of_nil in H.
  - assert (a = d) as -> by (apply Hl; left).
    destruct l as [|b l]; [done|].
    assert (b = d) as -> by (apply Hl; right; left).
    apply NoDup_cons in Hnd as [Hnd _]. exfalso. apply Hnd. left.
Qed.

Lemma empty_list (l : list string) : (∀ n, n ∉ l) → l = [].
Proof. destruct l as [|a l]; [done|]. intros H. exfalso. apply (H a). left. Qed.

Lemma snoc_inj2 (p : path) (a b : string) : p ++ [a] = p ++ [b] → a = b.
Proof. intros H. apply app_inv_head in H. by injection H. Qed.

(** ** A file in the source where the replica has a directory *)

Lemma conflict_first_pass :
  sync_pass 3 ["source"] ["replica"] kind_conflict_state
  = Done (state_after_conflict_pass 102 (conflict_events 102)).
Proof. vm_compute. reflexivity. Qed.

Lemma conflict_second_pass :
  sync_pass 3 ["source"] ["replica"] (state_after_conflict_pass 102 (conflict_events 102))
  = Done (state_after_conflict_pass 104 (conflict_events 102 ++ conflict_events 104)).
Proof. vm_compute. reflexivity. Qed.

(** C1 at a kind conflict: the pass completes, the file [a] of the source
    has been copied into the replica directory [a] and deleted again, and the
    replica still has a directory at [a], stamped by the deletion: the
    replica does not mirror the source. *)
Theorem pass_does_not_converge_on_kind_conflict :
  ∃ st', sync_pass 3 ["source"] ["replica"] kind_conflict_state = Done st'
         ∧ fs st' !! ["source"; "a"] = Some (Entry (KFile "A") 5 5)
         ∧ fs st' !! ["replica"; "a"] = Some (Entry KDir 101 101)
         ∧ ¬ mirrored ["source"] ["replica"] st'.
Proof.
  eexists. split; [apply conflict_first_pass|].
  split; [reflexivity|]. split; [reflexivity|].
  intros [_ Hmtime]. specialize (Hmtime ["a"] "A" 5 5 eq_refl). discriminate.
Qed.

(** C4 at a kind conflict: the source file [a] has a counterpart in the
    replica, the directory [a], and the two modification times differ.  The
    reconciler logs one "modified" line for the file, and yet the
    counterpart is not overwritten: it is still a directory, which now
    holds a copy of the file. *)
Theorem modified_line_without_overwrite :
  path_exists kind_conflict_state ["replica"; "a"] = true
  ∧ st_mtime <$> stat kind_conflict_state ["source"; "a"] = Some 5
  ∧ st_mtime <$> stat kind_conflict_state ["replica"; "a"] = Some 7
  ∧ ∃ st', copy_files_and_dirs 3 ["source"] ["replica"] kind_conflict_state = Done st'
           ∧ log_lines st' = [Event NFile ["source"; "a"] Modified 5]
           ∧ ekind <$> fs st' !! ["replica"; "a"] = Some KDir
           ∧ fs st' !! ["replica"; "a"; "a"] = Some (Entry (KFile "A") 5 100).
Proof.
  split; [reflexivity|]. split; [reflexivity|]. split; [reflexivity|].
  eexists. split; [vm_compute; reflexivity|]. repeat split; vm_compute; reflexivity.
Qed.

(** C2 at a kind conflict: a second pass right after a completed one, with
    the source unchanged, copies and deletes again; it logs two more lines
    and stamps the replica directory anew. *)
Theorem second_pass_not_silent_on_kind_conflict :
  ∃ st1 st2,
    sync_pass 3 ["source"] ["replica"] kind_conflict_state = Done st1
    ∧ sync_pass 3 ["source"] ["replica"] st1 = Done st2
    ∧ (∀ p, ["source"] `prefix_of` p → fs st1 !! p = fs kind_conflict_state !! p)
    ∧ log_lines st2 = log_lines st1 ++ conflict_events 104
    ∧ fs st2 !! ["replica"; "a"] ≠ fs st1 !! ["replica"; "a"].
Proof.
  eexists _, _. split; [apply conflict_first_pass|].
  split; [apply conflict_second_pass|].
  split; [|split; [reflexivity | discriminate]].
  intros p Hp.
  pose proof (sync_pass_frame 3 ["source"] ["replica"] kind_conflict_state) as H.
  rewrite conflict_first_pass in H. apply H.
  by apply (separate_not_near ["source"]); [apply separate_source_replica|].
Qed.

(** * Convergence when kinds agree

    The rest of the development shows that the kind conflict above is the
    only way a pass can fail to mirror the source: on a well-formed
    filesystem, with two separate roots and no path that is a file on one
    side and a directory on the other, a pass returns and leaves the replica
    a mirror of the source, and a second pass changes nothing. *)

(** ** The shape of the filesystem *)

Lemma skm_lookup st p : skm st !! p = skel_of <$> fs st !! p.
Proof. unfold skm. apply lookup_fmap. Qed.

Lemma skel_of_dir e : skel_of e = SDir ↔ is_dir_entry e = true.
Proof. unfold skel_of, is_dir_entry. destruct (ekind e); split; done. Qed.

Lemma skm_dir st p : skm st !! p = Some SDir ↔ ∃ e, fs st !! p = Some e ∧ is_dir_entry e = true.
Proof.
  rewrite skm_lookup. split.
  - destruct (fs st !! p) as [e|]; [|done]. simpl. intros [= H].
    exists e. split; [done|]. by apply skel_of_dir.
  - intros (e & -> & He). simpl. f_equal. by apply skel_of_dir.
Qed.

Lemma skm_file st p c m ct :
  skm st !! p = Some (SFile c m ct) ↔ fs st !! p = Some (Entry (KFile c) m ct).
Proof.
  rewrite skm_lookup. split.
  - destruct (fs st !! p) as [[[c'|] m' ct']|]; simpl; [|done|done].
    unfold skel_of. simpl. by intros [= -> -> ->].
  - by intros ->.
Qed.

Lemma skm_None st p : skm st !! p = None ↔ fs st !! p = None.
Proof. rewrite skm_lookup. by destruct (fs st !! p). Qed.

Lemma path_exists_true st p : path_exists st p = true ↔ is_Some (skm st !! p).
Proof.
  unfold path_exists. rewrite skm_lookup. destruct (fs st !! p); simpl.
  - split; [by eexists | done].
  - split; [done | by intros [? ?]].
Qed.

Lemma path_exists_false st p : path_exists st p = false ↔ skm st !! p = None.
Proof. unfold path_exists. rewrite skm_lookup. by destruct (fs st !! p). Qed.

Lemma isdir_true st p : isdir st p = true ↔ skm st !! p = Some SDir.
Proof.
  rewrite skm_dir. unfold isdir. destruct (fs st !! p) as [e|].
  - split; [by exists e | by intros (? & [= <-] & ?)].
  - split; [done | by intros (? & ? & ?)].
Qed.

Lemma isdir_false st p : isdir st p = false ↔ skm st !! p ≠ Some SDir.
Proof. rewrite <- isdir_true. by destruct (isdir st p). Qed.

Lemma wfm_None_below m p k : wfm m → m !! p = None → k ≠ [] → m !! (p ++ k) = None.
Proof.
  intros Hwf Hp. induction k as [|n k IH] using rev_ind; [done|]. intros _.
  destruct (m !! (p ++ k ++ [n])) eqn:Hlk; [|done].
  rewrite (assoc_L (++)) in Hlk.
  assert (Hk : m !! (p ++ k) = Some SDir) by (apply (Hwf _ n); by eexists).
  destruct (decide (k = [])) as [->|Hne].
  - rewrite app_nil_r in Hk. congruence.
  - rewrite IH in Hk; done.
Qed.

Lemma wfm_not_dir_below m p k : wfm m → m !! p ≠ Some SDir → k ≠ [] → m !! (p ++ k) = None.
Proof.
  intros Hwf Hp. induction k as [|n k IH] using rev_ind; [done|]. intros _.
  destruct (m !! (p ++ k ++ [n])) eqn:Hlk; [|done].
  rewrite (assoc_L (++)) in Hlk.
  assert (Hk : m !! (p ++ k) = Some SDir) by (apply (Hwf _ n); by eexists).
  destruct (decide (k = [])) as [->|Hne].
  - rewrite app_nil_r in Hk. congruence.
  - rewrite IH in Hk; done.
Qed.

Lemma wfm_prefix_dir m p k : wfm m → is_Some (m !! (p ++ k)) → k ≠ [] → m !! p = Some SDir.
Proof.
  intros Hwf Hk Hne. destruct (decide (m !! p = Some SDir)) as [|Hp]; [done|].
  rewrite (wfm_not_dir_below m p k) in Hk; [by destruct Hk | done..].
Qed.

Lemma wfm_insert m p v :
  wfm m → (p = [] ∨ m !! parent p = Some SDir) →
  (v = SDir ∨ ∀ n, m !! (p ++ [n]) = None) →
  wfm (<[p := v]> m).
Proof.
  intros Hwf Hpar Hv q n Hq.
  destruct (decide (p = q)) as [<-|Hpq].
  - rewrite lookup_insert_eq. destruct Hv as [-> | Hv]; [done|].
    rewrite lookup_insert_ne in Hq.
    + rewrite Hv in Hq. by destruct Hq.
    + intros H. apply (f_equal length) in H. rewrite length_app in H. simpl in H. lia.
  - rewrite lookup_insert_ne by done.
    destruct (decide (p = q ++ [n])) as [->|Hne].
    + destruct Hpar as [Hnil | Hpar]; [by destruct q|]. by rewrite parent_snoc in Hpar.
    + rewrite lookup_insert_ne in Hq by done. by apply (Hwf q n).
Qed.

Lemma wfm_delete m p : wfm m → (∀ n, m !! (p ++ [n]) = None) → wfm (delete p m).
Proof.
  intros Hwf Hp q n Hq.
  destruct (decide (p = q ++ [n])) as [->|Hne].
  - rewrite lookup_delete_eq in Hq. by destruct Hq.
  - rewrite lookup_delete_ne in Hq by done.
    destruct (decide (p = q)) as [<-|Hpq].
    + rewrite Hp in Hq. by destruct Hq.
    + rewrite lookup_delete_ne by done. by apply (Hwf q n).
Qed.

(** Stamping a directory does not change the shape. *)
Lemma skel_of_touch now e : is_dir_entry e = true → skel_of (touch now e) = skel_of e.
Proof. unfold skel_of, touch, is_dir_entry. simpl. by destruct (ekind e). Qed.

Lemma skm_touch_parent (now : Z) (p : path) (m : gmap path entry) :
  (∀ e, m !! parent p = Some e → is_dir_entry e = true) →
  skel_of <$> touch_parent now p m = skel_of <$> m.
Proof.
  intros Hdir. unfold touch_parent. destruct p as [|x l]; [done|].
  apply map_eq. intros q. rewrite !lookup_fmap.
  destruct (decide (parent (x :: l) = q)) as [<-|Hne].
  - rewrite lookup_alter_eq. destruct (m !! parent (x :: l)) as [e|] eqn:He; [|done].
    simpl. f_equal. apply skel_of_touch. by apply Hdir.
  - by rewrite lookup_alter_ne.
Qed.

Lemma same_log_set_fs st m : same_log st (set_fs st m).
Proof. done. Qed.

Lemma skm_set_fs st m : skm (set_fs st m) = skel_of <$> m.
Proof. done. Qed.

(** ** The primitives on shapes *)

Lemma wf_parent_dir st p :
  wf st → is_Some (skm st !! p) → p ≠ [] →
  ∀ e, fs st !! parent p = Some e → is_dir_entry e = true.
Proof.
  intros Hwf Hp Hne e He.
  destruct (exists_last Hne) as (q & n & ->). rewrite parent_snoc in He.
  apply Hwf in Hp. apply skm_dir in Hp as (e' & He' & Hd). congruence.
Qed.

Lemma skm_touch_parent' (now : Z) (p : path) (m : gmap path entry) :
  (p ≠ [] → ∀ e, m !! parent p = Some e → is_dir_entry e = true) →
  skel_of <$> touch_parent now p m = skel_of <$> m.
Proof.
  intros Hdir. destruct (decide (p = [])) as [->|Hne]; [done|].
  apply skm_touch_parent. by apply Hdir.
Qed.

Lemma mkdir_spec p st :
  skm st !! p = None → p ≠ [] → skm st !! parent p = Some SDir →
  ∃ st', mkdir p st = Done st'
         ∧ skm st' = <[p := SDir]> (skm st)
         ∧ same_log st st'
         ∧ fs st' !! p = Some (Entry KDir (clock st) (clock st)).
Proof.
  intros Hp Hne Hpar. unfold mkdir.
  rewrite (proj2 (path_exists_false st p) Hp).
  destruct p as [|x l]; [done|].
  apply skm_dir in Hpar as (e & He & Hd). rewrite He, Hd.
  eexists. split; [reflexivity|]. split; [|split; [apply same_log_set_fs|]].
  - rewrite skm_set_fs, fmap_insert. f_equal.
    apply skm_touch_parent. intros e' He'. congruence.
  - rewrite fs_set_fs. apply lookup_insert_eq.
Qed.

Lemma copy2_spec src dst st c m ct :
  src ≠ dst →
  skm st !! src = Some (SFile c m ct) →
  (skm st !! dst = None ∧ skm st !! parent dst = Some SDir ∧ dst ≠ [])
  ∨ (∃ c' m' ct', skm st !! dst = Some (SFile c' m' ct')) →
  ∃ st', copy2 src dst st = Done st'
         ∧ skm st' = <[dst := SFile c m (clock st)]> (skm st)
         ∧ same_log st st'.
Proof.
  intros Hne Hsrc Hdst. unfold copy2.
  assert (Hnd : isdir st dst = false).
  { apply isdir_false. destruct Hdst as [(H & _ & _) | (c' & m' & ct' & H)]; congruence. }
  rewrite Hnd. rewrite decide_False by done.
  apply skm_file in Hsrc. rewrite Hsrc.
  destruct Hdst as [(Hnone & Hpar & Hnil) | (c' & m' & ct' & Hfile)].
  - apply skm_None in Hnone. rewrite Hnone.
    apply skm_dir in Hpar as (e & He & Hd). rewrite He, Hd.
    eexists. split; [reflexivity|]. split; [|apply same_log_set_fs].
    rewrite skm_set_fs, fmap_insert. f_equal.
    apply skm_touch_parent. intros e' He'. congruence.
  - apply skm_file in Hfile. rewrite Hfile.
    eexists. split; [reflexivity|]. split; [|apply same_log_set_fs].
    by rewrite skm_set_fs, fmap_insert.
Qed.

Lemma remove_spec p st c m ct :
  wf st → skm st !! p = Some (SFile c m ct) →
  ∃ st', remove p st = Done st' ∧ skm st' = delete p (skm st) ∧ same_log st st'.
Proof.
  intros Hwf Hp. unfold remove.
  assert (Hsome : is_Some (skm st !! p)) by (by eexists).
  apply skm_file in Hp. rewrite Hp.
  eexists. split; [reflexivity|]. split; [|apply same_log_set_fs].
  rewrite skm_set_fs, fmap_delete. f_equal.
  apply skm_touch_parent'. intros Hne. by apply wf_parent_dir.
Qed.

Lemma listdir_spec st p :
  skm st !! p = Some SDir →
  ∃ names, listdir st p = Some names
           ∧ ∀ n, n ∈ names ↔ is_Some (skm st !! (p ++ [n])).
Proof.
  intros Hd. apply isdir_true in Hd.
  destruct (listdir st p) as [names|] eqn:Hls.
  - exists names. split; [done|]. intros n.
    rewrite (elem_of_listdir _ _ _ _ Hls), skm_lookup. by rewrite fmap_is_Some.
  - unfold listdir in Hls. by rewrite Hd in Hls.
Qed.

Lemma listdir_empty st p :
  skm st !! p = Some SDir → (∀ n, skm st !! (p ++ [n]) = None) → listdir st p = Some [].
Proof.
  intros Hd Hnone. apply listdir_nil; [by apply isdir_true|].
  intros n. by apply skm_None.
Qed.

Lemma rmdir_spec p st :
  wf st → skm st !! p = Some SDir → (∀ n, skm st !! (p ++ [n]) = None) →
  ∃ st', rmdir p st = Done st' ∧ skm st' = delete p (skm st) ∧ same_log st st'.
Proof.
  intros Hwf Hp Hempty. unfold rmdir. rewrite (listdir_empty _ _ Hp Hempty).
  eexists. split; [reflexivity|]. split; [|apply same_log_set_fs].
  rewrite skm_set_fs, fmap_delete. f_equal.
  apply skm_touch_parent'. intros Hne. apply wf_parent_dir; [done | by eexists | done].
Qed.

Lemma log_and_print_spec line st :
  log_writable st = true →
  ∃ st', log_and_print line st = Done st'
         ∧ fs st' = fs st ∧ clock st' = clock st ∧ log_writable st' = true
         ∧ log_lines st' = log_lines st ++ [line]
         ∧ console st' = console st ++ [line]
         ∧ date_error st' = date_error st.
Proof. intros Hw. unfold log_and_print. rewrite Hw. by eexists. Qed.

Lemma skm_fs_eq st st' : fs st' = fs st → skm st' = skm st.
Proof. unfold skm. by intros ->. Qed.

Lemma scandir_spec st top :
  skm st !! top = Some SDir →
  ∃ dirs files, scandir st top = Some (dirs, files)
    ∧ NoDup dirs ∧ NoDup files
    ∧ (∀ n, n ∈ dirs ↔ skm st !! (top ++ [n]) = Some SDir)
    ∧ (∀ n, n ∈ files ↔ ∃ c m ct, skm st !! (top ++ [n]) = Some (SFile c m ct)).
Proof.
  intros Hd. apply isdir_true in Hd.
  destruct (scandir_Some st top Hd) as (dirs & files & Hs & Hnd & Hnf & Hdirs & Hfiles).
  exists dirs, files. split; [done|]. split; [done|]. split; [done|]. split.
  - intros n. rewrite Hdirs. symmetry. apply skm_dir.
  - intros n. rewrite Hfiles. split.
    + intros ([[c|] m ct] & He & Hk); [|done]. exists c, m, ct. by apply skm_file.
    + intros (c & m & ct & He). apply skm_file in He. by eexists.
Qed.

(** [makedirs] of a missing path whose existing ancestors are directories. *)
Lemma makedirs_rev_spec rp st :
  wf st →
  skm st !! rev rp = None →
  (∀ q, q `prefix_of` rev rp → skm st !! q = None ∨ skm st !! q = Some SDir) →
  ∃ st', makedirs_rev rp st = Done st'
    ∧ wf st'
    ∧ (∀ q, q `prefix_of` rev rp → skm st' !! q = Some SDir)
    ∧ (∀ q, ¬ q `prefix_of` rev rp → skm st' !! q = skm st !! q)
    ∧ same_log st st'.
Proof.
  revert st. induction rp as [|n rhead IH]; intros st Hwf Hp Hanc.
  - simpl in *. unfold mkdir. rewrite (proj2 (path_exists_false st []) Hp).
    eexists. split; [reflexivity|]. unfold wf. rewrite skm_set_fs, fmap_insert.
    split; [|split; [|split; [|apply same_log_set_fs]]].
    + apply wfm_insert; [done | by left | by left].
    + intros q Hq. apply prefix_nil_inv in Hq as ->. apply lookup_insert_eq.
    + intros q Hq. rewrite lookup_insert_ne; [done|]. intros <-. by apply Hq.
  - cbn [makedirs_rev]. simpl in Hp, Hanc.
    assert (Hstep : ∀ s, wf s → skm s !! (rev rhead ++ [n]) = None →
              (∀ q, q `prefix_of` rev rhead → skm s !! q = Some SDir) →
              ∃ st', mkdir (rev (n :: rhead)) s = Done st'
                ∧ wf st'
                ∧ (∀ q, q `prefix_of` rev (n :: rhead) → skm st' !! q = Some SDir)
                ∧ (∀ q, ¬ q `prefix_of` rev (n :: rhead) → skm st' !! q = skm s !! q)
                ∧ same_log s st').
    { intros s Hwfs Hnone Hdirs. simpl.
      destruct (mkdir_spec (rev rhead ++ [n]) s) as (st' & -> & Hskm & Hlog & _).
      - done.
      - by destruct (rev rhead).
      - rewrite parent_snoc. by apply Hdirs.
      - exists st'. split; [done|]. unfold wf. rewrite Hskm.
        split; [|split; [|split; [|done]]].
        + apply wfm_insert; [done | | by left].
          right. rewrite parent_snoc. by apply Hdirs.
        + intros q Hq. destruct (decide (q = rev rhead ++ [n])) as [->|Hne].
          * apply lookup_insert_eq.
          * rewrite lookup_insert_ne by done. apply Hdirs.
            destruct Hq as [k Hk].
            destruct (exists_last (l := k)) as (k' & x & ->).
            { intros ->. rewrite app_nil_r in Hk. done. }
            rewrite (assoc_L (++)) in Hk. apply app_inj_tail in Hk as [-> _].
            by exists k'.
        + intros q Hq. rewrite lookup_insert_ne; [done|]. intros <-. by apply Hq. }
    destruct (path_exists st (rev rhead)) eqn:Hex.
    + cbn [bind]. apply Hstep; [done | done |].
      apply path_exists_true in Hex.
      assert (Hd : skm st !! rev rhead = Some SDir).
      { destruct (Hanc (rev rhead)) as [H | H]; [by apply prefix_app_r | | done].
        rewrite H in Hex. by destruct Hex. }
      intros q [k Hqk]. rewrite Hqk in Hd.
      destruct (decide (k = [])) as [->|Hk]; [by rewrite app_nil_r in Hd|].
      apply (wfm_prefix_dir _ q k); [done | by rewrite Hd | done].
    + apply path_exists_false in Hex.
      destruct (IH st Hwf Hex) as (s & -> & Hwfs & Hdirs & Hframe & Hlog).
      { intros q Hq. apply Hanc. by apply prefix_app_r. }
      cbn [bind].
      destruct (Hstep s Hwfs) as (st' & -> & Hwf' & Hdirs' & Hframe' & Hlog'); [|done|].
      { rewrite Hframe; [done|]. intros [k Hk]. apply (f_equal length) in Hk.
        rewrite !length_app in Hk. simpl in Hk. lia. }
      exists st'. split; [done|]. split; [done|]. split; [done|]. split.
      * intros q Hq. rewrite Hframe', Hframe; [done| |done].
        intros Hq'. apply Hq. simpl. by apply prefix_app_r.
      * destruct Hlog as (? & ? & ? & ?), Hlog' as (? & ? & ? & ?). repeat split; congruence.
Qed.

Lemma makedirs_spec p st :
  wf st →
  skm st !! p = None →
  (∀ q, q `prefix_of` p → skm st !! q = None ∨ skm st !! q = Some SDir) →
  ∃ st', makedirs p st = Done st'
    ∧ wf st'
    ∧ (∀ q, q `prefix_of` p → skm st' !! q = Some SDir)
    ∧ (∀ q, ¬ q `prefix_of` p → skm st' !! q = skm st !! q)
    ∧ same_log st st'.
Proof.
  intros Hwf Hp Hanc. unfold makedirs.
  destruct (makedirs_rev_spec (rev p) st) as (st' & H); rewrite ?rev_involutive; try done.
  rewrite rev_involutive in H. by exists st'.
Qed.

Lemma makedirs_child p d st :
  skm st !! p = Some SDir → skm st !! (p ++ [d]) = None →
  ∃ st', makedirs (p ++ [d]) st = Done st'
         ∧ skm st' = <[p ++ [d] := SDir]> (skm st)
         ∧ same_log st st'
         ∧ fs st' !! (p ++ [d]) = Some (Entry KDir (clock st) (clock st)).
Proof.
  intros Hp Hd. unfold makedirs. rewrite rev_unit. cbn [makedirs_rev].
  rewrite rev_involutive. rewrite (proj2 (path_exists_true st p)) by (by eexists).
  cbn [bind]. replace (rev (d :: rev p)) with (p ++ [d]) by (simpl; by rewrite rev_involutive).
  apply mkdir_spec; [done | by destruct p | by rewrite parent_snoc].
Qed.

(** ** Loops that run to the end *)

(** A loop whose body returns on every element, with an invariant that knows
    which elements have been handled. *)
Lemma for_each_inv {A} (xs : list A) (body : A → state → result)
    (Inv : list A → state → Prop) (st : state) :
  Inv [] st →
  (∀ before x after s, xs = before ++ x :: after → Inv before s →
     ∃ s', body x s = Done s' ∧ Inv (before ++ [x]) s') →
  ∃ s', for_each xs body st = Done s' ∧ Inv xs s'.
Proof.
  intros Hst Hbody.
  assert (Hgen : ∀ after before s, xs = before ++ after → Inv before s →
            ∃ s', for_each after body s = Done s' ∧ Inv xs s').
  { induction after as [|x after IH]; intros before s Hxs Hs.
    - rewrite app_nil_r in Hxs. subst before. by exists s.
    - destruct (Hbody before x after s Hxs Hs) as (s1 & Hx & Hs1).
      cbn [for_each]. rewrite Hx. cbn [bind].
      apply (IH (before ++ [x])); [|done]. by rewrite <- (assoc_L (++)). }
  by apply (Hgen xs []).
Qed.

(** A loop whose body, on every element, returns without changing anything. *)
Lemma for_each_skip {A} (xs : list A) (body : A → state → result) (st : state) :
  (∀ x, x ∈ xs → body x st = Done st) → for_each xs body st = Done st.
Proof.
  induction xs as [|x xs IH]; intros Hbody; [done|].
  cbn [for_each]. rewrite Hbody by left. cbn [bind].
  apply IH. intros y Hy. apply Hbody. by right.
Qed.

Lemma NoDup_app_cons_not_in {A} (before after : list A) (x : A) :
  NoDup (before ++ x :: after) → x ∉ before.
Proof.
  intros Hnd Hin. apply NoDup_app in Hnd as (_ & Hdisj & _).
  apply (Hdisj x Hin). left.
Qed.

(** ** What pruning leaves *)

Lemma pruned_refl st : pruned (fun _ => False) st st.
Proof. split; [by left | done | done]. Qed.

Lemma pruned_change (gone gone' : path → Prop) st s :
  pruned gone st s →
  (∀ q, gone q → gone' q) →
  (∀ q, gone' q → is_Some (skm st !! q) → gone q) →
  pruned gone' st s.
Proof.
  intros [Hmono Hkept Hgone] Hsub Hsup. split.
  - done.
  - intros q Hq. destruct (Hmono q) as [H | H]; [done|].
    destruct (skm st !! q) as [x|] eqn:Hst; [|done].
    rewrite <- Hst. apply Hkept. intros Hg. by apply Hq, Hsub.
  - intros q Hq. destruct (Hmono q) as [H | H]; [|done].
    destruct (skm st !! q) as [x|] eqn:Hst; [|done].
    apply Hgone, Hsup; [done|]. by rewrite Hst.
Qed.

Lemma pruned_iff (gone gone' : path → Prop) st s :
  pruned gone st s → (∀ q, gone q ↔ gone' q) → pruned gone' st s.
Proof.
  intros H Hiff. apply (pruned_change gone); [done | |].
  - intros q. apply Hiff.
  - intros q Hq _. by apply Hiff.
Qed.

Lemma pruned_trans (gone1 gone2 : path → Prop) st s1 s2 :
  pruned gone1 st s1 → pruned gone2 s1 s2 →
  pruned (fun q => gone1 q ∨ gone2 q) st s2.
Proof.
  intros [Hm1 Hk1 Hg1] [Hm2 Hk2 Hg2]. split.
  - intros q. destruct (Hm2 q) as [-> | ->]; [apply Hm1 | by right].
  - intros q Hq. rewrite Hk2, Hk1; tauto.
  - intros q [Hq | Hq].
    + destruct (Hm2 q) as [H | H]; [|done]. rewrite H. by apply Hg1.
    + by apply Hg2.
Qed.

Lemma pruned_delete (gone : path → Prop) st s s' p :
  pruned gone st s → skm s' = delete p (skm s) →
  pruned (fun q => gone q ∨ q = p) st s'.
Proof.
  intros [Hm Hk Hg] Hs'. split.
  - intros q. rewrite Hs'. destruct (decide (p = q)) as [<-|Hne].
    + right. apply lookup_delete_eq.
    + rewrite lookup_delete_ne by done. apply Hm.
  - intros q Hq. rewrite Hs', lookup_delete_ne; [apply Hk; tauto|].
    intros <-. apply Hq. by right.
  - intros q [Hq | ->]; rewrite Hs'.
    + destruct (decide (p = q)) as [<-|Hne]; [apply lookup_delete_eq|].
      rewrite lookup_delete_ne by done. by apply Hg.
    + apply lookup_delete_eq.
Qed.

Lemma pruned_same_shape (gone : path → Prop) st s s' :
  pruned gone st s → skm s' = skm s → pruned gone st s'.
Proof. intros [Hm Hk Hg] Hs'. split; intros q; rewrite Hs'; auto. Qed.

Lemma separate_paths (src rep a b : path) : separate src rep → src ++ a ≠ rep ++ b.
Proof.
  intros [H1 H2] Heq.
  destruct (prefix_weak_total src rep (src ++ a)) as [H | H]; [| |done..].
  - by apply prefix_app_r.
  - rewrite Heq. by apply prefix_app_r.
Qed.

(** ** What the pruner logs *)

Lemma children_first_app ks1 ks2 :
  children_first ks1 → children_first ks2 →
  (∀ a b, b ∈ ks1 → a ∈ ks2 → ¬ below a b) →
  children_first (ks1 ++ ks2).
Proof.
  induction ks1 as [|b ks1 IH]; intros H1 H2 Hcross; [done|].
  destruct H1 as [Hb H1]. split.
  - intros a Ha. apply elem_of_app in Ha as [Ha | Ha]; [by apply Hb|].
    apply Hcross; [left | done].
  - apply IH; [done | done |]. intros a b' Hb' Ha. apply Hcross; [by right | done].
Qed.

Lemma children_first_split ks l b l3 :
  children_first ks → ks = l ++ b :: l3 → ∀ a, a ∈ l3 → ¬ below a b.
Proof.
  revert ks. induction l as [|c l IH]; intros ks Hcf -> a Ha.
  - by apply (proj1 Hcf).
  - apply (IH (l ++ b :: l3)); [apply Hcf | done | done].
Qed.

Lemma children_first_order ks a b :
  children_first ks → a ∈ ks → b ∈ ks → below a b →
  ∃ l1 l2 l3, ks = l1 ++ a :: l2 ++ b :: l3.
Proof.
  intros Hcf Ha Hb Hab.
  apply list_elem_of_split in Hb as (l & l3 & ->).
  assert (Hne : a ≠ b).
  { intros ->. destruct Hab as (k & Hk & Hab). rewrite <- (app_nil_r b) in Hab at 1.
    apply app_inv_head in Hab. by subst k. }
  apply elem_of_app in Ha as [Ha | Ha].
  - apply list_elem_of_split in Ha as (l1 & l2 & ->).
    exists l1, l2, l3. by rewrite <- (assoc_L (++)).
  - apply elem_of_cons in Ha as [Ha | Ha]; [done|].
    exfalso. by apply (children_first_split _ l b l3 Hcf eq_refl a).
Qed.

Section pruner_log.
Variables src rep : path.
Local Abbreviation deleted_line := (deleted_line src rep).
Local Abbreviation line_for := (line_for src rep).
Local Abbreviation logged := (logged src rep).

Lemma logged_refl st : logged (fun _ => False) st st.
Proof.
  exists [], []. rewrite !app_nil_r.
  split; [done|]. split; [done|]. split; [constructor|]. split; [constructor|].
  split; [done|]. intros k. split; [by intros ?%elem_of_nil | by intros [? _]].
Qed.

Lemma logged_change (gone gone' : path → Prop) st s :
  logged gone st s →
  (∀ q, gone q → gone' q) →
  (∀ q, gone' q → is_Some (skm st !! q) → gone q) →
  logged gone' st s.
Proof.
  intros (ks & new & Hl & Hc & Hf & Hnd & Hcf & Hin) Hsub Hsup.
  exists ks, new. repeat (split; [done|]).
  intros k. rewrite Hin. split; intros [Hg He]; (split; [|done]); eauto.
Qed.

Lemma logged_iff (gone gone' : path → Prop) st s :
  logged gone st s → (∀ q, gone q ↔ gone' q) → logged gone' st s.
Proof.
  intros H Hiff. apply (logged_change gone); [done | |].
  - intros q. apply Hiff.
  - intros q Hq _. by apply Hiff.
Qed.

Lemma Forall2_impl_elem {A B} (P Q : A → B → Prop) l1 l2 :
  Forall2 P l1 l2 → (∀ x y, x ∈ l1 → P x y → Q x y) → Forall2 Q l1 l2.
Proof.
  induction 1 as [|x y l1 l2 Hxy _ IH]; intros HPQ; constructor.
  - apply HPQ; [left | done].
  - apply IH. intros x' y' Hx'. apply HPQ. by right.
Qed.

Lemma logged_trans (gone1 gone2 : path → Prop) st s1 s2 :
  logged gone1 st s1 → logged gone2 s1 s2 →
  (∀ q, gone2 q → skm s1 !! q = skm st !! q) →
  (∀ q, gone1 q → gone2 q → False) →
  (∀ a b, gone1 (rep ++ b) → gone2 (rep ++ a) → ¬ below a b) →
  logged (fun q => gone1 q ∨ gone2 q) st s2.
Proof.
  intros (ks1 & new1 & Hl1 & Hc1 & Hf1 & Hnd1 & Hcf1 & Hin1)
         (ks2 & new2 & Hl2 & Hc2 & Hf2 & Hnd2 & Hcf2 & Hin2) Hsame Hdisj Hcross.
  exists (ks1 ++ ks2), (new1 ++ new2).
  split; [by rewrite Hl2, Hl1, (assoc_L (++))|].
  split; [by rewrite Hc2, Hc1, (assoc_L (++))|].
  split; [|split; [|split]].
  - apply Forall2_app; [done|].
    eapply Forall2_impl_elem; [exact Hf2|].
    intros k ev Hk (x & Hx & Hline). exists x. split; [|done].
    rewrite <- Hsame; [done|]. by apply Hin2.
  - apply NoDup_app. split; [done|]. split; [|done].
    intros k Hk1 Hk2. apply Hin1 in Hk1 as [Hk1 _]. apply Hin2 in Hk2 as [Hk2 _].
    by apply (Hdisj (rep ++ k)).
  - apply children_first_app; [done | done |].
    intros a b Hb Ha. apply Hin1 in Hb as [Hb _]. apply Hin2 in Ha as [Ha _].
    by apply Hcross.
  - intros k. rewrite elem_of_app, Hin1, Hin2. split.
    + intros [[Hg He] | [Hg He]].
      * split; [by left | done].
      * split; [by right|]. by rewrite <- Hsame.
    + intros [[Hg | Hg] He].
      * left. done.
      * right. split; [done|]. by rewrite Hsame.
Qed.

Lemma logged_delete (gone : path → Prop) st s s' k x ev :
  logged gone st s →
  log_lines s' = log_lines s ++ [ev] →
  console s' = console s ++ [ev] →
  skm st !! (rep ++ k) = Some x →
  deleted_line x k ev →
  ¬ gone (rep ++ k) →
  (∀ b, gone (rep ++ b) → ¬ below k b) →
  logged (fun q => gone q ∨ q = rep ++ k) st s'.
Proof.
  intros (ks & new & Hl & Hc & Hf & Hnd & Hcf & Hin) Hl' Hc' Hx Hline Hfresh Hcross.
  exists (ks ++ [k]), (new ++ [ev]).
  split; [by rewrite Hl', Hl, (assoc_L (++))|].
  split; [by rewrite Hc', Hc, (assoc_L (++))|].
  split; [|split; [|split]].
  - apply Forall2_app; [done|]. constructor; [by exists x | constructor].
  - apply NoDup_app. split; [done|]. split; [|apply NoDup_singleton].
    intros k' Hk' ->%list_elem_of_singleton. apply Hfresh. by apply Hin.
  - apply children_first_app; [done | by split; [intros ? ?%elem_of_nil|] |].
    intros a b Hb ->%list_elem_of_singleton. apply Hcross. by apply Hin.
  - intros k'. rewrite elem_of_app, Hin, list_elem_of_singleton. split.
    + intros [[Hg He] | ->]; [split; [by left | done]|].
      split; [by right | by rewrite Hx].
    + intros [[Hg | Hg] He]; [by left|].
      right. by apply app_inv_head in Hg.
Qed.
End pruner_log.

(** ** The pruner *)

Section pruner.
Variables src rep : path.
Hypothesis Hsep : separate src rep.
Variable m0 : gmap path skel.
Local Abbreviation agrees := (agrees src m0).
Local Abbreviation doomed := (doomed src rep m0).

Lemma pruned_agrees (gone : path → Prop) st s :
  (∀ q, gone q → ∃ b, q = rep ++ b) → pruned gone st s → agrees st → agrees s.
Proof.
  intros Hunder Hpr Hst x. rewrite <- Hst. apply (pruned_kept _ _ _ Hpr).
  intros Hg. apply Hunder in Hg as (b & Hb). by apply (separate_paths src rep x b).
Qed.

Lemma agrees_None_below st p k :
  wf st → agrees st → m0 !! (src ++ p) = None → k ≠ [] → m0 !! (src ++ (p ++ k)) = None.
Proof.
  intros Hwf Hag Hp Hk. rewrite <- Hag in *. rewrite (assoc_L (++)).
  by apply wfm_None_below.
Qed.

Lemma remove_file_step r f s c m ct :
  wf s → log_writable s = true → agrees s →
  skm s !! (rep ++ (r ++ [f])) = Some (SFile c m ct) →
  ∃ s', remove_file (src ++ r) (rep ++ r) f s = Done s'
        ∧ wf s' ∧ log_writable s' = true
        ∧ ((m0 !! (src ++ (r ++ [f])) = None
            ∧ skm s' = delete (rep ++ (r ++ [f])) (skm s)
            ∧ ∃ t, log_lines s' = log_lines s
                     ++ [Event NFile (src ++ (r ++ [f])) Deleted t]
                   ∧ console s' = console s
                     ++ [Event NFile (src ++ (r ++ [f])) Deleted t])
           ∨ (is_Some (m0 !! (src ++ (r ++ [f]))) ∧ s' = s)).
Proof.
  intros Hwf Hw Hag Hf. unfold remove_file.
  rewrite <- !(assoc_L (++)).
  destruct (m0 !! (src ++ (r ++ [f]))) as [x|] eqn:Hsrc.
  - rewrite (proj2 (path_exists_true s (src ++ r ++ [f]))).
    + exists s. cbn [negb]. split; [done|]. split; [done|]. split; [done|]. right. eauto.
    + rewrite Hag, Hsrc. by eexists.
  - rewrite (proj2 (path_exists_false s (src ++ r ++ [f]))) by (by rewrite Hag).
    cbn [negb].
    destruct (remove_spec (rep ++ r ++ [f]) s c m ct Hwf Hf)
      as (s1 & -> & Hs1 & Hl1 & Hll1 & Hlc1 & _).
    cbn [bind].
    destruct (log_and_print_spec (Event NFile (src ++ r ++ [f]) Deleted (clock s1)) s1)
      as (s2 & -> & Hfs & _ & Hw2 & Hlog2 & Hcon2 & _); [congruence|].
    exists s2. split; [done|].
    apply skm_fs_eq in Hfs. unfold wf. rewrite Hfs, Hs1.
    split; [|split; [done|]].
    + apply wfm_delete; [done|]. intros n.
      apply wfm_not_dir_below; [done | by rewrite Hf | done].
    + left. split; [done|]. split; [done|]. exists (clock s1).
      by rewrite Hlog2, Hcon2, Hll1, Hlc1.
Qed.

Lemma remove_dir_step r d s :
  wf s → log_writable s = true → agrees s →
  skm s !! (rep ++ (r ++ [d])) = Some SDir →
  (m0 !! (src ++ (r ++ [d])) = None →
     ∀ n, skm s !! (rep ++ ((r ++ [d]) ++ [n])) = None) →
  ∃ s', remove_dir (src ++ r) (rep ++ r) d s = Done s'
        ∧ wf s' ∧ log_writable s' = true
        ∧ ((m0 !! (src ++ (r ++ [d])) = None
            ∧ skm s' = delete (rep ++ (r ++ [d])) (skm s)
            ∧ ∃ t, log_lines s' = log_lines s
                     ++ [Event NFolder (rep ++ (r ++ [d])) Deleted t]
                   ∧ console s' = console s
                     ++ [Event NFolder (rep ++ (r ++ [d])) Deleted t])
           ∨ (is_Some (m0 !! (src ++ (r ++ [d]))) ∧ s' = s)).
Proof.
  intros Hwf Hw Hag Hd Hempty. unfold remove_dir.
  rewrite <- !(assoc_L (++)).
  destruct (listdir_spec s (rep ++ r ++ [d]) Hd) as (names & -> & Hnames).
  destruct (m0 !! (src ++ (r ++ [d]))) as [x|] eqn:Hsrc.
  - rewrite (proj2 (path_exists_true s (src ++ r ++ [d]))).
    + exists s. cbn [negb]. rewrite andb_false_r.
      split; [done|]. split; [done|]. split; [done|]. right. eauto.
    + rewrite Hag, Hsrc. by eexists.
  - rewrite (proj2 (path_exists_false s (src ++ r ++ [d]))) by (by rewrite Hag).
    cbn [negb]. rewrite andb_true_r.
    assert (Hnone : ∀ n, skm s !! ((rep ++ r ++ [d]) ++ [n]) = None).
    { intros n. rewrite <- !(assoc_L (++)). specialize (Hempty eq_refl n).
      by rewrite <- !(assoc_L (++)) in Hempty. }
    assert (names = []) as ->.
    { apply empty_list. intros n Hn. apply Hnames in Hn.
      rewrite Hnone in Hn. by destruct Hn. }
    rewrite bool_decide_eq_true_2 by done.
    destruct (rmdir_spec (rep ++ r ++ [d]) s Hwf Hd Hnone)
      as (s1 & -> & Hs1 & Hl1 & Hll1 & Hlc1 & _).
    cbn [bind].
    destruct (log_and_print_spec (Event NFolder (rep ++ r ++ [d]) Deleted (clock s1)) s1)
      as (s2 & -> & Hfs & _ & Hw2 & Hlog2 & Hcon2 & _); [congruence|].
    exists s2. split; [done|].
    apply skm_fs_eq in Hfs. unfold wf. rewrite Hfs, Hs1.
    split; [|split; [done|]].
    + by apply wfm_delete.
    + left. split; [done|]. split; [done|]. exists (clock s1).
      by rewrite Hlog2, Hcon2, Hll1, Hlc1.
Qed.

Lemma child_not_below (r k : path) (a b : string) :
  k ≠ [] → rep ++ (r ++ [a]) ≠ rep ++ ((r ++ [b]) ++ k).
Proof.
  intros Hk H. apply (f_equal length) in H. rewrite !length_app in H. simpl in H.
  destruct k; [done|]. simpl in H. lia.
Qed.

Lemma child_inj (p r : path) (a b : string) : p ++ (r ++ [a]) = p ++ (r ++ [b]) → a = b.
Proof. intros H. apply app_inv_head in H. by apply snoc_inj2 in H. Qed.

Lemma sibling_inj (r k k' : path) (a b : string) :
  (r ++ [a]) ++ k = (r ++ [b]) ++ k' → a = b.
Proof.
  rewrite <- !(assoc_L (++)). intros H. apply app_inv_head in H. by injection H.
Qed.

Lemma not_below_child (r : path) (a : string) (b : path) :
  (length r < length b)%nat → ¬ below (r ++ [a]) b.
Proof.
  intros Hlen (j & Hj & H). apply (f_equal length) in H.
  rewrite !length_app in H. simpl in H. destruct j; [done|]. simpl in H. lia.
Qed.

(** The walk of the pruner from [rep ++ r]: it returns, what it leaves is
    what was there minus the paths below [rep ++ r] that have no counterpart
    in the source, and it has logged one line for each path it took away. *)
Lemma remove_walk_spec (fuel : nat) : ∀ r st,
  wf st → log_writable st = true → agrees st →
  skm st !! (rep ++ r) = Some SDir →
  (∀ k, is_Some (skm st !! (rep ++ (r ++ k))) → (length k < fuel)%nat) →
  ∃ st', remove_walk fuel src rep (rep ++ r) st = Done st'
         ∧ wf st' ∧ log_writable st' = true
         ∧ pruned (doomed r) st st'
         ∧ logged src rep (doomed r) st st'.
Proof.
  induction fuel as [|fuel IH]; intros r st Hwf Hw Hag Hd Hdepth.
  { specialize (Hdepth []). rewrite app_nil_r, Hd in Hdepth.
    assert (length (@nil string) < 0)%nat by (apply Hdepth; by eexists). simpl in *. lia. }
  cbn [remove_walk].
  destruct (scandir_spec st (rep ++ r) Hd)
    as (dirs & files & -> & Hnd & Hnf & Hdirs & Hfiles).
  assert (Hdoomed_rep : ∀ r' q, doomed r' q → ∃ b, q = rep ++ b).
  { intros r' q (k & _ & -> & _). by eexists. }
  (* the sub-directories are walked first *)
  set (gone1 := fun (seen : list string) (q : path) =>
                  ∃ d, d ∈ seen ∧ doomed (r ++ [d]) q).
  assert (Hgone1_len : ∀ seen b, gone1 seen (rep ++ b) → (length r + 1 < length b)%nat).
  { intros seen b (d & _ & k & Hk & Hq & _). apply app_inv_head in Hq as ->.
    rewrite !length_app. simpl. destruct k; [done|]. simpl. lia. }
  destruct (for_each_inv dirs (fun d => remove_walk fuel src rep ((rep ++ r) ++ [d]))
              (fun seen s => wf s ∧ log_writable s = true
                             ∧ pruned (gone1 seen) st s
                             ∧ logged src rep (gone1 seen) st s) st)
    as (s1 & -> & Hwf1 & Hw1 & Hpr1 & Hlg1).
  { split; [done|]. split; [done|].
    assert (Hiff : ∀ q, False ↔ gone1 [] q).
    { intros q. split; [done|]. intros (d & Hin & _). by apply elem_of_nil in Hin. }
    split.
    - eapply pruned_iff; [apply pruned_refl | exact Hiff].
    - eapply logged_iff; [apply logged_refl | exact Hiff]. }
  { intros before d after s Hxs (Hwfs & Hws & Hprs & Hlgs).
    assert (Hdin : d ∈ dirs) by (rewrite Hxs; apply elem_of_app; right; left).
    assert (Hdnot : d ∉ before) by (rewrite Hxs in Hnd; by eapply NoDup_app_cons_not_in).
    rewrite <- (assoc_L (++)).
    assert (Hfresh : ∀ q, doomed (r ++ [d]) q → ¬ gone1 before q).
    { intros q (k & _ & Hq & _) (d' & Hin' & k' & _ & Hq' & _).
      rewrite Hq in Hq'. apply app_inv_head in Hq'. apply sibling_inj in Hq' as ->. done. }
    destruct (IH (r ++ [d]) s) as (s' & -> & Hwf' & Hw' & Hpr' & Hlg'); [done | done | | | |].
    - eapply pruned_agrees; [|exact Hprs|done].
      intros q (d' & _ & Hq). by eapply Hdoomed_rep.
    - rewrite (pruned_kept _ _ _ Hprs).
      + rewrite (assoc_L (++)). by apply Hdirs.
      + intros (d' & _ & k & Hk & Hq & _). by apply child_not_below in Hq.
    - intros k Hk. assert (length ([d] ++ k) < S fuel)%nat as Hlen; [|simpl in Hlen; lia].
      apply Hdepth. rewrite (assoc_L (++) r).
      destruct (pruned_mono _ _ _ Hprs (rep ++ (r ++ [d]) ++ k)) as [H | H].
      + by rewrite <- H.
      + rewrite H in Hk. by destruct Hk.
    - exists s'. split; [done|]. split; [done|]. split; [done|].
      assert (Hiff : ∀ q, gone1 before q ∨ doomed (r ++ [d]) q ↔ gone1 (before ++ [d]) q).
      { intros q. unfold gone1. split.
        - intros [(d' & Hd' & Hq) | Hq].
          + exists d'. split; [apply elem_of_app; by left | done].
          + exists d. split; [apply elem_of_app; right; left | done].
        - intros (d' & Hd' & Hq). apply elem_of_app in Hd' as [Hd' | Hd'].
          + left. by exists d'.
          + apply list_elem_of_singleton in Hd' as ->. by right. }
      split.
      + eapply pruned_iff; [eapply pruned_trans; [exact Hprs | exact Hpr'] | exact Hiff].
      + eapply logged_iff; [eapply logged_trans; [exact Hlgs | exact Hlg' | | |] | exact Hiff].
        * intros q Hq. apply (pruned_kept _ _ _ Hprs). by apply Hfresh.
        * intros q Hq1 Hq2. by apply (Hfresh q).
        * intros a b (d' & Hin' & kb & _ & Hb & _) (ka & _ & Ha & _) (j & _ & Hj).
          apply app_inv_head in Hb, Ha. subst a b.
          rewrite <- !(assoc_L (++)) in Hj. apply app_inv_head in Hj.
          simpl in Hj. injection Hj as -> _. done. }
  cbn [bind]. unfold remove_visit, relpath. rewrite drop_app_length.
  assert (Hag1 : agrees s1).
  { eapply pruned_agrees; [|exact Hpr1|done].
    intros q (d' & _ & Hq). by eapply Hdoomed_rep. }
  (* then the files of the directory *)
  set (gone2 := fun (seen : list string) (q : path) =>
                  ∃ f, f ∈ seen ∧ q = rep ++ (r ++ [f]) ∧ m0 !! (src ++ (r ++ [f])) = None).
  assert (Hgone2_len : ∀ seen b, gone2 seen (rep ++ b) → (length r < length b)%nat).
  { intros seen b (f & _ & Hq & _). apply app_inv_head in Hq as ->.
    rewrite !length_app. simpl. lia. }
  destruct (for_each_inv files (remove_file (src ++ r) (rep ++ r))
              (fun seen s => wf s ∧ log_writable s = true
                             ∧ pruned (fun q => gone1 dirs q ∨ gone2 seen q) st s
                             ∧ logged src rep (fun q => gone1 dirs q ∨ gone2 seen q) st s) s1)
    as (s2 & -> & Hwf2 & Hw2 & Hpr2 & Hlg2).
  { split; [done|]. split; [done|].
    assert (Hiff : ∀ q, gone1 dirs q ↔ gone1 dirs q ∨ gone2 [] q).
    { intros q. split; [by left|]. intros [H | (f & Hin & _)]; [done|].
      by apply elem_of_nil in Hin. }
    split.
    - eapply pruned_iff; [exact Hpr1 | exact Hiff].
    - eapply logged_iff; [exact Hlg1 | exact Hiff]. }
  { intros before f after s Hxs (Hwfs & Hws & Hprs & Hlgs).
    assert (Hfin : f ∈ files) by (rewrite Hxs; apply elem_of_app; right; left).
    assert (Hfnot : f ∉ before) by (rewrite Hxs in Hnf; by eapply NoDup_app_cons_not_in).
    apply Hfiles in Hfin as (c & m & ct & Hf). rewrite <- (assoc_L (++)) in Hf.
    assert (Hags : agrees s).
    { eapply pruned_agrees; [|exact Hprs|done].
      intros q [(d' & _ & Hq) | (f' & _ & -> & _)]; [by eapply Hdoomed_rep | by eexists]. }
    assert (Hfresh : ¬ (gone1 dirs (rep ++ (r ++ [f])) ∨ gone2 before (rep ++ (r ++ [f])))).
    { intros [(d' & _ & k & Hk & Hq & _) | (f' & Hin' & Hq & _)].
      - by apply child_not_below in Hq.
      - apply child_inj in Hq as ->. done. }
    destruct (remove_file_step r f s c m ct Hwfs Hws Hags)
      as (s' & -> & Hwf' & Hw' & Hcase).
    { by rewrite (pruned_kept _ _ _ Hprs). }
    exists s'. split; [done|]. split; [done|]. split; [done|].
    destruct Hcase as [(Hnone & Hs' & t & Hlog' & Hcon') | (Hsome & ->)].
    - assert (Hiff : ∀ q, (gone1 dirs q ∨ gone2 before q) ∨ q = rep ++ (r ++ [f])
                          ↔ gone1 dirs q ∨ gone2 (before ++ [f]) q).
      { intros q. unfold gone2. split.
        - intros [[H | (f' & Hin' & Hq)] | ->].
          + by left.
          + right. exists f'. split; [apply elem_of_app; by left | done].
          + right. exists f. split; [apply elem_of_app; right; left | done].
        - intros [H | (f' & Hin' & Hq & Hn)]; [by left; left|].
          apply elem_of_app in Hin' as [Hin' | Hin'].
          + left. right. by exists f'.
          + apply list_elem_of_singleton in Hin' as ->. by right. }
      split.
      + eapply pruned_iff; [eapply pruned_delete; [exact Hprs | exact Hs'] | exact Hiff].
      + eapply logged_iff; [|exact Hiff].
        eapply (logged_delete _ _ _ _ _ _ (r ++ [f]) (SFile c m ct));
          [exact Hlgs | exact Hlog' | exact Hcon' | exact Hf | done | exact Hfresh |].
        intros b Hb. apply not_below_child.
        destruct Hb as [Hb | Hb]; [apply Hgone1_len in Hb; lia | by apply Hgone2_len in Hb].
    - assert (Hiff : ∀ q, gone1 dirs q ∨ gone2 before q
                          ↔ gone1 dirs q ∨ gone2 (before ++ [f]) q).
      { intros q. unfold gone2. split.
        - intros [H | (f' & Hin' & Hq)]; [by left|].
          right. exists f'. split; [apply elem_of_app; by left | done].
        - intros [H | (f' & Hin' & Hq & Hn)]; [by left|].
          apply elem_of_app in Hin' as [Hin' | Hin'].
          + right. by exists f'.
          + apply list_elem_of_singleton in Hin' as ->.
            rewrite Hn in Hsome. by destruct Hsome. }
      split.
      + eapply pruned_iff; [exact Hprs | exact Hiff].
      + eapply logged_iff; [exact Hlgs | exact Hiff]. }
  cbn [bind].
  (* and last the sub-directories themselves *)
  set (gone3 := fun (seen : list string) (q : path) =>
                  ∃ d, d ∈ seen ∧ q = rep ++ (r ++ [d]) ∧ m0 !! (src ++ (r ++ [d])) = None).
  assert (Hgone3_len : ∀ seen b, gone3 seen (rep ++ b) → (length r < length b)%nat).
  { intros seen b (f & _ & Hq & _). apply app_inv_head in Hq as ->.
    rewrite !length_app. simpl. lia. }
  destruct (for_each_inv dirs (remove_dir (src ++ r) (rep ++ r))
              (fun seen s => wf s ∧ log_writable s = true
                 ∧ pruned (fun q => (gone1 dirs q ∨ gone2 files q) ∨ gone3 seen q) st s
                 ∧ logged src rep (fun q => (gone1 dirs q ∨ gone2 files q) ∨ gone3 seen q) st s)
              s2)
    as (s3 & -> & Hwf3 & Hw3 & Hpr3 & Hlg3).
  { split; [done|]. split; [done|].
    assert (Hiff : ∀ q, gone1 dirs q ∨ gone2 files q
                        ↔ (gone1 dirs q ∨ gone2 files q) ∨ gone3 [] q).
    { intros q. split; [by left|]. intros [H | (f & Hin & _)]; [done|].
      by apply elem_of_nil in Hin. }
    split.
    - eapply pruned_iff; [exact Hpr2 | exact Hiff].
    - eapply logged_iff; [exact Hlg2 | exact Hiff]. }
  { intros before d after s Hxs (Hwfs & Hws & Hprs & Hlgs).
    assert (Hdin : d ∈ dirs) by (rewrite Hxs; apply elem_of_app; right; left).
    assert (Hdnot : d ∉ before) by (rewrite Hxs in Hnd; by eapply NoDup_app_cons_not_in).
    pose proof (proj1 (Hdirs d) Hdin) as Hdd. rewrite <- (assoc_L (++)) in Hdd.
    assert (Hags : agrees s).
    { eapply pruned_agrees; [|exact Hprs|done].
      intros q [[(d' & _ & Hq) | (f' & _ & -> & _)] | (d' & _ & -> & _)];
        [by eapply Hdoomed_rep | by eexists | by eexists]. }
    assert (Hfresh : ¬ ((gone1 dirs (rep ++ (r ++ [d])) ∨ gone2 files (rep ++ (r ++ [d])))
                        ∨ gone3 before (rep ++ (r ++ [d])))).
    { intros [[(d' & _ & k & Hk & Hq & _) | (f' & Hin' & Hq & _)] | (d' & Hin' & Hq & _)].
      - by apply child_not_below in Hq.
      - apply child_inj in Hq as <-. apply Hfiles in Hin' as (c & m & ct & Hf).
        rewrite <- (assoc_L (++)) in Hf. congruence.
      - apply child_inj in Hq as ->. done. }
    destruct (remove_dir_step r d s Hwfs Hws Hags) as (s' & -> & Hwf' & Hw' & Hcase).
    { by rewrite (pruned_kept _ _ _ Hprs). }
    { intros Hnone n. apply (pruned_gone _ _ _ Hprs). left. left.
      exists d. split; [done|]. exists [n]. split; [done|]. split; [done|].
      by apply (agrees_None_below st). }
    exists s'. split; [done|]. split; [done|]. split; [done|].
    destruct Hcase as [(Hnone & Hs' & t & Hlog' & Hcon') | (Hsome & ->)].
    - assert (Hiff : ∀ q, ((gone1 dirs q ∨ gone2 files q) ∨ gone3 before q)
                            ∨ q = rep ++ (r ++ [d])
                          ↔ (gone1 dirs q ∨ gone2 files q) ∨ gone3 (before ++ [d]) q).
      { intros q. unfold gone3. split.
        - intros [[H | (d' & Hin' & Hq)] | ->].
          + by left.
          + right. exists d'. split; [apply elem_of_app; by left | done].
          + right. exists d. split; [apply elem_of_app; right; left | done].
        - intros [H | (d' & Hin' & Hq & Hn)]; [by left; left|].
          apply elem_of_app in Hin' as [Hin' | Hin'].
          + left. right. by exists d'.
          + apply list_elem_of_singleton in Hin' as ->. by right. }
      split.
      + eapply pruned_iff; [eapply pruned_delete; [exact Hprs | exact Hs'] | exact Hiff].
      + eapply logged_iff; [|exact Hiff].
        eapply (logged_delete _ _ _ _ _ _ (r ++ [d]) SDir);
          [exact Hlgs | exact Hlog' | exact Hcon' | exact Hdd | done | exact Hfresh |].
        intros b Hb. apply not_below_child.
        destruct Hb as [[Hb | Hb] | Hb];
          [apply Hgone1_len in Hb; lia | by apply Hgone2_len in Hb | by apply Hgone3_len in Hb].
    - assert (Hiff : ∀ q, (gone1 dirs q ∨ gone2 files q) ∨ gone3 before q
                          ↔ (gone1 dirs q ∨ gone2 files q) ∨ gone3 (before ++ [d]) q).
      { intros q. unfold gone3. split.
        - intros [H | (d' & Hin' & Hq)]; [by left|].
          right. exists d'. split; [apply elem_of_app; by left | done].
        - intros [H | (d' & Hin' & Hq & Hn)]; [by left|].
          apply elem_of_app in Hin' as [Hin' | Hin'].
          + right. by exists d'.
          + apply list_elem_of_singleton in Hin' as ->.
            rewrite Hn in Hsome. by destruct Hsome. }
      split.
      + eapply pruned_iff; [exact Hprs | exact Hiff].
      + eapply logged_iff; [exact Hlgs | exact Hiff]. }
  exists s3. split; [done|]. split; [done|]. split; [done|].
  (* what is gone is what had no counterpart *)
  assert (Hsub : ∀ q, (gone1 dirs q ∨ gone2 files q) ∨ gone3 dirs q → doomed r q).
  { intros q [[(d & _ & k & Hk & -> & Hn) | (f & _ & -> & Hn)] | (d & _ & -> & Hn)].
    + exists ([d] ++ k). split; [done|]. by rewrite !(assoc_L (++)) in *.
    + by exists [f].
    + by exists [d]. }
  assert (Hsup : ∀ q, doomed r q → is_Some (skm st !! q) →
                      (gone1 dirs q ∨ gone2 files q) ∨ gone3 dirs q).
  { intros q (k & Hk & -> & Hn) Hq.
    destruct k as [|n k]; [done|].
    destruct (decide (k = [])) as [->|Hne].
    + destruct Hq as [[|c m ct] Hq].
      * right. exists n. split; [|done]. apply Hdirs. by rewrite <- (assoc_L (++)).
      * left. right. exists n. split; [|done]. apply Hfiles.
        exists c, m, ct. by rewrite <- (assoc_L (++)).
    + left. left. exists n.
      assert (Hq' : is_Some (skm st !! (((rep ++ r) ++ [n]) ++ k))).
      { by rewrite <- !(assoc_L (++)). }
      split.
      * apply Hdirs. by apply (wfm_prefix_dir _ _ k).
      * exists k. split; [done|]. by rewrite <- !(assoc_L (++)). }
  split.
  - eapply pruned_change; [exact Hpr3 | exact Hsub | exact Hsup].
  - eapply logged_change; [exact Hlg3 | exact Hsub | exact Hsup].
Qed.
End pruner.

(** ** Deleting a sub-tree that is gone from the source *)

(** The pruner on its own, from the replica root. *)
Lemma remove_files_and_dirs_spec (fuel : nat) (src rep : path) (st : state) :
  separate src rep →
  wf st → log_writable st = true →
  skm st !! rep = Some SDir →
  (∀ k, is_Some (skm st !! (rep ++ k)) → (length k < fuel)%nat) →
  ∃ st', remove_files_and_dirs fuel src rep st = Done st'
         ∧ wf st' ∧ log_writable st' = true
         ∧ pruned (doomed src rep (skm st) []) st st'
         ∧ logged src rep (doomed src rep (skm st) []) st st'.
Proof.
  intros Hsep Hwf Hw Hrep Hdepth. unfold remove_files_and_dirs.
  destruct (remove_walk_spec src rep Hsep (skm st) fuel [] st) as (st' & Hrun & H);
    try done.
  - by rewrite app_nil_r.
  - rewrite app_nil_r in Hrun. by exists st'.
Qed.

(** C5: a replica directory that holds just one file, with no directory of
    that name in the source: one run of the pruner returns; the file and the
    directory are gone; the log has grown by a "deleted" line for the file
    and, later, one for the directory, and by no other line that names a
    path of that sub-tree. *)
Theorem pruner_deletes_file_then_directory
    (fuel : nat) (src rep r0 : path) (d x : string) (st : state)
    (c : string) (m ct : Z) :
  separate src rep →
  wf st → log_writable st = true →
  skm st !! rep = Some SDir →
  (∀ k, is_Some (skm st !! (rep ++ k)) → (length k < fuel)%nat) →
  skm st !! (rep ++ (r0 ++ [d])) = Some SDir →
  skm st !! (rep ++ ((r0 ++ [d]) ++ [x])) = Some (SFile c m ct) →
  (∀ n, is_Some (skm st !! (rep ++ ((r0 ++ [d]) ++ [n]))) → n = x) →
  skm st !! (src ++ (r0 ++ [d])) = None →
  ∃ st' before between after t1 t2,
    remove_files_and_dirs fuel src rep st = Done st'
    ∧ skm st' !! (rep ++ ((r0 ++ [d]) ++ [x])) = None
    ∧ skm st' !! (rep ++ (r0 ++ [d])) = None
    ∧ log_lines st' = log_lines st
        ++ before ++ Event NFile (src ++ ((r0 ++ [d]) ++ [x])) Deleted t1
        :: between ++ Event NFolder (rep ++ (r0 ++ [d])) Deleted t2
        :: after
    ∧ ∀ ev, ev ∈ before ++ between ++ after → ¬ names_subtree src rep (r0 ++ [d]) ev.
Proof.
  intros Hsep Hwf Hw Hrep Hdepth Hd Hx Honly Hsd.
  destruct (remove_files_and_dirs_spec fuel src rep st)
    as (st' & Hrun & Hwf' & Hw' & Hpr & Hlg); try done.
  assert (Hsx : skm st !! (src ++ ((r0 ++ [d]) ++ [x])) = None).
  { rewrite (assoc_L (++)). by apply wfm_None_below. }
  assert (Hdoomed_d : doomed src rep (skm st) [] (rep ++ (r0 ++ [d]))).
  { exists (r0 ++ [d]). split; [by destruct r0|]. done. }
  assert (Hdoomed_x : doomed src rep (skm st) [] (rep ++ ((r0 ++ [d]) ++ [x]))).
  { exists ((r0 ++ [d]) ++ [x]). split; [by destruct r0|]. done. }
  (* the only replica paths at or below the directory *)
  assert (Hsub : ∀ j, is_Some (skm st !! (rep ++ ((r0 ++ [d]) ++ j))) → j = [] ∨ j = [x]).
  { intros j Hj. destruct j as [|n j]; [by left|]. right.
    assert (n = x) as ->.
    { apply Honly. destruct (decide (j = [])) as [->|Hne]; [done|].
      replace (rep ++ (r0 ++ [d]) ++ n :: j) with ((rep ++ ((r0 ++ [d]) ++ [n])) ++ j) in Hj
        by (by rewrite <- !(assoc_L (++))).
      exists SDir. exact (wfm_prefix_dir _ _ j Hwf Hj Hne). }
    destruct (decide (j = [])) as [->|Hne]; [done|]. exfalso.
    replace (rep ++ (r0 ++ [d]) ++ x :: j) with ((rep ++ ((r0 ++ [d]) ++ [x])) ++ j) in Hj
      by (by rewrite <- !(assoc_L (++))).
    rewrite (wfm_not_dir_below _ (rep ++ ((r0 ++ [d]) ++ [x])) j) in Hj; [by destruct Hj | done | | done].
    by rewrite Hx. }
  destruct Hlg as (ks & new & Hlog & _ & Hlines & Hnd & Hcf & Hin).
  assert (Hkd : (r0 ++ [d]) ∈ ks) by (apply Hin; split; [done | by rewrite Hd]).
  assert (Hkx : ((r0 ++ [d]) ++ [x]) ∈ ks) by (apply Hin; split; [done | by rewrite Hx]).
  destruct (children_first_order ks ((r0 ++ [d]) ++ [x]) (r0 ++ [d]) Hcf Hkx Hkd) as (l1 & l2 & l3 & ->).
  { exists [x]. by split. }
  apply Forall2_app_inv_l in Hlines as (before & new' & Hbefore & Hlines & ->).
  apply Forall2_cons_inv_l in Hlines as (evx & new'' & Hevx & Hlines & ->).
  apply Forall2_app_inv_l in Hlines as (between & new' & Hbetween & Hlines & ->).
  apply Forall2_cons_inv_l in Hlines as (evd & after & Hevd & Hafter & ->).
  destruct Hevx as (sx & Hsx' & Hvx & Hlx). rewrite Hx in Hsx'. injection Hsx' as <-.
  destruct Hlx as [Hnx Hpx].
  destruct Hevd as (sd & Hsd' & Hvd & Hld). rewrite Hd in Hsd'. injection Hsd' as <-.
  destruct Hld as [Hnd' Hpd].
  exists st', before, between, after, (ev_time evx), (ev_time evd).
  split; [done|].
  split; [by apply (pruned_gone _ _ _ Hpr)|].
  split; [by apply (pruned_gone _ _ _ Hpr)|].
  split.
  { rewrite Hlog.
    assert (evx = Event NFile (src ++ (r0 ++ [d]) ++ [x]) Deleted (ev_time evx)) as <-
      by (destruct evx; simpl in *; by subst).
    assert (evd = Event NFolder (rep ++ r0 ++ [d]) Deleted (ev_time evd)) as <-
      by (destruct evd; simpl in *; by subst).
    done. }
  (* no other line names the sub-tree *)
  assert (Hother : ∀ k ev, k ∈ l1 ++ l2 ++ l3 → line_for src rep st k ev →
                           ¬ names_subtree src rep (r0 ++ [d]) ev).
  { intros k ev Hk (sk & Hsk & _ & Hline) Hnames.
    assert (Hk_ne : k ≠ ((r0 ++ [d]) ++ [x]) ∧ k ≠ (r0 ++ [d])).
    { apply NoDup_app in Hnd as (_ & Hd1 & Hnd).
      apply NoDup_cons in Hnd as (Hx1 & Hnd).
      apply NoDup_app in Hnd as (_ & Hd2 & Hnd).
      apply NoDup_cons in Hnd as (Hx2 & _).
      split; intros ->.
      - apply elem_of_app in Hk as [Hk | Hk].
        + apply (Hd1 _ Hk). left.
        + apply Hx1. apply elem_of_app in Hk as [Hk | Hk].
          * apply elem_of_app. by left.
          * apply elem_of_app. right. by right.
      - apply elem_of_app in Hk as [Hk | Hk].
        + apply (Hd1 _ Hk). right. apply elem_of_app. right. left.
        + apply elem_of_app in Hk as [Hk | Hk].
          * apply (Hd2 _ Hk). left.
          * done. }
    assert (Hunder : (r0 ++ [d]) `prefix_of` k → False).
    { intros [j ->]. destruct (Hsub j) as [-> | ->].
      - by rewrite Hsk.
      - by rewrite app_nil_r in Hk_ne; destruct Hk_ne.
      - by destruct Hk_ne. }
    destruct Hnames as [[j Hj] | [j Hj]]; destruct sk as [|ck mk ctk];
      destruct Hline as [_ Hpath]; rewrite Hpath in Hj.
    - rewrite <- (assoc_L (++)) in Hj. symmetry in Hj.
      by apply (separate_paths src rep) in Hj.
    - rewrite <- (assoc_L (++)) in Hj. apply app_inv_head in Hj. apply Hunder. by exists j.
    - rewrite <- (assoc_L (++)) in Hj. apply app_inv_head in Hj. apply Hunder. by exists j.
    - rewrite <- (assoc_L (++)) in Hj. by apply (separate_paths src rep) in Hj. }
  intros ev Hev.
  assert (Hall : Forall2 (line_for src rep st) (l1 ++ l2 ++ l3) (before ++ between ++ after)).
  { repeat apply Forall2_app; done. }
  apply list_elem_of_lookup in Hev as [i Hi].
  destruct (Forall2_lookup_r _ _ _ _ _ Hall Hi) as (k & Hk & Hline).
  apply (Hother k ev); [|done]. apply list_elem_of_lookup. by exists i.
Qed.

Lemma wfb_wf st : wfb st = true → wf st.
Proof.
  intros Hb p n [x Hx]. unfold wfb in Hb. rewrite forallb_forall in Hb.
  apply elem_of_map_to_list, list_elem_of_In in Hx. specialize (Hb _ Hx). simpl in Hb.
  destruct (p ++ [n]) as [|a l] eqn:Hp; [by destruct p|].
  rewrite <- Hp, parent_snoc in Hb. by apply bool_decide_eq_true in Hb.
Qed.

Lemma shallowb_depth (fuel : nat) (root : path) st :
  shallowb (length root + fuel) st = true →
  ∀ k, is_Some (skm st !! (root ++ k)) → (length k < fuel)%nat.
Proof.
  intros Hb k [x Hx]. unfold shallowb in Hb. rewrite forallb_forall in Hb.
  apply elem_of_map_to_list, list_elem_of_In in Hx. specialize (Hb _ Hx). simpl in Hb.
  apply Nat.ltb_lt in Hb. rewrite length_app in Hb. lia.
Qed.

Lemma only_child st (p : path) (x : string) :
  (children st p).*1 = [x] → ∀ n, is_Some (skm st !! (p ++ [n])) → n = x.
Proof.
  intros Hc n Hn. rewrite skm_lookup, fmap_is_Some in Hn. destruct Hn as [e He].
  apply elem_of_children in He.
  assert (Hin : n ∈ (children st p).*1) by (apply list_elem_of_fmap; by exists (n, e)).
  rewrite Hc in Hin. by apply list_elem_of_singleton in Hin.
Qed.

Lemma pruner_deletes_file_then_directory_witness :
  ∃ st' before between after t1 t2,
    remove_files_and_dirs 3 ["source"] ["replica"] cascade_state = Done st'
    ∧ skm st' !! (["replica"] ++ (([] ++ ["dir"]) ++ ["x.txt"])) = None
    ∧ skm st' !! (["replica"] ++ ([] ++ ["dir"])) = None
    ∧ log_lines st' = log_lines cascade_state
        ++ before ++ Event NFile (["source"] ++ (([] ++ ["dir"]) ++ ["x.txt"])) Deleted t1
        :: between ++ Event NFolder (["replica"] ++ ([] ++ ["dir"])) Deleted t2
        :: after
    ∧ ∀ ev, ev ∈ before ++ between ++ after →
            ¬ names_subtree ["source"] ["replica"] ([] ++ ["dir"]) ev.
Proof.
  refine (pruner_deletes_file_then_directory 3 ["source"] ["replica"] [] "dir" "x.txt"
            cascade_state "x" 4 4 separate_source_replica _ _ _ _ _ _ _ _).
  - apply wfb_wf. vm_compute. reflexivity.
  - reflexivity.
  - vm_compute. reflexivity.
  - apply (shallowb_depth 3 ["replica"]). vm_compute. reflexivity.
  - vm_compute. reflexivity.
  - vm_compute. reflexivity.
  - apply (only_child cascade_state ["replica"; "dir"] "x.txt"). vm_compute. reflexivity.
  - vm_compute. reflexivity.
Defined.
(** ** What reconciling adds *)

Lemma image_dir x y : image x y → (x = SDir ↔ y = SDir).
Proof. destruct x, y; simpl; done. Qed.

Lemma bind_assoc r k1 k2 :
  (do s <- (do s' <- r; k1 s'); k2 s) = (do s' <- r; do s <- k1 s'; k2 s).
Proof. by destruct r. Qed.

Lemma copy_walk_unfold fuel src rep top st dirs files :
  scandir st top = Some (dirs, files) →
  copy_walk (S fuel) src rep top st
  = do s0 <- (if negb (exists_joined st rep (relpath top src))
              then makedirs_joined rep (relpath top src) st else Done st);
    copy_after_guard fuel src rep top dirs files s0.
Proof.
  intros H. cbn [copy_walk]. rewrite H. unfold copy_visit, copy_after_guard.
  by rewrite !bind_assoc.
Qed.

Section reconciler.
Variables src rep : path.
Hypothesis Hsep : separate src rep.
Variable m0 : gmap path skel.
Local Abbreviation synced := (synced src rep m0).
Local Abbreviation synced_kept := (synced_kept src rep m0).
Local Abbreviation synced_done := (synced_done src rep m0).
Local Abbreviation present := (present src rep m0).
Local Abbreviation compatible := (compatible src rep m0).
Local Abbreviation copy_walk_returns := (copy_walk_returns src rep m0).
Local Abbreviation can_report := (can_report src m0).

Lemma synced_refl st : synced (fun _ => False) st st.
Proof. split; done. Qed.

Lemma synced_iff (handled handled' : path → Prop) st s :
  synced handled st s → (∀ q, handled q ↔ handled' q) → synced handled' st s.
Proof.
  intros [Hk Hd] Hiff. split.
  - intros q Hq. apply Hk. by rewrite Hiff.
  - intros q Hq. apply Hd. by rewrite Hiff.
Qed.

Lemma synced_trans (h1 h2 : path → Prop) st s1 s2 :
  synced h1 st s1 → synced h2 s1 s2 → (∀ q, h1 q → h2 q → False) →
  synced (fun q => h1 q ∨ h2 q) st s2.
Proof.
  intros [Hk1 Hd1] [Hk2 Hd2] Hdisj. split.
  - intros q Hq. rewrite Hk2, Hk1; tauto.
  - intros q [Hq | Hq].
    + rewrite Hk2 by eauto. by apply Hd1.
    + by apply Hd2.
Qed.

Lemma synced_insert (handled : path → Prop) st s s' k x y :
  synced handled st s →
  skm s' = <[rep ++ k := y]> (skm s) →
  m0 !! (src ++ k) = Some x → image x y →
  synced (fun q => handled q ∨ q = rep ++ k) st s'.
Proof.
  intros [Hk Hd] Hs' Hx Him. split.
  - intros q Hq. rewrite Hs', lookup_insert_ne; [apply Hk; tauto|].
    intros <-. apply Hq. by right.
  - intros q Hq. destruct (decide (q = rep ++ k)) as [->|Hne].
    + exists k, x, y. rewrite Hs', lookup_insert_eq. done.
    + destruct Hq as [Hq | Hq]; [|done].
      rewrite Hs', lookup_insert_ne by done. by apply Hd.
Qed.

Lemma synced_already (handled : path → Prop) st s k x y :
  synced handled st s →
  skm s !! (rep ++ k) = Some y →
  m0 !! (src ++ k) = Some x → image x y →
  synced (fun q => handled q ∨ q = rep ++ k) st s.
Proof.
  intros [Hk Hd] Hy Hx Him. split.
  - intros q Hq. apply Hk. tauto.
  - intros q Hq. destruct (decide (q = rep ++ k)) as [->|Hne].
    + by exists k, x, y.
    + destruct Hq as [Hq | Hq]; [|done]. by apply Hd.
Qed.

Lemma synced_same_shape (handled : path → Prop) st s s' :
  synced handled st s → skm s' = skm s → synced handled st s'.
Proof. intros [Hk Hd] Hs'. split; intros q; rewrite Hs'; auto. Qed.

Lemma synced_agrees (handled : path → Prop) st s :
  synced handled st s → agrees src m0 st → agrees src m0 s.
Proof.
  intros Hsy Hst x. rewrite <- Hst.
  apply (synced_kept _ _ _ Hsy). intros Hh.
  apply (synced_done _ _ _ Hsy) in Hh as (k & _ & _ & Hq & _).
  by apply (separate_paths src rep x k).
Qed.

Lemma stat_of_skm st p x : skm st !! p = Some x → ∃ e, stat st p = Some e ∧ skel_of e = x.
Proof.
  rewrite skm_lookup. unfold stat. destruct (fs st !! p) as [e|]; [|done].
  intros [= <-]. by exists e.
Qed.

Lemma skel_of_file_mtime e c m ct : skel_of e = SFile c m ct → st_mtime e = m.
Proof. unfold skel_of. destruct (ekind e); [|done]. by intros [= _ <- _]. Qed.

(** Lines 71-90 on the file [f] of the source directory [src ++ r]. *)
Lemma copy_file_step r f s c m ct :
  wf s → can_report s → agrees src m0 s →
  m0 !! (src ++ (r ++ [f])) = Some (SFile c m ct) →
  skm s !! (rep ++ r) = Some SDir →
  skm s !! (rep ++ (r ++ [f])) ≠ Some SDir →
  ∃ s', copy_file (src ++ r) (rep ++ r) f s = Done s'
        ∧ wf s' ∧ can_report s'
        ∧ ((∃ y, skm s' = <[rep ++ (r ++ [f]) := y]> (skm s) ∧ image (SFile c m ct) y)
           ∨ (s' = s ∧ ∃ y, skm s !! (rep ++ (r ++ [f])) = Some y ∧ image (SFile c m ct) y)).
Proof.
  intros Hwf [Hw Hdates] Hag Hsrc Hdir Hnd. unfold copy_file.
  rewrite <- !(assoc_L (++)).
  assert (Hsrc' : skm s !! (src ++ r ++ [f]) = Some (SFile c m ct)) by (by rewrite Hag).
  assert (Hne : src ++ r ++ [f] ≠ rep ++ r ++ [f]) by (by apply separate_paths).
  assert (Hstat : ∀ s1, skm s1 = <[rep ++ r ++ [f] := SFile c m (clock s)]> (skm s) →
            ∃ e, stat s1 (src ++ r ++ [f]) = Some e ∧ st_mtime e = m).
  { intros s1 Hs1.
    destruct (stat_of_skm s1 (src ++ r ++ [f]) (SFile c m ct)) as (e & He & Hk).
    { by rewrite Hs1, lookup_insert_ne. }
    exists e. split; [done|]. by eapply skel_of_file_mtime. }
  assert (Hfinish : ∀ ev s1,
            skm s1 = <[rep ++ r ++ [f] := SFile c m (clock s)]> (skm s) →
            same_log s s1 →
            ∃ s', log_and_print ev s1 = Done s'
                  ∧ skm s' = <[rep ++ r ++ [f] := SFile c m (clock s)]> (skm s)
                  ∧ can_report s').
  { intros ev s1 Hs1 (Hl1 & _ & _ & Hd1).
    destruct (log_and_print_spec ev s1)
      as (s2 & -> & Hfs & _ & Hw2 & _ & _ & Hd2); [congruence|].
    exists s2. split; [done|]. split; [by rewrite (skm_fs_eq _ _ Hfs)|].
    split; [done|]. intros k c0 m1 ct0 Hk. rewrite Hd2, Hd1. by eapply Hdates. }
  assert (Hwf' : (∀ n, skm s !! ((rep ++ r ++ [f]) ++ [n]) = None) →
                 wfm (<[rep ++ r ++ [f] := SFile c m (clock s)]> (skm s))).
  { intros Hch. apply wfm_insert; [done | | by right].
    right. by rewrite (assoc_L (++)), parent_snoc. }
  destruct (skm s !! (rep ++ r ++ [f])) as [y|] eqn:Hrep.
  - (* the replica has the file *)
    rewrite (proj2 (path_exists_true s (rep ++ r ++ [f]))) by (by rewrite Hrep).
    cbn [negb].
    destruct y as [|c' m' ct']; [done|].
    destruct (stat_of_skm s _ _ Hsrc') as (es & -> & Hes).
    destruct (stat_of_skm s _ _ Hrep) as (er & -> & Her).
    rewrite (skel_of_file_mtime _ _ _ _ Hes), (skel_of_file_mtime _ _ _ _ Her).
    destruct (decide (m = m')) as [<-|Hmm].
    + rewrite Z.eqb_refl. cbn [negb]. exists s.
      split; [done|]. split; [done|]. split; [done|]. right. split; [done|].
      by exists (SFile c' m ct').
    + rewrite (proj2 (Z.eqb_neq m m') Hmm). cbn [negb].
      destruct (copy2_spec (src ++ r ++ [f]) (rep ++ r ++ [f]) s c m ct Hne Hsrc')
        as (s1 & -> & Hs1 & Hl1); [right; eauto|].
      cbn [bind]. destruct (Hstat s1 Hs1) as (e & -> & ->).
      assert (Hdate : date_error s1 m = None).
      { destruct Hl1 as (_ & _ & _ & ->). by eapply Hdates. }
      rewrite Hdate.
      destruct (Hfinish (Event NFile (src ++ r ++ [f]) Modified m) s1 Hs1 Hl1)
        as (s' & -> & Hs' & Hw').
      exists s'. split; [done|]. unfold wf. rewrite Hs'. split; [|split; [done|]].
      * apply Hwf'. intros n. apply wfm_not_dir_below; [done | by rewrite Hrep | done].
      * left. by exists (SFile c m (clock s)).
  - (* the replica does not have it *)
    rewrite (proj2 (path_exists_false s (rep ++ r ++ [f]))) by done.
    cbn [negb].
    destruct (copy2_spec (src ++ r ++ [f]) (rep ++ r ++ [f]) s c m ct Hne Hsrc')
      as (s1 & -> & Hs1 & Hl1).
    { left. split; [done|]. rewrite (assoc_L (++)), parent_snoc.
      split; [done|]. by destruct (rep ++ r). }
    cbn [bind]. destruct (Hstat s1 Hs1) as (e & -> & _).
    destruct (Hfinish (Event NFile (src ++ r ++ [f]) Created (st_ctime e)) s1 Hs1 Hl1)
      as (s' & -> & Hs' & Hw').
    exists s'. split; [done|]. unfold wf. rewrite Hs'. split; [|split; [done|]].
    * apply Hwf'. intros n. by apply wfm_None_below.
    * left. by exists (SFile c m (clock s)).
Qed.

(** Lines 93-101 on the sub-directory [d] of the source directory
    [src ++ r]. *)
Lemma copy_dir_step r d s :
  wf s → can_report s → agrees src m0 s →
  m0 !! (src ++ (r ++ [d])) = Some SDir →
  skm s !! (rep ++ r) = Some SDir →
  (skm s !! (rep ++ (r ++ [d])) = None ∨ skm s !! (rep ++ (r ++ [d])) = Some SDir) →
  ∃ s', copy_dir (src ++ r) (rep ++ r) d s = Done s'
        ∧ wf s' ∧ can_report s'
        ∧ (skm s' = <[rep ++ (r ++ [d]) := SDir]> (skm s)
           ∨ (s' = s ∧ skm s !! (rep ++ (r ++ [d])) = Some SDir)).
Proof.
  intros Hwf [Hw Hdates] Hag Hsrc Hdir Hrep. unfold copy_dir.
  rewrite <- !(assoc_L (++)).
  rewrite (proj2 (path_exists_true s (src ++ r ++ [d]))) by (rewrite Hag, Hsrc; by eexists).
  cbn [andb].
  destruct Hrep as [Hnone | Hthere].
  - rewrite (proj2 (path_exists_false s (rep ++ r ++ [d]))) by done. cbn [negb].
    rewrite (assoc_L (++)).
    destruct (makedirs_child (rep ++ r) d s Hdir)
      as (s1 & -> & Hs1 & (Hl1 & _ & _ & Hd1) & Hfs1).
    { by rewrite <- (assoc_L (++)). }
    cbn [bind]. unfold stat. rewrite Hfs1.
    destruct (log_and_print_spec
                (Event NFolder ((rep ++ r) ++ [d]) Created
                       (st_ctime (Entry KDir (clock s) (clock s)))) s1)
      as (s2 & -> & Hfs & _ & Hw2 & _ & _ & Hd2); [congruence|].
    exists s2. split; [done|].
    rewrite <- (assoc_L (++)) in Hs1. rewrite <- !(assoc_L (++)).
    unfold wf. rewrite (skm_fs_eq _ _ Hfs), Hs1. split; [|split; [|by left]].
    + apply wfm_insert; [done | | by left].
      right. by rewrite (assoc_L (++)), parent_snoc.
    + split; [done|]. intros k c m ct Hk. rewrite Hd2, Hd1. by eapply Hdates.
  - rewrite (proj2 (path_exists_true s (rep ++ r ++ [d]))) by (rewrite Hthere; by eexists).
    cbn [negb]. exists s. split; [done|]. split; [done|]. split; [by split|]. by right.
Qed.

Lemma copy_after_guard_spec fuel r s0 dirs files :
  copy_walk_returns fuel →
  NoDup dirs → NoDup files →
  (∀ n, n ∈ dirs ↔ m0 !! (src ++ (r ++ [n])) = Some SDir) →
  (∀ n, n ∈ files ↔ ∃ c m ct, m0 !! (src ++ (r ++ [n])) = Some (SFile c m ct)) →
  wf s0 → can_report s0 → agrees src m0 s0 →
  skm s0 !! (rep ++ r) = Some SDir →
  compatible s0 r →
  (∀ k, is_Some (m0 !! (src ++ (r ++ k))) → (length k < S fuel)%nat) →
  ∃ s', copy_after_guard fuel src rep (src ++ r) dirs files s0 = Done s'
        ∧ wf s' ∧ can_report s' ∧ synced (present r) s0 s'.
Proof.
  intros IH Hnd Hnf Hdirs Hfiles Hwf Hw Hag Hrep Hcompat Hdepth.
  unfold copy_after_guard, relpath. rewrite drop_app_length.
  set (child := fun (seen : list string) (q : path) =>
                  ∃ n, n ∈ seen ∧ q = rep ++ (r ++ [n])).
  assert (Hrep_kept : ∀ (h : path → Prop) s,
            (∀ q, h q → ∃ k, k ≠ [] ∧ q = rep ++ (r ++ k)) →
            synced h s0 s → skm s !! (rep ++ r) = Some SDir).
  { intros h s Hh Hs. rewrite (synced_kept _ _ _ Hs); [done|].
    intros Hq. apply Hh in Hq as (k & Hk & Hq).
    apply app_inv_head in Hq. rewrite <- (app_nil_r r) in Hq at 1.
    apply app_inv_head in Hq. by subst k. }
  (* the files *)
  destruct (for_each_inv files (copy_file (src ++ r) (rep ++ r))
              (fun seen s => wf s ∧ can_report s ∧ synced (child seen) s0 s) s0)
    as (s1 & -> & Hwf1 & Hw1 & Hsy1).
  { split; [done|]. split; [done|]. eapply synced_iff; [apply synced_refl|].
    intros q. split; [done|]. intros (n & Hin & _). by apply elem_of_nil in Hin. }
  { intros before f after s Hxs (Hwfs & Hws & Hsys).
    assert (Hfin : f ∈ files) by (rewrite Hxs; apply elem_of_app; right; left).
    assert (Hfnot : f ∉ before) by (rewrite Hxs in Hnf; by eapply NoDup_app_cons_not_in).
    apply Hfiles in Hfin as (c & m & ct & Hf).
    assert (Hkept : skm s !! (rep ++ (r ++ [f])) = skm s0 !! (rep ++ (r ++ [f]))).
    { apply (synced_kept _ _ _ Hsys). intros (n & Hin & Hq).
      apply child_inj in Hq as ->. done. }
    destruct (copy_file_step r f s c m ct Hwfs Hws)
      as (s' & -> & Hwf' & Hw' & Hcase); [|done| | |].
    - by eapply synced_agrees.
    - apply (Hrep_kept (child before)); [|done].
      intros q (n & _ & ->). by exists [n].
    - rewrite Hkept. intros Hy.
      destruct (Hcompat [f] (SFile c m ct) SDir) as [_ H]; [done..|].
      by specialize (H eq_refl).
    - exists s'. split; [done|]. split; [done|]. split; [done|].
      assert (Hiff : ∀ q, child before q ∨ q = rep ++ (r ++ [f]) ↔ child (before ++ [f]) q).
      { intros q. unfold child. split.
        - intros [(n & Hin & Hq) | ->].
          + exists n. split; [apply elem_of_app; by left | done].
          + exists f. split; [apply elem_of_app; right; left | done].
        - intros (n & Hin & Hq). apply elem_of_app in Hin as [Hin | Hin].
          + left. by exists n.
          + apply list_elem_of_singleton in Hin as ->. by right. }
      destruct Hcase as [(y & Hs' & Him) | (-> & y & Hy & Him)].
      + eapply synced_iff; [eapply synced_insert; [exact Hsys | exact Hs' | exact Hf | exact Him]|].
        exact Hiff.
      + eapply synced_iff; [eapply synced_already; [exact Hsys | exact Hy | exact Hf | exact Him]|].
        exact Hiff. }
  cbn [bind].
  (* the sub-directories *)
  destruct (for_each_inv dirs (copy_dir (src ++ r) (rep ++ r))
              (fun seen s => wf s ∧ can_report s
                             ∧ synced (fun q => child files q ∨ child seen q) s0 s) s1)
    as (s2 & -> & Hwf2 & Hw2 & Hsy2).
  { split; [done|]. split; [done|]. eapply synced_iff; [exact Hsy1|].
    intros q. split; [by left|]. intros [H | (n & Hin & _)]; [done|].
    by apply elem_of_nil in Hin. }
  { intros before d after s Hxs (Hwfs & Hws & Hsys).
    assert (Hdin : d ∈ dirs) by (rewrite Hxs; apply elem_of_app; right; left).
    assert (Hdnot : d ∉ before) by (rewrite Hxs in Hnd; by eapply NoDup_app_cons_not_in).
    pose proof (proj1 (Hdirs d) Hdin) as Hd.
    assert (Hkept : skm s !! (rep ++ (r ++ [d])) = skm s0 !! (rep ++ (r ++ [d]))).
    { apply (synced_kept _ _ _ Hsys). intros [(n & Hin & Hq) | (n & Hin & Hq)].
      - apply child_inj in Hq as <-. apply Hfiles in Hin as (c & m & ct & Hf). congruence.
      - apply child_inj in Hq as ->. done. }
    destruct (copy_dir_step r d s Hwfs Hws)
      as (s' & -> & Hwf' & Hw' & Hcase); [|done| | |].
    - by eapply synced_agrees.
    - apply (Hrep_kept (fun q => child files q ∨ child before q)); [|done].
      intros q [(n & _ & ->) | (n & _ & ->)]; by exists [n].
    - rewrite Hkept. destruct (skm s0 !! (rep ++ (r ++ [d]))) as [y|] eqn:Hy; [|by left].
      right. f_equal. by apply (Hcompat [d] SDir y).
    - exists s'. split; [done|]. split; [done|]. split; [done|].
      assert (Hiff : ∀ q, (child files q ∨ child before q) ∨ q = rep ++ (r ++ [d])
                          ↔ child files q ∨ child (before ++ [d]) q).
      { intros q. unfold child. split.
        - intros [[H | (n & Hin & Hq)] | ->].
          + by left.
          + right. exists n. split; [apply elem_of_app; by left | done].
          + right. exists d. split; [apply elem_of_app; right; left | done].
        - intros [H | (n & Hin & Hq)]; [by left; left|].
          apply elem_of_app in Hin as [Hin | Hin].
          + left. right. by exists n.
          + apply list_elem_of_singleton in Hin as ->. by right. }
      destruct Hcase as [Hs' | (-> & Hy)].
      + eapply synced_iff; [eapply (synced_insert _ _ _ _ _ SDir SDir);
                             [exact Hsys | exact Hs' | exact Hd | done]|].
        exact Hiff.
      + eapply synced_iff; [eapply (synced_already _ _ _ _ SDir SDir);
                             [exact Hsys | exact Hy | exact Hd | done]|].
        exact Hiff. }
  cbn [bind].
  (* the walk goes on into the sub-directories *)
  set (below := fun (seen : list string) (q : path) =>
                  ∃ d, d ∈ seen ∧ present (r ++ [d]) q).
  destruct (for_each_inv dirs (fun d => copy_walk fuel src rep ((src ++ r) ++ [d]))
              (fun seen s => wf s ∧ can_report s
                 ∧ synced (fun q => (child files q ∨ child dirs q) ∨ below seen q) s0 s) s2)
    as (s3 & -> & Hwf3 & Hw3 & Hsy3).
  { split; [done|]. split; [done|]. eapply synced_iff; [exact Hsy2|].
    intros q. split; [by left|]. intros [H | (n & Hin & _)]; [done|].
    by apply elem_of_nil in Hin. }
  { intros before d after s Hxs (Hwfs & Hws & Hsys).
    assert (Hdin : d ∈ dirs) by (rewrite Hxs; apply elem_of_app; right; left).
    assert (Hdnot : d ∉ before) by (rewrite Hxs in Hnd; by eapply NoDup_app_cons_not_in).
    pose proof (proj1 (Hdirs d) Hdin) as Hd.
    rewrite <- (assoc_L (++)).
    assert (Hbelow_kept : ∀ k, k ≠ [] →
              skm s !! (rep ++ ((r ++ [d]) ++ k)) = skm s0 !! (rep ++ ((r ++ [d]) ++ k))).
    { intros k Hk. apply (synced_kept _ _ _ Hsys).
      intros [[(n & _ & Hq) | (n & _ & Hq)] | (d' & Hin & k' & Hk' & Hq & _)].
      - symmetry in Hq. by apply child_not_below in Hq.
      - symmetry in Hq. by apply child_not_below in Hq.
      - apply app_inv_head in Hq. rewrite <- !(assoc_L (++)) in Hq.
        apply app_inv_head in Hq. injection Hq as -> _. done. }
    destruct (IH (r ++ [d]) s) as (s' & -> & Hwf' & Hw' & Hsy'); [done | done | | done | | | |].
    - by eapply synced_agrees.
    - destruct (synced_done _ _ _ Hsys (rep ++ (r ++ [d])))
        as (k & x & y & Hq & Hx & Hy & Him).
      { left. right. by exists d. }
      apply app_inv_head in Hq as <-. rewrite Hd in Hx. injection Hx as <-.
      rewrite Hy. f_equal. by apply (image_dir SDir y).
    - intros k x y Hk Hx Hy. rewrite Hbelow_kept in Hy by done.
      rewrite <- (assoc_L (++)) in Hx, Hy. by apply (Hcompat ([d] ++ k) x y).
    - intros k Hk. rewrite <- (assoc_L (++)) in Hk.
      assert (length ([d] ++ k) < S fuel)%nat as Hlen by (by apply Hdepth).
      simpl in Hlen. lia.
    - exists s'. split; [done|]. split; [done|]. split; [done|].
      eapply synced_iff; [eapply synced_trans; [exact Hsys | exact Hsy' |]|].
      + intros q [[(n & _ & Hq) | (n & _ & Hq)] | (d' & Hin & k' & Hk' & Hq & _)]
                 (k & Hk & Hq' & _); rewrite Hq in Hq'.
        * by apply child_not_below in Hq'.
        * by apply child_not_below in Hq'.
        * apply app_inv_head in Hq'. rewrite <- !(assoc_L (++)) in Hq'.
          apply app_inv_head in Hq'. injection Hq' as -> _. done.
      + intros q. unfold below. split.
        * intros [[H | (d' & Hin & Hq)] | Hq].
          -- by left.
          -- right. exists d'. split; [apply elem_of_app; by left | done].
          -- right. exists d. split; [apply elem_of_app; right; left | done].
        * intros [H | (d' & Hin & Hq)]; [by left; left|].
          apply elem_of_app in Hin as [Hin | Hin].
          -- left. right. by exists d'.
          -- apply list_elem_of_singleton in Hin as ->. by right. }
  exists s3. split; [done|]. split; [done|]. split; [done|].
  eapply synced_iff; [exact Hsy3|].
  intros q. split.
  - intros [[(n & Hin & ->) | (n & Hin & ->)] | (d & Hin & k & Hk & -> & Hs)].
    + exists [n]. split; [done|]. split; [done|].
      apply Hfiles in Hin as (c & m & ct & ->). by eexists.
    + exists [n]. split; [done|]. split; [done|].
      apply Hdirs in Hin as ->. by eexists.
    + exists ([d] ++ k). split; [done|]. by rewrite !(assoc_L (++)) in *.
  - intros (k & Hk & -> & Hs).
    destruct k as [|n k]; [done|].
    destruct (decide (k = [])) as [->|Hne].
    + destruct Hs as [[|c m ct] Hs].
      * left. right. exists n. split; [by apply Hdirs | done].
      * left. left. exists n. split; [|done]. apply Hfiles. by exists c, m, ct.
    + right. exists n.
      assert (Hs' : is_Some (skm s0 !! (((src ++ r) ++ [n]) ++ k))).
      { rewrite <- !(assoc_L (++)). by rewrite Hag. }
      split.
      * apply Hdirs. rewrite <- Hag, (assoc_L (++)). by apply (wfm_prefix_dir _ _ k).
      * exists k. split; [done|]. by rewrite <- !(assoc_L (++)).
Qed.

Lemma exists_joined_dir st r :
  skm st !! (rep ++ r) = Some SDir → exists_joined st rep r = true.
Proof.
  unfold exists_joined. destruct r as [|n r].
  - rewrite app_nil_r. apply isdir_true.
  - intros H. apply path_exists_true. by rewrite H.
Qed.

(** The walk of the reconciler from [src ++ r], when the replica has the
    directory [rep ++ r]: it returns, and every path below [src ++ r] has
    its image in the replica. *)
Lemma copy_walk_spec (fuel : nat) : copy_walk_returns fuel.
Proof.
  induction fuel as [|fuel IH]; intros r st Hwf Hw Hag Hsrc Hrep Hcompat Hdepth.
  { specialize (Hdepth []). rewrite app_nil_r, Hsrc in Hdepth.
    assert (length (@nil string) < 0)%nat by (apply Hdepth; by eexists). simpl in *. lia. }
  assert (Hsrc' : skm st !! (src ++ r) = Some SDir) by (by rewrite Hag).
  destruct (scandir_spec st (src ++ r) Hsrc')
    as (dirs & files & Hscan & Hnd & Hnf & Hdirs & Hfiles).
  rewrite (copy_walk_unfold _ _ _ _ _ _ _ Hscan).
  unfold relpath. rewrite drop_app_length, (exists_joined_dir _ _ Hrep).
  cbn [negb bind].
  apply copy_after_guard_spec; try done.
  - intros n. by rewrite Hdirs, <- (assoc_L (++)), Hag.
  - intros n. rewrite Hfiles. by setoid_rewrite <- (assoc_L (++)); setoid_rewrite Hag.
Qed.
End reconciler.

(** ** One pass, and the next *)

Lemma mirror_mirrored src rep st : mirror src rep st → mirrored src rep st.
Proof.
  intros [Hpaths Himage]. split.
  - intros r. destruct (path_exists st (src ++ r)) eqn:Hs.
    + apply path_exists_true. apply Hpaths. by apply path_exists_true.
    + apply path_exists_false in Hs. apply path_exists_false.
      destruct (skm st !! (rep ++ r)) eqn:Hr; [|done].
      assert (is_Some (skm st !! (src ++ r))) as [? ?] by (apply Hpaths; by eexists).
      congruence.
  - intros r c m ct Hs. apply skm_file in Hs.
    destruct (Himage r _ Hs) as (y & Hy & Him).
    destruct y as [|c' m' ct']; [done|]. simpl in Him. subst m'.
    apply skm_file in Hy. by rewrite Hy.
Qed.

Lemma prefix_of_separate (src rep x : path) : separate src rep → ¬ (src ++ x) `prefix_of` rep.
Proof. intros [H _] Hp. apply H. etrans; [|exact Hp]. by apply prefix_app_r. Qed.

(** The copy phase on its own. *)
Lemma copy_files_and_dirs_spec (fuel : nat) (src rep : path) (st : state) :
  separate src rep →
  wf st → log_writable st = true →
  (∀ k c m ct, skm st !! (src ++ k) = Some (SFile c m ct) → date_error st m = None) →
  skm st !! src = Some SDir →
  replica_root_ready rep st →
  no_kind_conflict src rep st →
  (∀ k, is_Some (skm st !! (src ++ k)) → (length k < fuel)%nat) →
  ∃ s1, copy_files_and_dirs fuel src rep st = Done s1
        ∧ wf s1 ∧ log_writable s1 = true
        ∧ agrees src (skm st) s1
        ∧ (∀ k x, skm st !! (src ++ k) = Some x →
             ∃ y, skm s1 !! (rep ++ k) = Some y ∧ image x y)
        ∧ (∀ k, k ≠ [] → skm st !! (src ++ k) = None →
             skm s1 !! (rep ++ k) = skm st !! (rep ++ k)).
Proof.
  intros Hsep Hwf Hw Hdates Hsrc Hready Hcompat Hdepth.
  destruct fuel as [|fuel].
  { specialize (Hdepth []). rewrite app_nil_r, Hsrc in Hdepth.
    assert (length (@nil string) < 0)%nat by (apply Hdepth; by eexists). simpl in *. lia. }
  unfold copy_files_and_dirs.
  destruct (scandir_spec st src Hsrc) as (dirs & files & Hscan & Hnd & Hnf & Hdirs & Hfiles).
  rewrite (copy_walk_unfold _ _ _ _ _ _ _ Hscan).
  unfold relpath. rewrite drop_all.
  (* the state after the test of line 66 *)
  assert (Hguard : ∃ s0,
            (if negb (exists_joined st rep [])
             then makedirs_joined rep [] st else Done st) = Done s0
            ∧ wf s0 ∧ can_report src (skm st) s0
            ∧ skm s0 !! rep = Some SDir
            ∧ (∀ q, ¬ q `prefix_of` rep → skm s0 !! q = skm st !! q)).
  { cbn [exists_joined makedirs_joined].
    destruct (Hready rep) as [Hnone | Hdir]; [done | |].
    - rewrite (proj2 (isdir_false st rep)) by congruence. cbn [negb].
      rewrite (proj1 (skm_None st rep) Hnone).
      destruct (makedirs_spec rep st Hwf Hnone Hready)
        as (s0 & -> & Hwf0 & Hdirs0 & Hframe0 & (Hl0 & _ & _ & Hd0)).
      exists s0. split; [done|]. split; [done|]. split; [|split; [|done]].
      + split; [congruence|]. intros k c m ct Hk. rewrite Hd0. by eapply Hdates.
      + by apply Hdirs0.
    - rewrite (proj2 (isdir_true st rep)) by done. cbn [negb].
      exists st. by repeat split. }
  destruct Hguard as (s0 & -> & Hwf0 & Hw0 & Hrep0 & Hframe0).
  cbn [bind].
  assert (Hag0 : agrees src (skm st) s0).
  { intros x. apply Hframe0. by apply prefix_of_separate. }
  assert (Hbelow0 : ∀ k, k ≠ [] → skm s0 !! (rep ++ k) = skm st !! (rep ++ k)).
  { intros k Hk. apply Hframe0. intros [j Hj]. apply (f_equal length) in Hj.
    rewrite !length_app in Hj. destruct k; [done|]. simpl in Hj. lia. }
  destruct (copy_after_guard_spec src rep Hsep (skm st) fuel [] s0 dirs files)
    as (s1 & Hrun & Hwf1 & Hw1 & Hsy); try done.
  - apply copy_walk_spec. done.
  - by rewrite app_nil_r.
  - intros k x y Hk Hx Hy. simpl in *. rewrite Hbelow0 in Hy by done.
    by apply (Hcompat k).
  - rewrite app_nil_r in Hrun. rewrite Hrun. exists s1. split; [done|]. split; [done|].
    split; [by destruct Hw1|].
    split; [by eapply synced_agrees|]. split.
    + intros k x Hx. destruct (decide (k = [])) as [->|Hk].
      * rewrite app_nil_r in *. rewrite Hsrc in Hx. injection Hx as <-.
        exists SDir. split; [|done].
        rewrite (synced_kept _ _ _ _ _ _ Hsy); [done|].
        intros (k & Hk & Hq & _). simpl in Hq.
        rewrite <- (app_nil_r rep) in Hq at 1. apply app_inv_head in Hq. by subst k.
      * destruct (synced_done _ _ _ _ _ _ Hsy (rep ++ k)) as (k' & x' & y & Hq & Hx' & Hy & Him).
        { exists k. split; [done|]. split; [done|]. simpl. by rewrite Hx. }
        apply app_inv_head in Hq as <-. rewrite Hx in Hx'. injection Hx' as <-.
        by exists y.
    + intros k Hk Hnone. rewrite <- Hbelow0 by done.
      apply (synced_kept _ _ _ _ _ _ Hsy).
      intros (k' & Hk' & Hq & Hs). simpl in Hq, Hs.
      apply app_inv_head in Hq as <-. rewrite Hnone in Hs. by destruct Hs.
Qed.

(** Convergence: on a well-formed filesystem, with two separate roots, a
    source root that is a directory, no file on the way to the replica root
    and no kind conflict, a pass returns and the replica mirrors the
    source, which is untouched. *)
Theorem pass_converges_when_kinds_agree (fuel : nat) (src rep : path) (st : state) :
  separate src rep →
  wf st → log_writable st = true →
  (∀ k c m ct, skm st !! (src ++ k) = Some (SFile c m ct) → date_error st m = None) →
  skm st !! src = Some SDir →
  replica_root_ready rep st →
  no_kind_conflict src rep st →
  (∀ k, is_Some (skm st !! (src ++ k)) ∨ is_Some (skm st !! (rep ++ k)) →
        (length k < fuel)%nat) →
  ∃ st', sync_pass fuel src rep st = Done st'
         ∧ mirror src rep st'
         ∧ wf st' ∧ log_writable st' = true
         ∧ agrees src (skm st) st'.
Proof.
  intros Hsep Hwf Hw Hdates Hsrc Hready Hcompat Hdepth.
  destruct (copy_files_and_dirs_spec fuel src rep st)
    as (s1 & Hcopy & Hwf1 & Hw1 & Hag1 & Himg1 & Hextra1); try done.
  { intros k Hk. apply Hdepth. by left. }
  unfold sync_pass. rewrite Hcopy. cbn [bind].
  assert (Hrep1 : skm s1 !! rep = Some SDir).
  { destruct (Himg1 [] SDir) as (y & Hy & Him); [by rewrite app_nil_r|].
    rewrite app_nil_r in Hy. rewrite Hy. f_equal. by apply (image_dir SDir y). }
  unfold remove_files_and_dirs.
  destruct (remove_walk_spec src rep Hsep (skm st) fuel [] s1)
    as (st' & Hrun & Hwf' & Hw' & Hpr & _); try done.
  { by rewrite app_nil_r. }
  { intros k Hk. simpl in Hk. apply Hdepth.
    destruct (skm st !! (src ++ k)) as [x|] eqn:Hs; [left; by eexists|]. right.
    destruct (decide (k = [])) as [->|Hne].
    - rewrite app_nil_r. destruct (Hready rep) as [H | H]; [done | |by rewrite H].
      exfalso. rewrite app_nil_r in Hs. congruence.
    - by rewrite <- Hextra1. }
  rewrite app_nil_r in Hrun. rewrite Hrun.
  exists st'. split; [done|].
  assert (Hag' : agrees src (skm st) st').
  { eapply pruned_agrees; [done | | exact Hpr | done].
    intros q (k & _ & -> & _). by eexists. }
  assert (Hkept : ∀ k, is_Some (skm st !! (src ++ k)) →
            skm st' !! (rep ++ k) = skm s1 !! (rep ++ k)).
  { intros k Hs. apply (pruned_kept _ _ _ Hpr).
    intros (k' & Hk' & Hq & Hnone). simpl in Hq, Hnone.
    apply app_inv_head in Hq as <-. rewrite Hnone in Hs. by destruct Hs. }
  split; [|done]. split.
  - intros k. rewrite Hag'.
    destruct (skm st !! (src ++ k)) as [x|] eqn:Hs.
    + rewrite Hkept by (by rewrite Hs).
      destruct (Himg1 k x Hs) as (y & -> & _). split; by eexists.
    + destruct (decide (k = [])) as [->|Hne].
      { rewrite app_nil_r in Hs. congruence. }
      rewrite (pruned_gone _ _ _ Hpr); [done|]. by exists k.
  - intros k x Hx. rewrite Hag' in Hx. rewrite Hkept by (by rewrite Hx).
    by apply Himg1.
Qed.

(** ** A pass over a replica that mirrors the source *)

Section second_pass.
Variables src rep : path.
Variable st : state.
Hypothesis Hmirror : mirror src rep st.

Lemma copy_file_skip r f c m ct :
  skm st !! (src ++ (r ++ [f])) = Some (SFile c m ct) →
  copy_file (src ++ r) (rep ++ r) f st = Done st.
Proof.
  intros Hs. destruct (proj2 Hmirror _ _ Hs) as (y & Hy & Him).
  destruct y as [|c' m' ct']; [done|]. simpl in Him. subst m'.
  unfold copy_file. rewrite <- !(assoc_L (++)).
  rewrite (proj2 (path_exists_true st (rep ++ r ++ [f]))) by (by rewrite Hy).
  cbn [negb].
  destruct (stat_of_skm st _ _ Hs) as (es & -> & Hes).
  destruct (stat_of_skm st _ _ Hy) as (er & -> & Her).
  rewrite (skel_of_file_mtime _ _ _ _ Hes), (skel_of_file_mtime _ _ _ _ Her).
  by rewrite Z.eqb_refl.
Qed.

Lemma copy_dir_skip r d :
  skm st !! (src ++ (r ++ [d])) = Some SDir →
  copy_dir (src ++ r) (rep ++ r) d st = Done st.
Proof.
  intros Hs. destruct (proj2 Hmirror _ _ Hs) as (y & Hy & _).
  unfold copy_dir. rewrite <- !(assoc_L (++)).
  rewrite (proj2 (path_exists_true st (rep ++ r ++ [d]))) by (by rewrite Hy).
  cbn [negb]. by rewrite andb_false_r.
Qed.

Lemma copy_walk_skip (fuel : nat) : ∀ r,
  skm st !! (src ++ r) = Some SDir →
  (∀ k, is_Some (skm st !! (src ++ (r ++ k))) → (length k < fuel)%nat) →
  copy_walk fuel src rep (src ++ r) st = Done st.
Proof.
  induction fuel as [|fuel IH]; intros r Hs Hdepth.
  { specialize (Hdepth []). rewrite app_nil_r, Hs in Hdepth.
    assert (length (@nil string) < 0)%nat by (apply Hdepth; by eexists). simpl in *. lia. }
  destruct (scandir_spec st (src ++ r) Hs)
    as (dirs & files & Hscan & Hnd & Hnf & Hdirs & Hfiles).
  rewrite (copy_walk_unfold _ _ _ _ _ _ _ Hscan).
  unfold relpath. rewrite drop_app_length.
  assert (Hrep : skm st !! (rep ++ r) = Some SDir).
  { destruct (proj2 Hmirror _ _ Hs) as (y & Hy & Him).
    rewrite Hy. f_equal. by apply (image_dir SDir y). }
  rewrite (exists_joined_dir _ _ _ Hrep). cbn [negb bind].
  unfold copy_after_guard, relpath. rewrite drop_app_length.
  rewrite for_each_skip; cycle 1.
  { intros f Hf. apply Hfiles in Hf as (c & m & ct & Hf).
    apply (copy_file_skip r f c m ct). by rewrite (assoc_L (++)). }
  cbn [bind]. rewrite for_each_skip; cycle 1.
  { intros d Hd. apply Hdirs in Hd. apply copy_dir_skip. by rewrite (assoc_L (++)). }
  cbn [bind]. apply for_each_skip.
  intros d Hd. apply Hdirs in Hd. rewrite <- (assoc_L (++)). apply IH.
  - by rewrite (assoc_L (++)).
  - intros k Hk. rewrite <- (assoc_L (++)) in Hk.
    assert (length ([d] ++ k) < S fuel)%nat as Hlen by (by apply Hdepth).
    simpl in Hlen. lia.
Qed.

Lemma remove_file_skip r f :
  is_Some (skm st !! (rep ++ (r ++ [f]))) →
  remove_file (src ++ r) (rep ++ r) f st = Done st.
Proof.
  intros Hr. apply (proj1 Hmirror) in Hr.
  unfold remove_file. rewrite <- !(assoc_L (++)).
  by rewrite (proj2 (path_exists_true st (src ++ r ++ [f]))).
Qed.

Lemma remove_dir_skip r d :
  skm st !! (rep ++ (r ++ [d])) = Some SDir →
  remove_dir (src ++ r) (rep ++ r) d st = Done st.
Proof.
  intros Hr. unfold remove_dir. rewrite <- !(assoc_L (++)).
  destruct (listdir_spec st _ Hr) as (names & -> & _).
  rewrite (proj2 (path_exists_true st (src ++ r ++ [d]))).
  - cbn [negb]. by rewrite andb_false_r.
  - apply (proj1 Hmirror). by rewrite Hr.
Qed.

Lemma remove_walk_skip (fuel : nat) : ∀ r,
  skm st !! (rep ++ r) = Some SDir →
  (∀ k, is_Some (skm st !! (rep ++ (r ++ k))) → (length k < fuel)%nat) →
  remove_walk fuel src rep (rep ++ r) st = Done st.
Proof.
  induction fuel as [|fuel IH]; intros r Hr Hdepth.
  { specialize (Hdepth []). rewrite app_nil_r, Hr in Hdepth.
    assert (length (@nil string) < 0)%nat by (apply Hdepth; by eexists). simpl in *. lia. }
  cbn [remove_walk].
  destruct (scandir_spec st (rep ++ r) Hr)
    as (dirs & files & -> & Hnd & Hnf & Hdirs & Hfiles).
  rewrite for_each_skip; cycle 1.
  { intros d Hd. apply Hdirs in Hd. rewrite <- (assoc_L (++)). apply IH.
    - by rewrite (assoc_L (++)).
    - intros k Hk. rewrite <- (assoc_L (++)) in Hk.
      assert (length ([d] ++ k) < S fuel)%nat as Hlen by (by apply Hdepth).
      simpl in Hlen. lia. }
  cbn [bind]. unfold remove_visit, relpath. rewrite drop_app_length.
  rewrite for_each_skip; cycle 1.
  { intros f Hf. apply Hfiles in Hf as (c & m & ct & Hf).
    apply remove_file_skip. rewrite (assoc_L (++)), Hf. by eexists. }
  cbn [bind]. apply for_each_skip.
  intros d Hd. apply Hdirs in Hd. apply remove_dir_skip. by rewrite (assoc_L (++)).
Qed.

(** On a replica that mirrors the source, a pass returns the state it was
    given: no file or directory is touched, nothing is logged. *)
Lemma sync_pass_skip (fuel : nat) :
  skm st !! src = Some SDir →
  (∀ k, is_Some (skm st !! (src ++ k)) → (length k < fuel)%nat) →
  sync_pass fuel src rep st = Done st.
Proof.
  intros Hs Hdepth. unfold sync_pass, copy_files_and_dirs, remove_files_and_dirs.
  pose proof (copy_walk_skip fuel []) as Hcopy. rewrite app_nil_r in Hcopy.
  rewrite Hcopy; [|done|done]. cbn [bind].
  pose proof (remove_walk_skip fuel []) as Hremove. rewrite app_nil_r in Hremove.
  apply Hremove.
  - destruct (proj2 Hmirror [] SDir) as (y & Hy & Him); [by rewrite app_nil_r|].
    rewrite app_nil_r in Hy. rewrite Hy. f_equal. by apply (image_dir SDir y).
  - intros k Hk. simpl in Hk. apply Hdepth. by apply (proj1 Hmirror).
Qed.
End second_pass.

(** Idempotence: under the conditions of the convergence theorem, the pass
    returns a state on which a second pass changes nothing at all. *)
Theorem second_pass_silent_when_kinds_agree (fuel : nat) (src rep : path) (st : state) :
  separate src rep →
  wf st → log_writable st = true →
  (∀ k c m ct, skm st !! (src ++ k) = Some (SFile c m ct) → date_error st m = None) →
  skm st !! src = Some SDir →
  replica_root_ready rep st →
  no_kind_conflict src rep st →
  (∀ k, is_Some (skm st !! (src ++ k)) ∨ is_Some (skm st !! (rep ++ k)) →
        (length k < fuel)%nat) →
  ∃ st1, sync_pass fuel src rep st = Done st1
         ∧ sync_pass fuel src rep st1 = Done st1.
Proof.
  intros Hsep Hwf Hw Hdates Hsrc Hready Hcompat Hdepth.
  destruct (pass_converges_when_kinds_agree fuel src rep st)
    as (st1 & Hrun & Hmirror & _ & _ & Hag); try done.
  exists st1. split; [done|].
  apply sync_pass_skip; [done | |].
  - rewrite <- (app_nil_r src), Hag, app_nil_r. done.
  - intros k Hk. apply Hdepth. left. by rewrite <- Hag.
Qed.

(** ** The two theorems at work

    The conditions of the convergence theorem can be checked by computation
    on a filesystem given in full. *)

Lemma no_kind_conflictb_ok src rep st :
  no_kind_conflictb src rep st = true → no_kind_conflict src rep st.
Proof.
  intros Hb k x y Hx Hy. unfold no_kind_conflictb in Hb. rewrite forallb_forall in Hb.
  apply elem_of_map_to_list, list_elem_of_In in Hx. specialize (Hb _ Hx). simpl in Hb.
  rewrite take_app_length, drop_app_length in Hb.
  rewrite decide_True in Hb by done. rewrite Hy in Hb.
  by apply bool_decide_eq_true in Hb.
Qed.

Lemma source_datesb_ok (src : path) st :
  source_datesb src st = true →
  ∀ k c m ct, skm st !! (src ++ k) = Some (SFile c m ct) → date_error st m = None.
Proof.
  intros Hb k c m ct Hk. unfold source_datesb in Hb. rewrite forallb_forall in Hb.
  apply elem_of_map_to_list, list_elem_of_In in Hk. specialize (Hb _ Hk). simpl in Hb.
  rewrite take_app_length, decide_True in Hb by done.
  by destruct (date_error st m).
Qed.

Lemma replica_root_readyb_ok rep st :
  replica_root_readyb rep st = true → replica_root_ready rep st.
Proof.
  intros Hb q [k Hk]. unfold replica_root_readyb in Hb. rewrite forallb_forall in Hb.
  specialize (Hb (length q)).
  assert (Htake : take (length q) rep = q) by (by rewrite Hk, take_app_length).
  rewrite Htake in Hb.
  assert (Hin : In (length q) (seq 0 (S (length rep)))).
  { apply in_seq. rewrite Hk, length_app. lia. }
  specialize (Hb Hin). destruct (skm st !! q) as [[|c m ct]|]; [by right | done | by left].
Qed.

Lemma shallowb_both (fuel : nat) (src rep : path) st :
  shallowb (length src + fuel) st = true →
  shallowb (length rep + fuel) st = true →
  ∀ k, is_Some (skm st !! (src ++ k)) ∨ is_Some (skm st !! (rep ++ k)) →
       (length k < fuel)%nat.
Proof.
  intros Hs Hr k [Hk | Hk]; [by apply (shallowb_depth fuel src st) | by apply (shallowb_depth fuel rep st)].
Qed.

Example stale_state_converges :
  ∃ st', sync_pass 3 ["source"] ["replica"] stale_state = Done st'
         ∧ mirrored ["source"] ["replica"] st'
         ∧ sync_pass 3 ["source"] ["replica"] st' = Done st'.
Proof.
  assert (Hwf : wf stale_state) by (apply wfb_wf; vm_compute; reflexivity).
  assert (Hsrc : skm stale_state !! ["source"] = Some SDir) by (vm_compute; reflexivity).
  assert (Hdates : ∀ k c m ct, skm stale_state !! (["source"] ++ k) = Some (SFile c m ct) →
                               date_error stale_state m = None)
    by (apply source_datesb_ok; vm_compute; reflexivity).
  assert (Hready : replica_root_ready ["replica"] stale_state)
    by (apply replica_root_readyb_ok; vm_compute; reflexivity).
  assert (Hkinds : no_kind_conflict ["source"] ["replica"] stale_state)
    by (apply no_kind_conflictb_ok; vm_compute; reflexivity).
  assert (Hdepth : ∀ k, is_Some (skm stale_state !! (["source"] ++ k))
                        ∨ is_Some (skm stale_state !! (["replica"] ++ k)) →
                        (length k < 3)%nat)
    by (apply shallowb_both; vm_compute; reflexivity).
  destruct (pass_converges_when_kinds_agree 3 ["source"] ["replica"] stale_state
              separate_source_replica Hwf eq_refl Hdates Hsrc Hready Hkinds Hdepth)
    as (st' & Hrun & Hmirror & _ & _ & Hag).
  exists st'. split; [done|]. split; [by apply mirror_mirrored|].
  apply sync_pass_skip; [done | |].
  - change ["source"] with (["source"] ++ []). by rewrite Hag.
  - intros k Hk. apply Hdepth. left. by rewrite <- Hag.
Qed.

(** * Further properties *)

(** ** The command line, case by case *)

(** X1: the third argument is converted before the fourth is read: whatever
    conversion [int] the interpreter has, when it raises on the third
    argument the integer message is printed, whether or not a log file name
    follows; when it returns an integer and no log file name follows, the
    usage message is printed. *)
Theorem getting_args_reports_integer_first
    (int : string → option Z) (argv : list string) (a3 : string) :
  argv !! 3%nat = Some a3 →
  (int a3 = None →
     getting_args int argv = inr (SystemExit integer_message 0))
  ∧ (is_Some (int a3) → length argv = 4%nat →
     getting_args int argv = inr (SystemExit usage_message 0)).
Proof.
  intros H3. pose proof (lookup_lt_Some _ _ _ H3) as Hlen.
  destruct (lookup_lt_is_Some_2 argv 1) as [a1 H1]; [lia|].
  destruct (lookup_lt_is_Some_2 argv 2) as [a2 H2]; [lia|].
  unfold getting_args. rewrite H1, H2, H3. split.
  - by intros ->.
  - intros [z ->] Hfour. by rewrite (lookup_ge_None_2 argv 4) by lia.
Qed.

Lemma getting_args_reports_integer_first_witness :
  getting_args int_on_ascii ["synchronizer.py"; "source"; "replica"; "ten"]
  = inr (SystemExit integer_message 0)
  ∧ getting_args int_on_ascii ["synchronizer.py"; "source"; "replica"; "10"]
    = inr (SystemExit usage_message 0).
Proof.
  split.
  - apply (getting_args_reports_integer_first int_on_ascii
             ["synchronizer.py"; "source"; "replica"; "ten"] "ten"); reflexivity.
  - apply (getting_args_reports_integer_first int_on_ascii
             ["synchronizer.py"; "source"; "replica"; "10"] "10");
      [reflexivity | by eexists | reflexivity].
Defined.

(** X2: arguments after the fourth are never read: they change nothing,
    whatever the conversion [int] is. *)
Theorem getting_args_ignores_extra_arguments
    (int : string → option Z) (argv extra : list string) :
  (5 ≤ length argv)%nat →
  getting_args int (argv ++ extra) = getting_args int argv.
Proof.
  intros Hlen. unfold getting_args.
  by rewrite !lookup_app_l by lia.
Qed.

Lemma getting_args_ignores_extra_arguments_witness :
  getting_args int_on_ascii
    (["synchronizer.py"; "source"; "replica"; "10"; "logfile"] ++ ["more"; "args"])
  = getting_args int_on_ascii ["synchronizer.py"; "source"; "replica"; "10"; "logfile"].
Proof.
  apply (getting_args_ignores_extra_arguments int_on_ascii
           ["synchronizer.py"; "source"; "replica"; "10"; "logfile"] ["more"; "args"]).
  simpl. lia.
Defined.

(** ** What every step keeps, the phase keeps

    A relation between the state before and the state after that is
    reflexive and transitive, and that every filesystem call and every log
    line of a phase respects, holds between the state the phase starts in
    and the state it ends in, whether it returns or raises. *)

Section steps.
Variable R : state → state → Prop.
Hypothesis R_refl : ∀ s, R s s.
Hypothesis R_trans : ∀ s1 s2 s3, R s1 s2 → R s2 s3 → R s1 s3.

Lemma then_step r (k : state → result) st :
  post r (R st) → (∀ s, post (k s) (R s)) → post (do s <- r; k s) (R st).
Proof.
  intros Hr Hk. eapply post_bind; [exact Hr | done |].
  intros s Hs. eapply post_weaken; [apply Hk|].
  intros s'. by apply R_trans.
Qed.

Lemma for_each_step {A} (xs : list A) body st :
  (∀ x s, post (body x s) (R s)) → post (for_each xs body st) (R st).
Proof.
  intros Hbody. apply post_for_each; [apply R_refl|].
  intros x s Hs. eapply post_weaken; [apply Hbody|].
  intros s'. by apply R_trans.
Qed.

Section reconciler_steps.
Hypothesis R_mkdir : ∀ p s, post (mkdir p s) (R s).
Hypothesis R_copy2 : ∀ a b s, post (copy2 a b s) (R s).
Hypothesis R_log : ∀ n p v t s, v ≠ Deleted → post (log_and_print (Event n p v t) s) (R s).

Lemma makedirs_rev_step rp st : post (makedirs_rev rp st) (R st).
Proof.
  revert st. induction rp as [|n rhead IH]; intros st; [apply R_mkdir|].
  cbn [makedirs_rev]. apply then_step; [|intros s; apply R_mkdir].
  destruct (path_exists st (rev rhead)); [apply R_refl|].
  specialize (IH st). destruct (makedirs_rev rhead st) as [s|e s|]; [done| |done].
  by destruct e.
Qed.

Lemma makedirs_joined_step base rel st : post (makedirs_joined base rel st) (R st).
Proof.
  unfold makedirs_joined, makedirs. destruct rel as [|n rel].
  - destruct (fs st !! base); [apply R_refl|].
    pose proof (makedirs_rev_step (rev base) st) as H.
    destruct (makedirs_rev (rev base) st) as [s|e s|]; [done| |done].
    by destruct e.
  - apply makedirs_rev_step.
Qed.

Lemma copy_file_step_keeps source_root folder_replica_path f st :
  post (copy_file source_root folder_replica_path f st) (R st).
Proof.
  unfold copy_file. destruct (negb _).
  - apply then_step; [apply R_copy2|].
    intros s. destruct (stat s _); [by apply R_log | apply R_refl].
  - destruct (stat st (source_root ++ [f])); [|apply R_refl].
    destruct (stat st (folder_replica_path ++ [f])); [|apply R_refl].
    destruct (negb _); [|apply R_refl].
    apply then_step; [apply R_copy2|].
    intros s. destruct (stat s _); [|apply R_refl].
    destruct (date_error s _); [apply R_refl | by apply R_log].
Qed.

Lemma copy_dir_step_keeps source_root folder_replica_path d st :
  post (copy_dir source_root folder_replica_path d st) (R st).
Proof.
  unfold copy_dir. destruct (_ && _); [|apply R_refl].
  apply then_step; [apply makedirs_rev_step|].
  intros s. destruct (stat s _); [by apply R_log | apply R_refl].
Qed.

Lemma copy_walk_keeps fuel src rep top st : post (copy_walk fuel src rep top st) (R st).
Proof.
  revert top st. induction fuel as [|fuel IH]; intros top st; [done|].
  cbn [copy_walk]. destruct (scandir st top) as [[dirs files]|]; [|apply R_refl].
  apply then_step; [|intros s; apply for_each_step; intros d s'; apply IH].
  unfold copy_visit. apply then_step.
  { destruct (negb _); [apply makedirs_joined_step | apply R_refl]. }
  intros s. apply then_step.
  - apply for_each_step. intros f s'. apply copy_file_step_keeps.
  - intros s'. apply for_each_step. intros d s''. apply copy_dir_step_keeps.
Qed.
End reconciler_steps.

Section pruner_steps.
Hypothesis R_remove : ∀ p s, post (remove p s) (R s).
Hypothesis R_rmdir : ∀ p s, post (rmdir p s) (R s).
Hypothesis R_log : ∀ n p t s, post (log_and_print (Event n p Deleted t) s) (R s).

Lemma remove_walk_keeps fuel src rep top st : post (remove_walk fuel src rep top st) (R st).
Proof.
  revert top st. induction fuel as [|fuel IH]; intros top st; [done|].
  cbn [remove_walk]. destruct (scandir st top) as [[dirs files]|]; [|apply R_refl].
  apply then_step; [apply for_each_step; intros d s; apply IH|].
  intros s. unfold remove_visit. apply then_step.
  - apply for_each_step. intros f s'. unfold remove_file.
    destruct (negb _); [|apply R_refl].
    apply then_step; [apply R_remove | intros s''; apply R_log].
  - intros s'. apply for_each_step. intros d s''. unfold remove_dir.
    destruct (listdir s'' _); [|apply R_refl].
    destruct (_ && _); [|apply R_refl].
    apply then_step; [apply R_rmdir | intros s3; apply R_log].
Qed.
End pruner_steps.
End steps.

(** ** The log and the console *)

Lemma same_log_refl st : same_log st st.
Proof. by repeat split. Qed.

Lemma mkdir_same_log p st : post (mkdir p st) (same_log st).
Proof.
  unfold mkdir. repeat case_match; simpl; try apply same_log_refl; apply same_log_set_fs.
Qed.

Lemma copy2_same_log a b st : post (copy2 a b st) (same_log st).
Proof.
  unfold copy2. repeat case_match; simpl; try apply same_log_refl; apply same_log_set_fs.
Qed.

Lemma remove_same_log p st : post (remove p st) (same_log st).
Proof.
  unfold remove. repeat case_match; simpl; try apply same_log_refl; apply same_log_set_fs.
Qed.

Lemma rmdir_same_log p st : post (rmdir p st) (same_log st).
Proof.
  unfold rmdir. repeat case_match; simpl; try apply same_log_refl; apply same_log_set_fs.
Qed.

Lemma log_grown_by_refl P st : log_grown_by P st st.
Proof. split; [done|]. exists []. by rewrite !app_nil_r. Qed.

Lemma log_grown_by_trans P s1 s2 s3 :
  log_grown_by P s1 s2 → log_grown_by P s2 s3 → log_grown_by P s1 s3.
Proof.
  intros (Hw1 & n1 & Hl1 & Hc1 & HP1) (Hw2 & n2 & Hl2 & Hc2 & HP2).
  split; [congruence|]. exists (n1 ++ n2).
  rewrite Hl2, Hl1, Hc2, Hc1, <- !(assoc_L (++)). by rewrite Forall_app.
Qed.

Lemma same_log_grown P st st' : same_log st st' → log_grown_by P st st'.
Proof.
  intros (Hw & Hl & Hc & _). split; [done|]. exists []. by rewrite !app_nil_r.
Qed.

Lemma log_and_print_grown (P : event → Prop) ev st :
  P ev → post (log_and_print ev st) (log_grown_by P st).
Proof.
  intros HP. unfold log_and_print. destruct (log_writable st) eqn:Hw; simpl.
  - split; [done|]. exists [ev]. by rewrite Forall_singleton.
  - apply log_grown_by_refl.
Qed.

Lemma log_grown_by_weaken (P Q : event → Prop) st st' :
  (∀ ev, P ev → Q ev) → log_grown_by P st st' → log_grown_by Q st st'.
Proof.
  intros HPQ (Hw & new & Hl & Hc & HP). split; [done|]. exists new.
  repeat split; try done. eapply Forall_impl; eauto.
Qed.

Lemma copy_walk_log fuel src rep top st :
  post (copy_walk fuel src rep top st)
       (log_grown_by (fun ev => ev_verb ev = Created ∨ ev_verb ev = Modified) st).
Proof.
  apply copy_walk_keeps.
  - apply log_grown_by_refl.
  - apply log_grown_by_trans.
  - intros p s. eapply post_weaken; [apply mkdir_same_log | apply same_log_grown].
  - intros a b s. eapply post_weaken; [apply copy2_same_log | apply same_log_grown].
  - intros n p v t s Hv. apply log_and_print_grown. simpl. destruct v; auto. done.
Qed.

Lemma remove_walk_log fuel src rep top st :
  post (remove_walk fuel src rep top st)
       (log_grown_by (fun ev => ev_verb ev = Deleted) st).
Proof.
  apply remove_walk_keeps.
  - apply log_grown_by_refl.
  - apply log_grown_by_trans.
  - intros p s. eapply post_weaken; [apply remove_same_log | apply same_log_grown].
  - intros p s. eapply post_weaken; [apply rmdir_same_log | apply same_log_grown].
  - intros n p t s. by apply log_and_print_grown.
Qed.

Lemma sync_pass_log fuel src rep st :
  post (sync_pass fuel src rep st) (log_grown_by (fun _ => True) st).
Proof.
  unfold sync_pass, copy_files_and_dirs, remove_files_and_dirs.
  apply then_step; [apply log_grown_by_trans | |].
  - eapply post_weaken; [apply copy_walk_log|].
    intros s. by apply log_grown_by_weaken.
  - intros s. eapply post_weaken; [apply remove_walk_log|].
    intros s'. by apply log_grown_by_weaken.
Qed.

(** X3: each phase logs its own kind of line: the lines the reconciler adds say
    "created" or "modified", the lines the pruner adds say "deleted".  In
    both, whatever the outcome, the console has grown by the very lines the
    log file has grown by. *)
Theorem phases_log_their_own_verbs (fuel : nat) (src rep : path) (st : state) :
  post (copy_files_and_dirs fuel src rep st)
       (log_grown_by (fun ev => ev_verb ev = Created ∨ ev_verb ev = Modified) st)
  ∧ post (remove_files_and_dirs fuel src rep st)
         (log_grown_by (fun ev => ev_verb ev = Deleted) st).
Proof. split; [apply copy_walk_log | apply remove_walk_log]. Qed.

(** X4: the log file is only ever appended to, and the console shows what the
    log file holds: over any number of rounds of the loop, whether they
    return or an exception ends them, the lines in the log at the start are
    still there, and the lines added to the log are the lines added to the
    console, in the same order. *)
Theorem console_shows_what_is_logged
    (passes fuel : nat) (src rep : path) (sync_interval : Z) (st : state) :
  post (sync_loop passes fuel src rep sync_interval st) (log_grown_by (fun _ => True) st).
Proof.
  revert st. induction passes as [|passes IH]; intros st; [apply log_grown_by_refl|].
  cbn [sync_loop].
  assert (Hpass : post (do s <- copy_files_and_dirs fuel src rep st;
                        remove_files_and_dirs fuel src rep s)
                       (log_grown_by (fun _ => True) st)) by apply sync_pass_log.
  destruct (copy_files_and_dirs fuel src rep st) as [s1|e s1|]; [|done|done].
  cbn [bind] in *.
  destruct (remove_files_and_dirs fuel src rep s1) as [s2|e s2|]; [|done|done].
  cbn [bind] in *. unfold sleep.
  destruct (_ || _); [done|].
  destruct (sync_interval <? 0); [done|]. cbn [bind].
  eapply post_weaken; [apply IH|].
  intros s3. apply log_grown_by_trans.
  eapply log_grown_by_trans; [exact Hpass|]. by apply same_log_grown.
Qed.

(** ** A log that cannot be written *)






Lemma set_fs_writable s m : set_fs (with_writable_log s) m = with_writable_log (set_fs s m).
Proof. reflexivity. Qed.






























(** ** What a phase never does *)

Lemma nothing_lost_refl st : nothing_lost st st.
Proof. intros p e He. by exists e. Qed.

Lemma nothing_lost_trans s1 s2 s3 :
  nothing_lost s1 s2 → nothing_lost s2 s3 → nothing_lost s1 s3.
Proof.
  intros H12 H23 p e He. destruct (H12 p e He) as (e2 & He2 & Hk2).
  destruct (H23 p e2 He2) as (e3 & He3 & Hk3). exists e3. split; [done | congruence].
Qed.

Lemma touch_parent_kept (now : Z) (p q : path) (m : gmap path entry) (e : entry) :
  m !! q = Some e →
  ∃ e', touch_parent now p m !! q = Some e' ∧ is_dir_entry e' = is_dir_entry e.
Proof.
  intros He. unfold touch_parent. destruct p as [|x l]; [by exists e|].
  destruct (decide (q = parent (x :: l))) as [->|Hne].
  - rewrite lookup_alter_eq, He. by eexists.
  - rewrite lookup_alter_ne by done. by exists e.
Qed.

Lemma mkdir_nothing_lost p st : post (mkdir p st) (nothing_lost st).
Proof.
  unfold mkdir. destruct (path_exists st p) eqn:Hex; [apply nothing_lost_refl|].
  assert (Hp : fs st !! p = None).
  { unfold path_exists in Hex. by destruct (fs st !! p). }
  assert (Hins : ∀ m, (∀ q e, fs st !! q = Some e →
                         ∃ e', m !! q = Some e' ∧ is_dir_entry e' = is_dir_entry e) →
                      nothing_lost st
                        (set_fs st (<[p := Entry KDir (clock st) (clock st)]> m))).
  { intros m Hm q e He. rewrite fs_set_fs, lookup_insert_ne by congruence. by apply Hm. }
  destruct p as [|x l]; cbn [post].
  - apply Hins. intros q e He. by exists e.
  - destruct (fs st !! parent (x :: l)) as [e|]; [|apply nothing_lost_refl].
    destruct (is_dir_entry e); [|apply nothing_lost_refl].
    cbn [post]. apply Hins. intros q e' He'. by apply touch_parent_kept.
Qed.

Lemma copy2_nothing_lost a b st : post (copy2 a b st) (nothing_lost st).
Proof.
  unfold copy2. set (dst := if isdir st b then _ else _). clearbody dst.
  destruct (decide (a = dst)); [apply nothing_lost_refl|].
  destruct (fs st !! a) as [[[c|] m ct]|]; try apply nothing_lost_refl.
  destruct (fs st !! dst) as [[[c'|] m' ct']|] eqn:Hdst; try apply nothing_lost_refl.
  - intros q e He. rewrite fs_set_fs.
    destruct (decide (q = dst)) as [->|Hne].
    + rewrite lookup_insert_eq. eexists. split; [done|].
      rewrite Hdst in He. by injection He as <-.
    + rewrite lookup_insert_ne by done. by exists e.
  - destruct (fs st !! parent dst) as [e|]; [|apply nothing_lost_refl].
    destruct (is_dir_entry e); [|apply nothing_lost_refl].
    intros q e' He'. rewrite fs_set_fs, lookup_insert_ne by congruence.
    by apply touch_parent_kept.
Qed.

Lemma log_and_print_nothing_lost ev st : post (log_and_print ev st) (nothing_lost st).
Proof.
  eapply post_weaken; [apply log_and_print_fs|].
  intros s Hs p e He. exists e. by rewrite Hs.
Qed.

(** X5: the reconciler never removes anything: every file and every directory
    there is when it starts, in the replica or anywhere else, is still
    there when it ends, a file as a file and a directory as a directory. *)
Theorem reconciler_never_removes (fuel : nat) (src rep : path) (st : state) :
  post (copy_files_and_dirs fuel src rep st) (nothing_lost st).
Proof.
  apply copy_walk_keeps.
  - apply nothing_lost_refl.
  - apply nothing_lost_trans.
  - apply mkdir_nothing_lost.
  - apply copy2_nothing_lost.
  - intros n p v t s _. apply log_and_print_nothing_lost.
Qed.

Lemma nothing_new_trans s1 s2 s3 :
  nothing_new s1 s2 → nothing_new s2 s3 → nothing_new s1 s3.
Proof.
  intros H12 H23 q. destruct (H23 q) as [H|H]; [|by right].
  rewrite H. apply H12.
Qed.

Lemma nothing_new_delete st st' p :
  skm st' = delete p (skm st) → nothing_new st st'.
Proof.
  intros Hs q. rewrite Hs. destruct (decide (q = p)) as [->|Hne].
  - right. apply lookup_delete_eq.
  - left. by apply lookup_delete_ne.
Qed.

Lemma wf_delete_file st st' p c m ct :
  wf st → skm st !! p = Some (SFile c m ct) → skm st' = delete p (skm st) → wf st'.
Proof.
  intros Hwf Hp Hs. unfold wf. rewrite Hs. apply wfm_delete; [done|].
  intros n. apply wfm_not_dir_below; [done | by rewrite Hp | done].
Qed.

Lemma remove_nothing_new p st :
  wf st → post (remove p st) (fun st' => wf st' ∧ nothing_new st st').
Proof.
  intros Hwf. destruct (skm st !! p) as [[|c m ct]|] eqn:Hp.
  - apply skm_dir in Hp as ([k m ct] & He & Hd). unfold remove. rewrite He.
    destruct k; [done|]. simpl. split; [done | by left].
  - destruct (remove_spec p st c m ct Hwf Hp) as (st' & -> & Hs & _). simpl.
    split; [by eapply wf_delete_file | by eapply nothing_new_delete].
  - apply skm_None in Hp. unfold remove. rewrite Hp. simpl. split; [done | by left].
Qed.

Lemma rmdir_nothing_new p st :
  wf st → post (rmdir p st) (fun st' => wf st' ∧ nothing_new st st').
Proof.
  intros Hwf. unfold rmdir.
  destruct (listdir st p) as [[|n names]|] eqn:Hls.
  - assert (Hd : skm st !! p = Some SDir).
    { apply isdir_true. unfold listdir in Hls. by destruct (isdir st p). }
    assert (Hempty : ∀ n, skm st !! (p ++ [n]) = None).
    { intros n. destruct (listdir_spec st p Hd) as (names & Hn & Hiff).
      rewrite Hls in Hn. injection Hn as <-.
      destruct (skm st !! (p ++ [n])) eqn:Hc; [|done].
      exfalso. eapply not_elem_of_nil. apply (Hiff n). by eexists. }
    destruct (rmdir_spec p st Hwf Hd Hempty) as (st' & Hrun & Hs & _).
    unfold rmdir in Hrun. rewrite Hls in Hrun. rewrite Hrun. simpl. split.
    + unfold wf. rewrite Hs. by apply wfm_delete.
    + by eapply nothing_new_delete.
  - simpl. split; [done | by left].
  - destruct (path_exists st p); simpl; (split; [done | by left]).
Qed.

Lemma log_and_print_nothing_new ev st :
  wf st → post (log_and_print ev st) (fun st' => wf st' ∧ nothing_new st st').
Proof.
  intros Hwf. eapply post_weaken; [apply log_and_print_fs|].
  intros s Hs. apply skm_fs_eq in Hs. unfold wf, nothing_new. rewrite Hs.
  split; [done | by left].
Qed.

(** X6: the pruner never adds or alters anything: on a filesystem that is a
    tree, every file there is when it ends was there when it started, with
    the same content and the same time stamps, and every directory was a
    directory. *)
Theorem pruner_never_adds_or_alters (fuel : nat) (src rep : path) (st : state) :
  wf st →
  post (remove_files_and_dirs fuel src rep st) (fun st' => wf st' ∧ nothing_new st st').
Proof.
  intros Hwf.
  pose (R := fun s s' : state => wf s → wf s' ∧ nothing_new s s').
  assert (H : post (remove_walk fuel src rep rep st) (R st)).
  { apply remove_walk_keeps.
    - intros s Hs. split; [done | by left].
    - intros s1 s2 s3 H12 H23 H1. destruct (H12 H1) as [H2 Hn12].
      destruct (H23 H2) as [H3 Hn23]. split; [done|]. by eapply nothing_new_trans.
    - intros p s. unfold R. destruct (remove p s) as [s'|e s'|] eqn:Hrun; [| |done];
        simpl; intros Hs; pose proof (remove_nothing_new p s Hs) as Hpost;
        by rewrite Hrun in Hpost.
    - intros p s. unfold R. destruct (rmdir p s) as [s'|e s'|] eqn:Hrun; [| |done];
        simpl; intros Hs; pose proof (rmdir_nothing_new p s Hs) as Hpost;
        by rewrite Hrun in Hpost.
    - intros n p t s. unfold R.
      destruct (log_and_print (Event n p Deleted t) s) as [s'|e s'|] eqn:Hrun; [| |done];
        simpl; intros Hs;
        pose proof (log_and_print_nothing_new (Event n p Deleted t) s Hs) as Hpost;
        by rewrite Hrun in Hpost. }
  unfold remove_files_and_dirs. eapply post_weaken; [exact H|].
  intros s Hs. by apply Hs.
Qed.

Lemma pruner_never_adds_or_alters_witness :
  wf cascade_state
  ∧ post (remove_files_and_dirs 3 ["source"] ["replica"] cascade_state)
         (fun st' => wf st' ∧ nothing_new cascade_state st').
Proof.
  assert (Hwf : wf cascade_state) by (apply wfb_wf; vm_compute; reflexivity).
  split; [exact Hwf|].
  exact (pruner_never_adds_or_alters 3 ["source"] ["replica"] cascade_state Hwf).
Defined.

(** ** The pruner on a whole replica *)

Lemma doomed_root_iff (src rep : path) (m0 : gmap path skel) (k : path) :
  doomed src rep m0 [] (rep ++ k) ↔ k ≠ [] ∧ m0 !! (src ++ k) = None.
Proof.
  split.
  - intros (k' & Hk' & Hq & Hnone). simpl in Hq, Hnone.
    apply app_inv_head in Hq as <-. done.
  - intros [Hk Hnone]. by exists k.
Qed.

Lemma root_not_doomed (src rep : path) (m0 : gmap path skel) : ¬ doomed src rep m0 [] rep.
Proof.
  intros (k & Hk & Hq & _). simpl in Hq.
  rewrite <- (app_nil_r rep) in Hq at 1. apply app_inv_head in Hq. by subst k.
Qed.

Lemma doomed_below_replica (src rep : path) (m0 : gmap path skel) (q : path) :
  doomed src rep m0 [] q → ∃ k, k ≠ [] ∧ q = rep ++ k.
Proof. intros (k & Hk & Hq & _). by exists k. Qed.

(** X7: the pruner removes the extraneous entries and nothing else: on a
    filesystem that is a tree, with a writable log, it returns; every
    replica path with nothing at the same place in the source is gone;
    every replica path with a source counterpart, the replica root, and
    everything outside the replica are as they were. *)
Theorem pruner_removes_exactly_the_extraneous
    (fuel : nat) (src rep : path) (st : state) :
  separate src rep →
  wf st → log_writable st = true →
  skm st !! rep = Some SDir →
  (∀ k, is_Some (skm st !! (rep ++ k)) → (length k < fuel)%nat) →
  ∃ st', remove_files_and_dirs fuel src rep st = Done st'
         ∧ (∀ k, k ≠ [] → skm st !! (src ++ k) = None → skm st' !! (rep ++ k) = None)
         ∧ (∀ k, is_Some (skm st !! (src ++ k)) →
                 skm st' !! (rep ++ k) = skm st !! (rep ++ k))
         ∧ skm st' !! rep = Some SDir
         ∧ (∀ q, ¬ rep `prefix_of` q → skm st' !! q = skm st !! q).
Proof.
  intros Hsep Hwf Hw Hrep Hdepth.
  destruct (remove_files_and_dirs_spec fuel src rep st)
    as (st' & Hrun & _ & _ & [_ Hkept Hgone] & _); try done.
  exists st'. split; [done|]. split; [|split; [|split]].
  - intros k Hk Hnone. apply Hgone. by apply doomed_root_iff.
  - intros k [x Hx]. apply Hkept. intros Hd. apply doomed_root_iff in Hd as [_ Hd].
    congruence.
  - rewrite <- Hrep. apply Hkept, root_not_doomed.
  - intros q Hq. apply Hkept. intros Hd.
    apply doomed_below_replica in Hd as (k & _ & ->). apply Hq. by apply prefix_app_r.
Qed.

Lemma pruner_removes_exactly_the_extraneous_witness :
  ∃ st', remove_files_and_dirs 3 ["source"] ["replica"] cascade_state = Done st'
         ∧ (∀ k, k ≠ [] → skm cascade_state !! (["source"] ++ k) = None →
                 skm st' !! (["replica"] ++ k) = None)
         ∧ (∀ k, is_Some (skm cascade_state !! (["source"] ++ k)) →
                 skm st' !! (["replica"] ++ k) = skm cascade_state !! (["replica"] ++ k))
         ∧ skm st' !! ["replica"] = Some SDir
         ∧ (∀ q, ¬ ["replica"] `prefix_of` q → skm st' !! q = skm cascade_state !! q).
Proof.
  refine (pruner_removes_exactly_the_extraneous 3 ["source"] ["replica"] cascade_state
            separate_source_replica _ _ _ _).
  - apply wfb_wf. vm_compute. reflexivity.
  - reflexivity.
  - vm_compute. reflexivity.
  - apply (shallowb_depth 3 ["replica"]). vm_compute. reflexivity.
Defined.

(** X8: the pruner logs one line for each entry it removes, neither more nor
    fewer: the lines added to the log are "deleted" lines, one for each
    replica path with nothing at the same place in the source, each path
    once, and what is inside a directory before the directory.  A line for
    a file names the path the file would have in the source; a line for a
    directory names the replica directory. *)
Theorem pruner_logs_one_line_per_removal
    (fuel : nat) (src rep : path) (st : state) :
  separate src rep →
  wf st → log_writable st = true →
  skm st !! rep = Some SDir →
  (∀ k, is_Some (skm st !! (rep ++ k)) → (length k < fuel)%nat) →
  ∃ st' ks new,
    remove_files_and_dirs fuel src rep st = Done st'
    ∧ log_lines st' = log_lines st ++ new
    ∧ console st' = console st ++ new
    ∧ Forall2 (line_for src rep st) ks new
    ∧ NoDup ks
    ∧ children_first ks
    ∧ ∀ k, k ∈ ks ↔ k ≠ [] ∧ is_Some (skm st !! (rep ++ k)) ∧ skm st !! (src ++ k) = None.
Proof.
  intros Hsep Hwf Hw Hrep Hdepth.
  destruct (remove_files_and_dirs_spec fuel src rep st)
    as (st' & Hrun & _ & _ & _ & (ks & new & Hl & Hc & Hlines & Hnd & Hcf & Hks));
    try done.
  exists st', ks, new. repeat (split; [done|]).
  intros k. rewrite Hks, doomed_root_iff. tauto.
Qed.

Lemma pruner_logs_one_line_per_removal_witness :
  ∃ st' ks new,
    remove_files_and_dirs 3 ["source"] ["replica"] cascade_state = Done st'
    ∧ log_lines st' = log_lines cascade_state ++ new
    ∧ console st' = console cascade_state ++ new
    ∧ Forall2 (line_for ["source"] ["replica"] cascade_state) ks new
    ∧ NoDup ks
    ∧ children_first ks
    ∧ ∀ k, k ∈ ks ↔ k ≠ [] ∧ is_Some (skm cascade_state !! (["replica"] ++ k))
                   ∧ skm cascade_state !! (["source"] ++ k) = None.
Proof.
  refine (pruner_logs_one_line_per_removal 3 ["source"] ["replica"] cascade_state
            separate_source_replica _ _ _ _).
  - apply wfb_wf. vm_compute. reflexivity.
  - reflexivity.
  - vm_compute. reflexivity.
  - apply (shallowb_depth 3 ["replica"]). vm_compute. reflexivity.
Defined.

(** X9: when the source root is not there, or is not a directory, the walk of
    the source visits nothing and the pruner finds no counterpart for
    anything: the pass returns and has emptied the replica, whose root
    alone is left. *)
Theorem pass_empties_replica_when_source_is_gone
    (fuel : nat) (src rep : path) (st : state) :
  separate src rep →
  wf st → log_writable st = true →
  skm st !! src ≠ Some SDir →
  skm st !! rep = Some SDir →
  (∀ k, is_Some (skm st !! (rep ++ k)) → (length k < fuel)%nat) →
  ∃ st', sync_pass fuel src rep st = Done st'
         ∧ skm st' !! rep = Some SDir
         ∧ ∀ k, k ≠ [] → skm st' !! (rep ++ k) = None.
Proof.
  intros Hsep Hwf Hw Hsrc Hrep Hdepth.
  assert (Hcopy : copy_files_and_dirs fuel src rep st = Done st).
  { destruct fuel as [|fuel].
    - specialize (Hdepth []). rewrite app_nil_r, Hrep in Hdepth.
      assert (length (@nil string) < 0)%nat by (apply Hdepth; by eexists).
      simpl in *. lia.
    - unfold copy_files_and_dirs. cbn [copy_walk].
      rewrite scandir_None; [done|]. by apply isdir_false. }
  unfold sync_pass. rewrite Hcopy. cbn [bind].
  destruct (remove_files_and_dirs_spec fuel src rep st)
    as (st' & Hrun & _ & _ & [_ Hkept Hgone] & _); try done.
  exists st'. split; [done|]. split.
  - rewrite <- Hrep. apply Hkept, root_not_doomed.
  - intros k Hk. apply Hgone. apply doomed_root_iff. split; [done|].
    by apply wfm_not_dir_below.
Qed.

Lemma pass_empties_replica_when_source_is_gone_witness :
  ∃ st', sync_pass 3 ["source"] ["replica"] orphan_state = Done st'
         ∧ skm st' !! ["replica"] = Some SDir
         ∧ ∀ k, k ≠ [] → skm st' !! (["replica"] ++ k) = None.
Proof.
  refine (pass_empties_replica_when_source_is_gone 3 ["source"] ["replica"] orphan_state
            separate_source_replica _ _ _ _ _).
  - apply wfb_wf. vm_compute. reflexivity.
  - reflexivity.
  - vm_compute. discriminate.
  - vm_compute. reflexivity.
  - apply (shallowb_depth 3 ["replica"]). vm_compute. reflexivity.
Defined.

(** ** The reconciler, one entry at a time: new files and lost lines *)

(** X10: a source file with nothing at its place in the replica is copied with
    its content and its modification time, the replica directory is
    stamped, and one "created" line is logged; the time in that line is the
    [st_ctime] of the source file, not the time of the copy. *)
Theorem copy_file_creates_missing_file
    (st : state) (source_root folder_replica_path : path) (f : string)
    (c : string) (m ct : Z) (e : entry) :
  log_writable st = true →
  fs st !! (source_root ++ [f]) = Some (Entry (KFile c) m ct) →
  fs st !! (folder_replica_path ++ [f]) = None →
  fs st !! folder_replica_path = Some e → is_dir_entry e = true →
  copy_file source_root folder_replica_path f st
  = Done (State (<[folder_replica_path ++ [f] := Entry (KFile c) m (clock st)]>
                   (alter (touch (clock st)) folder_replica_path (fs st)))
                (clock st + 1) true
                (log_lines st ++ [Event NFile (source_root ++ [f]) Created ct])
                (console st ++ [Event NFile (source_root ++ [f]) Created ct])
                (date_error st)).
Proof.
  intros Hw Hs Hr He Hd.
  assert (Hne : source_root ++ [f] ≠ folder_replica_path ++ [f]) by congruence.
  assert (Hne' : source_root ++ [f] ≠ folder_replica_path).
  { intros Heq. rewrite Heq, He in Hs. injection Hs as ->. done. }
  unfold copy_file, path_exists. rewrite Hr. cbn [negb].
  unfold copy2, isdir. rewrite Hr.
  destruct (decide _) as [|_]; [done|].
  rewrite Hs, Hr, parent_snoc, He, Hd. cbn [bind].
  unfold stat. rewrite fs_set_fs, lookup_insert_ne by done.
  unfold touch_parent. destruct (folder_replica_path ++ [f]) as [|x l] eqn:Hp.
  { by destruct folder_replica_path. }
  rewrite <- Hp, parent_snoc, lookup_alter_ne, Hs by done.
  unfold log_and_print, set_fs. cbn [log_writable fs clock log_lines console st_ctime].
  by rewrite Hw.
Qed.

Lemma copy_file_creates_missing_file_witness :
  copy_file ["source"] ["replica"] "a" (with_writable_log unwritable_log_state)
  = Done (State (<[["replica"] ++ ["a"] := Entry (KFile "A") 5 100]>
                   (alter (touch 100) ["replica"] (fs unwritable_log_state)))
                (100 + 1) true
                ([] ++ [Event NFile (["source"] ++ ["a"]) Created 5])
                ([] ++ [Event NFile (["source"] ++ ["a"]) Created 5])
                utc_dates).
Proof.
  apply (copy_file_creates_missing_file (with_writable_log unwritable_log_state)
           ["source"] ["replica"] "a" "A" 5 5 (Entry KDir 2 2)); reflexivity.
Defined.

(** X11: a line that could not be written is lost for good.  When the log cannot
    be written, a new file is copied all the same and the pass ends on the
    failed write; from then on the replica file has the modification time of
    the source, so a later visit, even with the log writable again, finds
    nothing to do and logs nothing. *)
Theorem lost_created_line_is_never_logged
    (st : state) (source_root folder_replica_path : path) (f : string)
    (c : string) (m ct : Z) (e : entry) :
  log_writable st = false →
  fs st !! (source_root ++ [f]) = Some (Entry (KFile c) m ct) →
  fs st !! (folder_replica_path ++ [f]) = None →
  fs st !! folder_replica_path = Some e → is_dir_entry e = true →
  ∃ st1, copy_file source_root folder_replica_path f st = Raised LogWriteError st1
         ∧ fs st1 !! (folder_replica_path ++ [f]) = Some (Entry (KFile c) m (clock st))
         ∧ log_lines st1 = log_lines st
         ∧ console st1 = console st
         ∧ copy_file source_root folder_replica_path f (with_writable_log st1)
           = Done (with_writable_log st1).
Proof.
  intros Hw Hs Hr He Hd.
  assert (Hne : source_root ++ [f] ≠ folder_replica_path ++ [f]) by congruence.
  assert (Hne' : source_root ++ [f] ≠ folder_replica_path).
  { intros Heq. rewrite Heq, He in Hs. injection Hs as ->. done. }
  assert (Hsrc : ∀ m0 : gmap path entry,
            m0 = fs st →
            <[folder_replica_path ++ [f] := Entry (KFile c) m (clock st)]>
              (touch_parent (clock st) (folder_replica_path ++ [f]) m0)
            !! (source_root ++ [f]) = Some (Entry (KFile c) m ct)).
  { intros m0 ->. rewrite lookup_insert_ne by done.
    unfold touch_parent. destruct (folder_replica_path ++ [f]) as [|x l] eqn:Hp.
    { by destruct folder_replica_path. }
    rewrite <- Hp, parent_snoc, lookup_alter_ne by done. exact Hs. }
  unfold copy_file at 1. unfold path_exists. rewrite Hr. cbn [negb].
  unfold copy2, isdir. rewrite Hr.
  destruct (decide _) as [|_]; [done|].
  rewrite Hs, Hr, parent_snoc, He, Hd. cbn [bind].
  unfold stat. rewrite fs_set_fs, Hsrc by done.
  unfold log_and_print. cbn [set_fs log_writable]. rewrite Hw.
  eexists. split; [reflexivity|].
  split; [by rewrite fs_set_fs, lookup_insert_eq|].
  split; [done|]. split; [done|].
  unfold copy_file, path_exists, stat, with_writable_log.
  cbn [fs set_fs]. rewrite lookup_insert_eq, Hsrc by done.
  cbn [negb st_mtime]. by rewrite Z.eqb_refl.
Qed.

Lemma lost_created_line_is_never_logged_witness :
  ∃ st1, copy_file ["source"] ["replica"] "a" unwritable_log_state = Raised LogWriteError st1
         ∧ fs st1 !! (["replica"] ++ ["a"]) = Some (Entry (KFile "A") 5 (clock unwritable_log_state))
         ∧ log_lines st1 = log_lines unwritable_log_state
         ∧ console st1 = console unwritable_log_state
         ∧ copy_file ["source"] ["replica"] "a" (with_writable_log st1)
           = Done (with_writable_log st1).
Proof.
  apply (lost_created_line_is_never_logged unwritable_log_state
           ["source"] ["replica"] "a" "A" 5 5 (Entry KDir 2 2)); reflexivity.
Defined.

(** X12: a sub-directory of the source that the replica has already is passed
    over; one that the replica lacks is made in the replica directory, which
    is stamped, and one "created" line is logged: it names the replica
    directory, and its time is the [st_ctime] of the new directory, the time
    it was made. *)
Theorem copy_dir_makes_missing_directory
    (st : state) (source_root folder_replica_path : path) (d : string) (e : entry) :
  path_exists st (source_root ++ [d]) = true →
  (path_exists st (folder_replica_path ++ [d]) = true →
     copy_dir source_root folder_replica_path d st = Done st)
  ∧ (log_writable st = true →
     fs st !! (folder_replica_path ++ [d]) = None →
     fs st !! folder_replica_path = Some e → is_dir_entry e = true →
     copy_dir source_root folder_replica_path d st
     = Done (State (<[folder_replica_path ++ [d] := Entry KDir (clock st) (clock st)]>
                      (alter (touch (clock st)) folder_replica_path (fs st)))
                   (clock st + 1) true
                   (log_lines st
                      ++ [Event NFolder (folder_replica_path ++ [d]) Created (clock st)])
                   (console st
                      ++ [Event NFolder (folder_replica_path ++ [d]) Created (clock st)])
                   (date_error st))).
Proof.
  intros Hs. unfold copy_dir. rewrite Hs. split.
  - by intros ->.
  - intros Hw Hr He Hd. unfold path_exists at 1. rewrite Hr. cbn [negb andb].
    unfold makedirs. rewrite rev_unit. cbn [makedirs_rev]. rewrite rev_involutive.
    unfold path_exists at 1. rewrite He. cbn [bind].
    replace (rev (d :: rev folder_replica_path)) with (folder_replica_path ++ [d])
      by (simpl; by rewrite rev_involutive).
    unfold mkdir, path_exists. rewrite Hr.
    destruct (folder_replica_path ++ [d]) as [|x l] eqn:Hp.
    { by destruct folder_replica_path. }
    rewrite <- Hp, parent_snoc, He, Hd. cbn [bind].
    unfold stat. rewrite fs_set_fs, lookup_insert_eq.
    unfold touch_parent. rewrite Hp. rewrite <- Hp, parent_snoc.
    unfold log_and_print, set_fs. cbn [log_writable fs clock log_lines console st_ctime].
    by rewrite Hw.
Qed.

Lemma copy_dir_makes_missing_directory_witness :
  copy_dir ["source"] ["replica"] "a" stale_state
  = Done (State (<[["replica"] ++ ["a"] := Entry KDir 100 100]>
                   (alter (touch 100) ["replica"] (fs stale_state)))
                (100 + 1) true
                ([] ++ [Event NFolder (["replica"] ++ ["a"]) Created 100])
                ([] ++ [Event NFolder (["replica"] ++ ["a"]) Created 100])
                utc_dates).
Proof.
  apply (copy_dir_makes_missing_directory stale_state ["source"] ["replica"] "a"
           (Entry KDir 2 2)); reflexivity.
Defined.

(** ** A directory in the source where the replica has a file *)

(** X13: when the walk reaches a source directory that holds a file, and the
    replica has a regular file at the place of that directory, nothing is
    made (the path exists) and the copy of the first file fails: the walk
    ends with [NotADirectoryError], the filesystem and the log untouched. *)
Theorem reconciler_stops_at_file_in_place_of_directory
    (fuel : nat) (st : state) (src rep r : path) (dirs files : list string) (f : string)
    (c : string) (m ct : Z) (e : entry) :
  r ≠ [] →
  scandir st (src ++ r) = Some (dirs, f :: files) →
  fs st !! ((src ++ r) ++ [f]) = Some (Entry (KFile c) m ct) →
  fs st !! (rep ++ r) = Some e → is_dir_entry e = false →
  fs st !! ((rep ++ r) ++ [f]) = None →
  copy_walk (S fuel) src rep (src ++ r) st = Raised NotADirectoryError st.
Proof.
  intros Hr Hscan Hs He Hd Hnone.
  cbn [copy_walk]. rewrite Hscan. unfold copy_visit, relpath.
  rewrite drop_app_length.
  assert (Hex : exists_joined st rep r = true).
  { unfold exists_joined, path_exists. destruct r; [done|]. by rewrite He. }
  rewrite Hex. cbn [negb bind for_each].
  assert (Hcopy : copy_file (src ++ r) (rep ++ r) f st = Raised NotADirectoryError st).
  { unfold copy_file, path_exists. rewrite Hnone. cbn [negb].
    unfold copy2, isdir. rewrite Hnone.
    destruct (decide _) as [Heq|_]; [congruence|].
    by rewrite Hs, Hnone, parent_snoc, He, Hd. }
  by rewrite Hcopy.
Qed.

Lemma reconciler_stops_at_file_in_place_of_directory_witness :
  copy_walk 2 ["source"] ["replica"] (["source"] ++ ["d"]) file_for_directory_state
  = Raised NotADirectoryError file_for_directory_state.
Proof.
  apply (reconciler_stops_at_file_in_place_of_directory 1 file_for_directory_state
           ["source"] ["replica"] ["d"] [] [] "x.txt" "x" 4 4 (Entry (KFile "D") 6 6));
    (done || (vm_compute; reflexivity)).
Defined.

(** X14: a regular file at the place of the replica root: the walk of the source
    starts, the test of line 66 finds no such directory, and [os.makedirs]
    fails on its first visit.  The reconciler ends with
    [NotADirectoryError], nothing copied and nothing logged. *)
Theorem reconciler_raises_when_replica_root_is_a_file
    (fuel : nat) (src rep : path) (st : state) (e : entry) :
  isdir st src = true →
  fs st !! rep = Some e → is_dir_entry e = false →
  copy_files_and_dirs (S fuel) src rep st = Raised NotADirectoryError st.
Proof.
  intros Hsrc He Hd. unfold copy_files_and_dirs. cbn [copy_walk].
  unfold scandir. rewrite Hsrc. unfold copy_visit, relpath. rewrite drop_all.
  unfold exists_joined, makedirs_joined, isdir. by rewrite He, Hd.
Qed.

Lemma reconciler_raises_when_replica_root_is_a_file_witness :
  copy_files_and_dirs 3 ["source"] ["replica"] replica_is_file_state
  = Raised NotADirectoryError replica_is_file_state.
Proof.
  apply (reconciler_raises_when_replica_root_is_a_file 2 ["source"] ["replica"]
           replica_is_file_state (Entry (KFile "R") 2 2)); reflexivity.
Defined.

(** ** Rounds of the loop *)











(** X16: when the two arguments name the same directory, every source file is
    its own replica, with its own modification time, and every replica
    entry is its own source counterpart: a pass changes nothing and logs
    nothing. *)
Theorem pass_on_one_folder_changes_nothing (fuel : nat) (folder : path) (st : state) :
  skm st !! folder = Some SDir →
  (∀ k, is_Some (skm st !! (folder ++ k)) → (length k < fuel)%nat) →
  sync_pass fuel folder folder st = Done st.
Proof.
  intros Hs Hdepth. apply sync_pass_skip; [|done|done].
  split; [done|]. intros k x Hx. exists x. split; [done|]. by destruct x.
Qed.

Lemma pass_on_one_folder_changes_nothing_witness :
  sync_pass 3 ["source"] ["source"] stale_state = Done stale_state.
Proof.
  apply (pass_on_one_folder_changes_nothing 3 ["source"] stale_state).
  - vm_compute. reflexivity.
  - apply (shallowb_depth 3 ["source"]). vm_compute. reflexivity.
Defined.



(** X18: a source directory that is missing when the program starts is made
    before the first pass, with the directories leading to it, and without
    a line in the log.  Whatever conversion [int] the interpreter has, when
    the arguments are accepted, the two folder arguments are paths the
    model follows (not empty, no ['..'] component, within the limits of the
    platform) and the log file lies outside them, on a filesystem that is a
    tree and has no file on the way to the source, the loop is entered with
    the source and what leads to it as directories, everything else and the
    log as they were. *)
Theorem sync_folders_makes_missing_source
    (int : string → option Z) (fuel : nat) (argv : list string)
    (a1 a2 a3 a4 : string) (z : Z) (folder_source folder_replica : path) (st : state) :
  argv !! 1%nat = Some a1 → argv !! 2%nat = Some a2 →
  argv !! 3%nat = Some a3 → argv !! 4%nat = Some a4 →
  int a3 = Some z →
  path_of_string a1 = Some folder_source →
  path_of_string a2 = Some folder_replica →
  log_outside folder_source folder_replica (a4 +:+ ".log") = true →
  wf st →
  skm st !! folder_source = None →
  (∀ q, q `prefix_of` folder_source → skm st !! q = None ∨ skm st !! q = Some SDir) →
  ∃ st', sync_folders int 0 fuel argv st = Looping (Done st')
         ∧ (∀ q, q `prefix_of` folder_source → skm st' !! q = Some SDir)
         ∧ (∀ q, ¬ q `prefix_of` folder_source → skm st' !! q = skm st !! q)
         ∧ same_log st st'.
Proof.
  intros H1 H2 H3 H4 Hz Hs Hr Hout Hwf Hnone Hanc.
  unfold sync_folders, getting_args. rewrite H1, H2, H3, Hz, H4, Hs, Hr, Hout.
  rewrite (proj2 (path_exists_false st _) Hnone). cbn [negb].
  destruct (makedirs_spec _ st Hwf Hnone Hanc) as (st' & -> & _ & Hdirs & Hframe & Hlog).
  cbn [bind sync_loop]. by exists st'.
Qed.

Lemma sync_folders_makes_missing_source_witness :
  ∃ st', sync_folders int_on_ascii 0 3
           ["synchronizer.py"; "data/source"; "replica"; "10"; "logfile"]
           bare_state = Looping (Done st')
         ∧ (∀ q, q `prefix_of` ["data"; "source"] → skm st' !! q = Some SDir)
         ∧ (∀ q, ¬ q `prefix_of` ["data"; "source"] →
                 skm st' !! q = skm bare_state !! q)
         ∧ same_log bare_state st'.
Proof.
  apply (sync_folders_makes_missing_source int_on_ascii 3
           ["synchronizer.py"; "data/source"; "replica"; "10"; "logfile"]
           "data/source" "replica" "10" "logfile" 10 ["data"; "source"] ["replica"]
           bare_state); try reflexivity.
  - apply wfb_wf. vm_compute. reflexivity.
  - apply (replica_root_readyb_ok ["data"; "source"]). vm_compute. reflexivity.
Defined.

(** ** The two phases and the pass, when kinds agree *)



(** X20: one pass is enough when kinds agree: on a filesystem that is a tree,
    with separate roots, a source root that is a directory, a log that can
    be written, a date that can be written for the modification time of
    every source file, no file on the way to the replica root and no path
    that is a file on one side and a directory on the other, the pass
    returns; the replica then has the relative paths of the source and no
    other, each file with the modification time of its source; and nothing
    under the source root has changed. *)
Theorem pass_mirrors_source_when_kinds_agree
    (fuel : nat) (src rep : path) (st : state) :
  separate src rep →
  wf st → log_writable st = true →
  (∀ k c m ct, skm st !! (src ++ k) = Some (SFile c m ct) → date_error st m = None) →
  skm st !! src = Some SDir →
  replica_root_ready rep st →
  no_kind_conflict src rep st →
  (∀ k, is_Some (skm st !! (src ++ k)) ∨ is_Some (skm st !! (rep ++ k)) →
        (length k < fuel)%nat) →
  ∃ st', sync_pass fuel src rep st = Done st'
         ∧ mirror src rep st'
         ∧ mirrored src rep st'
         ∧ source_untouched src st st'.
Proof.
  intros Hsep Hwf Hw Hdates Hsrc Hready Hcompat Hdepth.
  destruct (pass_converges_when_kinds_agree fuel src rep st)
    as (st' & Hrun & Hmirror & _); try done.
  exists st'. split; [done|]. split; [done|]. split; [by apply mirror_mirrored|].
  pose proof (sync_pass_frame fuel src rep st) as Hframe. rewrite Hrun in Hframe.
  intros p Hp. apply Hframe. by apply (separate_not_near src).
Qed.

Lemma pass_mirrors_source_when_kinds_agree_witness :
  ∃ st', sync_pass 3 ["source"] ["replica"] stale_state = Done st'
         ∧ mirror ["source"] ["replica"] st'
         ∧ mirrored ["source"] ["replica"] st'
         ∧ source_untouched ["source"] stale_state st'.
Proof.
  refine (pass_mirrors_source_when_kinds_agree 3 ["source"] ["replica"] stale_state
            separate_source_replica _ _ _ _ _ _ _).
  - apply wfb_wf. vm_compute. reflexivity.
  - reflexivity.
  - apply source_datesb_ok. vm_compute. reflexivity.
  - vm_compute. reflexivity.
  - apply replica_root_readyb_ok. vm_compute. reflexivity.
  - apply no_kind_conflictb_ok. vm_compute. reflexivity.
  - apply shallowb_both; vm_compute; reflexivity.
Defined.


